(** * exostate: the state container, its transaction scope and the
      composite view

    A shallow embedding of [src/store.ts] (both the closure based
    [createStore] and the class [StoreImpl]), [src/transaction.ts] and
    [combineStores], with the properties of the notification protocol,
    and of the code around them: [derive], [createSerializer] with
    [dehydrate] and [rehydrate], [persistLocal], [withMiddleware] and
    [devtoolsMiddleware].

    Conventions of the embedding.
    - A JavaScript value is modelled up to identity: Leibniz equality on
      the type of values is [Object.is].
    - A function that may throw returns a [completion].
    - A closure is a record of its captured variables, stored under its
      identity (a number) in a map; arrays and sets of closures hold the
      identities.
    - [version] is a JavaScript number used as a counter; it is modelled
      by the integer it holds.
    - Selectors and equality functions are total and pure.  Reducers,
      compute functions, effects and batch callbacks may throw.
    - Execution is single-threaded and every mutation runs to completion
      before the next one starts: a subscriber acts on the rest of the
      program and may call unsubscribe handles of the store that is
      notifying it, but does not subscribe to that store, does not start
      a mutation of it and does not throw. *)

From stdpp Require Import gmap list strings.
From Stdlib Require Import ZArith Lia.

Local Open Scope Z_scope.

(** ** Completions and the state-and-exception monad *)

Definition exn := string.

Inductive completion (A : Type) : Type :=
| Normal (a : A)
| Throws (e : exn).
Arguments Normal {A} a.
Arguments Throws {A} e.

Definition is_normal {A} (c : completion A) : bool :=
  if c is Normal _ then true else false.

(** What a notification pass does that an observer can count: the calls
    of the [notify] closures and the calls of the subscribers. *)
Inductive event (R : Type) : Type :=
| Notified (id : nat)
| Fired (id : nat) (v : R).
Arguments Notified {R} id.
Arguments Fired {R} id v.

(** A finished call: how it completed, the state it left and what it
    notified.  A call that throws leaves the state as it was at the
    throw. *)
Record run (W R A : Type) : Type := Run {
  outcome : completion A;
  after : W;
  trace : list (event R)
}.
Arguments Run {W R A} outcome after trace.
Arguments outcome {W R A} r.
Arguments after {W R A} r.
Arguments trace {W R A} r.

Definition M (W R A : Type) : Type := W → run W R A.

Definition ret {W R A} (a : A) : M W R A := λ w, Run (Normal a) w [].

Definition throw {W R A} (e : exn) : M W R A := λ w, Run (Throws e) w [].

Definition bind {W R A B} (m : M W R A) (k : A → M W R B) : M W R B :=
  λ w,
    let r := m w in
    match outcome r with
    | Normal a =>
        let r' := k a (after r) in
        Run (outcome r') (after r') (trace r ++ trace r')
    | Throws e => Run (Throws e) (after r) (trace r)
    end.

Definition get {W R} : M W R W := λ w, Run (Normal w) w [].

Definition modify {W R} (f : W → W) : M W R unit := λ w, Run (Normal tt) (f w) [].

Definition tell {W R} (evs : list (event R)) : M W R unit :=
  λ w, Run (Normal tt) w evs.

(** Calling a user function: its completion becomes the call's. *)
Definition call {W R A} (c : completion A) : M W R A :=
  match c with
  | Normal a => ret a
  | Throws e => throw e
  end.

Notation "x <- m ; k" := (bind m (λ x, k))
  (at level 20, m at level 100, k at level 200, only parsing).
Notation "m >> k" := (bind m (λ _, k))
  (at level 100, k at level 200, right associativity, only parsing).

Fixpoint for_each {W R A} (f : A → M W R unit) (l : list A) : M W R unit :=
  match l with
  | [] => ret tt
  | x :: l' => f x >> for_each f l'
  end.

Fixpoint map_m {W R A B} (f : A → M W R B) (l : list A) : M W R (list B) :=
  match l with
  | [] => ret []
  | x :: l' => y <- f x; ys <- map_m f l'; ret (y :: ys)
  end.

(** A caller that wraps a call in [try]/[catch] and goes on. *)
Definition attempt {W R A} (m : M W R A) : M W R (completion A) :=
  λ w, let r := m w in Run (Normal (outcome r)) (after r) (trace r).

(** A program that makes the given calls one after the other, whatever
    their completions, and collects them. *)
Fixpoint script {W R A} (ms : list (M W R A)) : M W R (list (completion A)) :=
  match ms with
  | [] => ret []
  | m :: ms' => c <- attempt m; cs <- script ms'; ret (c :: cs)
  end.

(** A call relates the state it starts in to the state it leaves. *)
Definition preserves {W R A} (P : W → W → Prop) (m : M W R A) : Prop :=
  ∀ w, P w (after (m w)).

(** The relation of two states that agree on a component. *)
Definition keeps {W X} (f : W → X) : W → W → Prop := λ w w', f w' = f w.

(** A call that returns normally in every state. *)
Definition returns {W R A} (m : M W R A) : Prop :=
  ∀ w, ∃ a, outcome (m w) = Normal a.

(** A call that notifies nobody. *)
Definition quiet {W R A} (m : M W R A) : Prop :=
  ∀ w, trace (m w) = [].

(** ** Types of [types.ts] *)

Section Types.
Context {T R Env : Type}.

(** [Reducer<T, P>], [Compute<T>], [Effect<T, P>] *)
Definition Reducer (P : Type) : Type := T → P → completion T.
Definition Compute : Type := T → completion T.
Definition Effect (P : Type) : Type := T → P → completion unit.

(** [Selector<T, R>] and [Equality<R>] *)
Definition Selector : Type := T → R.
Definition Equality : Type := R → R → bool.

(** [Subscriber<R>]: a callback of the program around the store.  It
    acts on the rest of the program's state [Env] and may call
    unsubscribe handles of the store that is notifying it; the handles
    are named by the identity of the listener they remove. *)
Definition Subscriber : Type := R → Env → Env * list nat.

(** [SubscribeOptions<R>] *)
Record SubscribeOptions : Type := {
  opt_eq : option Equality;
  fireImmediately : option bool
}.

(** The [notify] closure built by [subscribe]: it captures [selector],
    [eq], [subscriber] and the variable [prev]. *)
Record Listener : Type := {
  selector : Selector;
  equality : Equality;
  prev : R;
  subscriber : Subscriber
}.

Definition with_prev (next : R) (l : Listener) : Listener :=
  {| selector := selector l; equality := equality l;
     prev := next; subscriber := subscriber l |}.

(** One [apply(reducer, payload)] call of a batch callback. *)
Record ApplyCall : Type := {
  call_P : Type;
  call_reducer : Reducer call_P;
  call_payload : call_P
}.

(** The callback handed to [batch], as far as the store sees it: it
    returns, throws, or calls the applier and goes on according to how
    that call completed (an uncaught throw of the applier is the
    continuation [CbThrow]). *)
Inductive BatchCallback : Type :=
| CbReturn
| CbThrow (e : exn)
| CbApply (c : ApplyCall) (k : completion unit → BatchCallback).

(** [applier]: [next = reducer(next, payload)] on the local [next]. *)
Definition applier (c : ApplyCall) (next : T) : completion unit * T :=
  match call_reducer c next (call_payload c) with
  | Normal v => (Normal tt, v)
  | Throws e => (Throws e, next)
  end.

Fixpoint run_callback (cb : BatchCallback) (next : T) : completion unit * T :=
  match cb with
  | CbReturn => (Normal tt, next)
  | CbThrow e => (Throws e, next)
  | CbApply c k =>
      let '(r, next') := applier c next in
      run_callback (k r) next'
  end.

(** The applier calls a callback makes, in call order. *)
Fixpoint callback_calls (cb : BatchCallback) (next : T) : list ApplyCall :=
  match cb with
  | CbReturn | CbThrow _ => []
  | CbApply c k =>
      let '(r, next') := applier c next in
      c :: callback_calls (k r) next'
  end.

(** A callback that makes the given calls one after the other and
    catches nothing. *)
Fixpoint callback_of (calls : list ApplyCall) : BatchCallback :=
  match calls with
  | [] => CbReturn
  | c :: cs =>
      CbApply c (λ r, match r with
                      | Normal _ => callback_of cs
                      | Throws e => CbThrow e
                      end)
  end.

(** [reducer_N(... reducer_1(v, p_1) ..., p_N)] *)
Fixpoint fold_calls (calls : list ApplyCall) (v : T) : completion T :=
  match calls with
  | [] => Normal v
  | c :: cs =>
      match call_reducer c v (call_payload c) with
      | Normal v' => fold_calls cs v'
      | Throws e => Throws e
      end
  end.

(** [Array.prototype.indexOf] on an array of closures; [None] is -1. *)
Fixpoint indexOf (l : list nat) (x : nat) : option nat :=
  match l with
  | [] => None
  | y :: l' => if decide (y = x) then Some 0%nat else S <$> indexOf l' x
  end.

(** The mutation entry points of [Store<T>], as calls. *)
Inductive Mutation : Type :=
| MUpdate (c : ApplyCall)
| MSet (next : T)
| MCompute (fn : Compute)
| MBatch (apply : BatchCallback).

(** The calls of [Store<T>]. *)
Inductive StoreOp : Type :=
| OpMutate (m : Mutation)
| OpRead
| OpSnapshot
| OpEffect (P : Type) (fn : Effect P) (payload : P)
| OpSubscribe (sel : Selector) (sub : Subscriber) (options : option SubscribeOptions)
| OpUnsubscribe (id : nat).

(** How the function handed to a mutation entry point completes on the
    value [v], and the value it produces. *)
Definition user_completion (m : Mutation) (v : T) : completion T :=
  match m with
  | MUpdate c => call_reducer c v (call_payload c)
  | MSet next => Normal next
  | MCompute fn => fn v
  | MBatch apply =>
      match run_callback apply v with
      | (Normal _, next) => Normal next
      | (Throws e, _) => Throws e
      end
  end.

(** The [notify] closures a trace shows called, and the subscriber calls. *)
Definition notified (tr : list (event R)) : list nat :=
  omap (λ ev, match ev with Notified id => Some id | Fired _ _ => None end) tr.

Definition fired (tr : list (event R)) : list (nat * R) :=
  omap (λ ev, match ev with Fired id v => Some (id, v) | Notified _ => None end) tr.

Definition is_mutation (op : StoreOp) : bool :=
  match op with
  | OpMutate _ => true
  | _ => false
  end.

(** A call that is a mutation whose function returns normally on [v]. *)
Definition succeeds (op : StoreOp) (v : T) : bool :=
  match op with
  | OpMutate m => if user_completion m v is Normal _ then true else false
  | _ => false
  end.
End Types.

Arguments Reducer : clear implicits.
Arguments Compute : clear implicits.
Arguments Effect : clear implicits.
Arguments Selector : clear implicits.
Arguments Equality : clear implicits.
Arguments Subscriber : clear implicits.
Arguments SubscribeOptions : clear implicits.
Arguments Listener : clear implicits.
Arguments ApplyCall : clear implicits.
Arguments BatchCallback : clear implicits.
Arguments Mutation : clear implicits.
Arguments StoreOp : clear implicits.

(** ** [createStore], closure based (first listing of [store.ts])

    [current], [version] and the array [listeners] are variables captured
    by the object [createStore] returns. *)

Module Closure.
Section Store.
Context {T R Env : Type}.
Context (Object_is : R → R → bool).

(** [listeners] is the array of [notify] closures, by identity;
    [closures] holds the variables each closure has captured; [fresh] is
    the identity of the next closure. *)
Record store : Type := {
  current : T;
  version : Z;
  listeners : list nat;
  closures : gmap nat (Listener T R Env);
  fresh : nat
}.

(** The store and the rest of the program's state. *)
Definition world : Type := store * Env.

Definition createStore (initial : T) : store :=
  {| current := initial; version := 0; listeners := [];
     closures := ∅; fresh := 0%nat |}.

Definition set_current (next : T) (s : store) : store :=
  {| current := next; version := version s; listeners := listeners s;
     closures := closures s; fresh := fresh s |}.

Definition bump_version (s : store) : store :=
  {| current := current s; version := version s + 1; listeners := listeners s;
     closures := closures s; fresh := fresh s |}.

Definition set_listeners (ls : list nat) (s : store) : store :=
  {| current := current s; version := version s; listeners := ls;
     closures := closures s; fresh := fresh s |}.

Definition set_closure (id : nat) (l : Listener T R Env) (s : store) : store :=
  {| current := current s; version := version s; listeners := listeners s;
     closures := <[id := l]> (closures s); fresh := fresh s |}.

Definition alloc_closure (l : Listener T R Env) (s : store) : store :=
  {| current := current s; version := version s; listeners := listeners s;
     closures := <[fresh s := l]> (closures s); fresh := S (fresh s) |}.

Definition on_store (f : store → store) : M world R unit :=
  modify (λ w, (f w.1, w.2)).

(** [read()] and [snapshot()] *)
Definition read : M world R T := w <- get; ret (current w.1).
Definition snapshot : M world R T := w <- get; ret (current w.1).

(** The handle returned by [subscribe]:
    [idx = listeners.indexOf(notify); if (idx >= 0) listeners.splice(idx, 1)] *)
Definition unsubscribe (id : nat) : M world R unit :=
  w <- get;
  match indexOf (listeners w.1) id with
  | Some idx => on_store (set_listeners (delete idx (listeners w.1)))
  | None => ret tt
  end.

(** A call [subscriber(v)]: its effect on the rest of the program, then
    the unsubscribe handles it calls. *)
Definition call_subscriber (id : nat) (sub : Subscriber R Env) (v : R) : M world R unit :=
  tell [Fired id v] >>
  w <- get;
  let '(env', handles) := sub v w.2 in
  modify (λ w, (w.1, env')) >>
  for_each unsubscribe handles.

(** The closure [notify] of [subscribe]. *)
Definition notify (id : nat) : M world R unit :=
  tell [Notified id] >>
  w <- get;
  match closures w.1 !! id with
  | None => ret tt
  | Some l =>
      let next := selector l (current w.1) in
      if equality l (prev l) next then ret tt
      else
        on_store (set_closure id (with_prev next l)) >>
        call_subscriber id (subscriber l) next
  end.

(** [for (const notify of listeners) notify()]: the array iterator keeps
    an index into the live array and stops when the index reaches its
    length.  The loop is bounded by [fuel]; running out of it is reported
    as a throw, so that it cannot be mistaken for the end of the loop. *)
Fixpoint iterate (fuel : nat) (i : nat) : M world R unit :=
  match fuel with
  | O => throw "out of fuel"
  | S fuel' =>
      w <- get;
      match listeners w.1 !! i with
      | None => ret tt
      | Some id => notify id >> iterate fuel' (S i)
      end
  end.

(** Subscribers do not subscribe during a pass, so the array does not
    grow while it is iterated and one step more than its length is fuel
    enough. *)
Definition notifyListeners : M world R unit :=
  w <- get;
  iterate (S (length (listeners w.1))) 0.

Definition update {P : Type} (reducer : Reducer T P) (payload : P) : M world R T :=
  w <- get;
  next <- call (reducer (current w.1) payload);
  on_store (set_current next) >>
  on_store bump_version >>
  notifyListeners >>
  read.

Definition set (next : T) : M world R T :=
  on_store (set_current next) >>
  on_store bump_version >>
  notifyListeners >>
  read.

Definition compute (fn : Compute T) : M world R T :=
  w <- get;
  next <- call (fn (current w.1));
  on_store (set_current next) >>
  on_store bump_version >>
  notifyListeners >>
  read.

Definition batch (apply : BatchCallback T) : M world R T :=
  w <- get;
  let '(completed, next) := run_callback apply (current w.1) in
  call completed >>
  on_store (set_current next) >>
  on_store bump_version >>
  notifyListeners >>
  read.

Definition effect {P : Type} (fn : Effect T P) (payload : P) : M world R unit :=
  w <- get;
  call (fn (current w.1) payload).

(** [subscribe]; the result is the unsubscribe handle, named by the
    identity of the [notify] closure it removes. *)
Definition subscribe (sel : Selector T R) (sub : Subscriber R Env)
    (options : option (SubscribeOptions R)) : M world R nat :=
  w <- get;
  let eq := default Object_is (options ≫= opt_eq) in
  let id := fresh w.1 in
  let prev := sel (current w.1) in
  (if default false (options ≫= fireImmediately)
   then call_subscriber id sub prev else ret tt) >>
  on_store (alloc_closure
    {| selector := sel; equality := eq; prev := prev; subscriber := sub |}) >>
  w' <- get;
  on_store (set_listeners (listeners w'.1 ++ [id])) >>
  ret id.

(** What a notification pass leaves alone: the value and the version;
    it registers no listener. *)
Definition frame (w w' : world) : Prop :=
  current w'.1 = current w.1 ∧ version w'.1 = version w.1 ∧
  (length (listeners w'.1) ≤ length (listeners w.1))%nat.

(** The state in which a mutation starts its notification pass. *)
Definition committed (next : T) (w : world) : world :=
  (bump_version (set_current next w.1), w.2).

Definition mutate (m : Mutation T) : M world R T :=
  match m with
  | MUpdate c => update (call_reducer c) (call_payload c)
  | MSet next => set next
  | MCompute fn => compute fn
  | MBatch apply => batch apply
  end.

Definition step (op : StoreOp T R Env) : M world R unit :=
  match op with
  | OpMutate m => mutate m >> ret tt
  | OpRead => read >> ret tt
  | OpSnapshot => snapshot >> ret tt
  | OpEffect P fn payload => effect fn payload
  | OpSubscribe sel sub options => subscribe sel sub options >> ret tt
  | OpUnsubscribe id => unsubscribe id
  end.

End Store.
End Closure.

(** ** [StoreImpl] (second listing of [store.ts])

    [listeners] is a [Set] that is never mutated once it is stored in the
    field: [subscribe] and the unsubscribe handle store a modified copy.
    A [Set] iterates in insertion order and is modelled by the list of
    its elements in that order. *)

Module Impl.
Section Store.
Context {T R Env : Type}.
Context (Object_is : R → R → bool).

(** The fields [current], [version] and [listeners], the latter by the
    identities of the [notify] closures in insertion order; [closures]
    holds the variables each closure has captured and [fresh] is the
    identity of the next closure. *)
Record store : Type := {
  current : T;
  version : Z;
  listeners : list nat;
  closures : gmap nat (Listener T R Env);
  fresh : nat
}.

Definition world : Type := store * Env.

(** [new StoreImpl(initial)], which is what [createStore] returns. *)
Definition createStore (initial : T) : store :=
  {| current := initial; version := 0; listeners := [];
     closures := ∅; fresh := 0%nat |}.

Definition set_current (next : T) (s : store) : store :=
  {| current := next; version := version s; listeners := listeners s;
     closures := closures s; fresh := fresh s |}.

Definition bump_version (s : store) : store :=
  {| current := current s; version := version s + 1; listeners := listeners s;
     closures := closures s; fresh := fresh s |}.

Definition set_listeners (ls : list nat) (s : store) : store :=
  {| current := current s; version := version s; listeners := ls;
     closures := closures s; fresh := fresh s |}.

Definition set_closure (id : nat) (l : Listener T R Env) (s : store) : store :=
  {| current := current s; version := version s; listeners := listeners s;
     closures := <[id := l]> (closures s); fresh := fresh s |}.

Definition alloc_closure (l : Listener T R Env) (s : store) : store :=
  {| current := current s; version := version s; listeners := listeners s;
     closures := <[fresh s := l]> (closures s); fresh := S (fresh s) |}.

Definition on_store (f : store → store) : M world R unit :=
  modify (λ w, (f w.1, w.2)).

(** [Set.prototype.add] and [Set.prototype.delete] on a copy. *)
Definition set_add (id : nat) (ls : list nat) : list nat :=
  if decide (id ∈ ls) then ls else ls ++ [id].

Definition set_delete (id : nat) (ls : list nat) : list nat :=
  filter (λ x, x ≠ id) ls.

Definition read : M world R T := w <- get; ret (current w.1).
Definition snapshot : M world R T := w <- get; ret (current w.1).

(** The handle returned by [subscribe]: copy-on-write remove. *)
Definition unsubscribe (id : nat) : M world R unit :=
  w <- get;
  if decide (id ∈ listeners w.1)
  then on_store (set_listeners (set_delete id (listeners w.1)))
  else ret tt.

Definition call_subscriber (id : nat) (sub : Subscriber R Env) (v : R) : M world R unit :=
  tell [Fired id v] >>
  w <- get;
  let '(env', handles) := sub v w.2 in
  modify (λ w, (w.1, env')) >>
  for_each unsubscribe handles.

Definition notify (id : nat) : M world R unit :=
  tell [Notified id] >>
  w <- get;
  match closures w.1 !! id with
  | None => ret tt
  | Some l =>
      let next := selector l (current w.1) in
      if equality l (prev l) next then ret tt
      else
        on_store (set_closure id (with_prev next l)) >>
        call_subscriber id (subscriber l) next
  end.

(** The subscriber call that a pass over the state [w] owes to listener
    [id]: none when the selection is unchanged by [eq], otherwise one
    with the new selection. *)
Definition selection_change (w : world) (id : nat) : option (nat * R) :=
  l ← closures w.1 !! id;
  let next := selector l (current w.1) in
  if equality l (prev l) next then None else Some (id, next).

(** [for (const notify of this.listeners) notify()]: the loop iterates
    the [Set] object that the field holds when the loop starts. *)
Definition notifyListeners : M world R unit :=
  w <- get;
  for_each notify (listeners w.1).

(** [if (this.listeners.size > 0) this.notifyListeners()] *)
Definition notify_if_any : M world R unit :=
  w <- get;
  if decide (0 < length (listeners w.1))%nat then notifyListeners else ret tt.

Definition update {P : Type} (reducer : Reducer T P) (payload : P) : M world R T :=
  w <- get;
  next <- call (reducer (current w.1) payload);
  on_store (set_current next) >>
  on_store bump_version >>
  notify_if_any >>
  read.

Definition set (next : T) : M world R T :=
  on_store (set_current next) >>
  on_store bump_version >>
  notify_if_any >>
  read.

Definition compute (fn : Compute T) : M world R T :=
  w <- get;
  next <- call (fn (current w.1));
  on_store (set_current next) >>
  on_store bump_version >>
  notify_if_any >>
  read.

Definition batch (apply : BatchCallback T) : M world R T :=
  w <- get;
  let '(completed, next) := run_callback apply (current w.1) in
  call completed >>
  on_store (set_current next) >>
  on_store bump_version >>
  notify_if_any >>
  read.

Definition effect {P : Type} (fn : Effect T P) (payload : P) : M world R unit :=
  w <- get;
  call (fn (current w.1) payload).

Definition subscribe (sel : Selector T R) (sub : Subscriber R Env)
    (options : option (SubscribeOptions R)) : M world R nat :=
  w <- get;
  let eq := default Object_is (options ≫= opt_eq) in
  let id := fresh w.1 in
  let prev := sel (current w.1) in
  (if default false (options ≫= fireImmediately)
   then call_subscriber id sub prev else ret tt) >>
  on_store (alloc_closure
    {| selector := sel; equality := eq; prev := prev; subscriber := sub |}) >>
  w' <- get;
  on_store (set_listeners (set_add id (listeners w'.1))) >>
  ret id.

(** What a notification pass leaves alone: the value and the version;
    it registers no listener. *)
Definition frame (w w' : world) : Prop :=
  current w'.1 = current w.1 ∧ version w'.1 = version w.1 ∧
  (length (listeners w'.1) ≤ length (listeners w.1))%nat.

(** The state in which a mutation starts its notification pass. *)
Definition committed (next : T) (w : world) : world :=
  (bump_version (set_current next w.1), w.2).

Definition mutate (m : Mutation T) : M world R T :=
  match m with
  | MUpdate c => update (call_reducer c) (call_payload c)
  | MSet next => set next
  | MCompute fn => compute fn
  | MBatch apply => batch apply
  end.

Definition step (op : StoreOp T R Env) : M world R unit :=
  match op with
  | OpMutate m => mutate m >> ret tt
  | OpRead => read >> ret tt
  | OpSnapshot => snapshot >> ret tt
  | OpEffect P fn payload => effect fn payload
  | OpSubscribe sel sub options => subscribe sel sub options >> ret tt
  | OpUnsubscribe id => unsubscribe id
  end.

End Store.
End Impl.


(** ** [beginTransaction] ([transaction.ts]) *)

Module Transaction.
Section Scope.
Context {T R W : Type}.

(** The members of [Store<T>] that a transaction calls, for a store
    living in a state [W]. *)
Record StoreApi : Type := {
  api_version : W → Z;
  api_snapshot : M W R T;
  api_read : M W R T;
  api_set : T → M W R T
}.

(** A store as [Store<T>] describes it, with [value] the value it holds:
    [snapshot()] and [read()] return the value and change nothing;
    [set(v)] returns [v], makes it the value and adds one to [version]. *)
Definition lawful (store : StoreApi) (value : W → T) : Prop :=
  (∀ w, api_snapshot store w = Run (Normal (value w)) w []) ∧
  (∀ w, api_read store w = Run (Normal (value w)) w []) ∧
  (∀ v w,
     outcome (api_set store v w) = Normal v ∧
     value (after (api_set store v w)) = v ∧
     api_version store (after (api_set store v w)) = api_version store w + 1).

(** The variables captured by the object [beginTransaction] returns:
    the constant [initial] and the variable [next]. *)
Record scope : Type := {
  initial : T;
  next : T
}.

Definition set_next (v : T) (t : scope) : scope :=
  {| initial := initial t; next := v |}.

(** The store's state and the scope. *)
Definition system : Type := W * scope.

Definition beginTransaction (store : StoreApi) : M W R scope :=
  initial <- api_snapshot store;
  ret {| initial := initial; next := initial |}.

Definition on_scope (f : scope → scope) : M system R unit :=
  modify (λ s, (s.1, f s.2)).

Definition on_store {A} (m : M W R A) : M system R A :=
  λ s, let r := m s.1 in Run (outcome r) (after r, s.2) (trace r).

Definition read : M system R T := s <- get; ret (next s.2).

Definition apply {P : Type} (reducer : Reducer T P) (payload : P) : M system R T :=
  s <- get;
  v <- call (reducer (next s.2) payload);
  on_scope (set_next v) >>
  s' <- get;
  ret (next s'.2).

Definition compute (fn : Compute T) : M system R T :=
  s <- get;
  v <- call (fn (next s.2));
  on_scope (set_next v) >>
  s' <- get;
  ret (next s'.2).

Definition set (v : T) : M system R T :=
  on_scope (set_next v) >>
  s' <- get;
  ret (next s'.2).

Definition commit (store : StoreApi) : M system R T :=
  s <- get;
  on_store (api_set store (next s.2)) >>
  on_store (api_read store).

Definition rollback : M system R T :=
  s <- get;
  on_scope (set_next (initial s.2)) >>
  s' <- get;
  ret (next s'.2).

(** The calls of [Transaction<T>]. *)
Inductive TxOp : Type :=
| TxRead
| TxApply (c : ApplyCall T)
| TxCompute (fn : Compute T)
| TxSet (v : T)
| TxCommit
| TxRollback.

Definition step (store : StoreApi) (op : TxOp) : M system R T :=
  match op with
  | TxRead => read
  | TxApply c => apply (call_reducer c) (call_payload c)
  | TxCompute fn => compute fn
  | TxSet v => set v
  | TxCommit => commit store
  | TxRollback => rollback
  end.

(** The staging calls: those that work on [next] only. *)
Definition staging (op : TxOp) : bool :=
  match op with
  | TxCommit | TxRollback => false
  | _ => true
  end.

Definition is_commit (op : TxOp) : bool :=
  match op with
  | TxCommit => true
  | _ => false
  end.

(** The number of [commit] calls among [ops]. *)
Definition commits (ops : list TxOp) : Z :=
  Z.of_nat (length (filter (λ op, is_commit op = true) ops)).

(** [commit] and [rollback] are expected to return; the staging calls
    throw what the function they are given throws. *)
Definition returned (op : TxOp) (c : completion T) : bool :=
  staging op || is_normal c.

(** A scope as its user sees it: a baseline and a pending value.  What a
    call completes with on the pending value [pending], whatever calls
    were made before it ... *)
Definition answer (baseline : T) (op : TxOp) (pending : T) : completion T :=
  match op with
  | TxRead | TxCommit => Normal pending
  | TxApply c => call_reducer c pending (call_payload c)
  | TxCompute fn => fn pending
  | TxSet v => Normal v
  | TxRollback => Normal baseline
  end.

(** ... and the pending value it leaves: a staging call that throws
    leaves it as it is, [commit] keeps it and [rollback] goes back to
    the baseline. *)
Definition pending_after (baseline : T) (op : TxOp) (pending : T) : T :=
  match op with
  | TxRead | TxCommit => pending
  | TxApply c => if call_reducer c pending (call_payload c) is Normal v then v else pending
  | TxCompute fn => if fn pending is Normal v then v else pending
  | TxSet v => v
  | TxRollback => baseline
  end.

(** The same for calls made one after the other. *)
Fixpoint answers (baseline : T) (ops : list TxOp) (pending : T) : list (completion T) :=
  match ops with
  | [] => []
  | op :: ops' =>
      answer baseline op pending :: answers baseline ops' (pending_after baseline op pending)
  end.

Definition replay (baseline : T) (ops : list TxOp) (pending : T) : T :=
  foldl (λ p op, pending_after baseline op p) pending ops.

End Scope.
Arguments StoreApi : clear implicits.
Arguments scope : clear implicits.
Arguments TxOp : clear implicits.
End Transaction.

(** [Store<T>] as implemented by the two listings. *)
Definition closure_api {T R Env : Type} :
    Transaction.StoreApi T R (@Closure.world T R Env) :=
  {| Transaction.api_version := λ w, Closure.version w.1;
     Transaction.api_snapshot := Closure.snapshot;
     Transaction.api_read := Closure.read;
     Transaction.api_set := Closure.set |}.

Definition impl_api {T R Env : Type} :
    Transaction.StoreApi T R (@Impl.world T R Env) :=
  {| Transaction.api_version := λ w, Impl.version w.1;
     Transaction.api_snapshot := Impl.snapshot;
     Transaction.api_read := Impl.read;
     Transaction.api_set := Impl.set |}.

(** ** [combineStores]

    The member stores are [StoreImpl] objects holding values of one
    type [V] (the union of the members' types).  The rest of the
    program's state, as the member stores' subscribers see it, is the
    composite: its variables [current], [subscribers] and [childUnsubs].
    Its own subscribers are observers: a call of one is recorded in
    [delivered]. *)

Module Combine.
Section Combined.
Context {V : Type} `{EqDecision V}.

(** [Object.is] on member values. *)
Definition Object_is (a b : V) : bool := bool_decide (a = b).

(** The aggregate object: its identity and its properties. *)
Record Aggregate : Type := {
  ref : nat;
  slots : gmap string V
}.

(** [Object.is] on aggregates: the same object. *)
Definition same_object (a b : Aggregate) : bool := bool_decide (ref a = ref b).

(** The [notify] closure of [Combined.subscribe]: [eq] and [prev]. *)
Record Notifier : Type := {
  n_eq : Aggregate → Aggregate → bool;
  n_prev : Aggregate
}.

Record combined : Type := {
  current : Aggregate;
  subscribers : list nat;
  notifiers : gmap nat Notifier;
  childUnsubs : option (list (string * nat));
  next_ref : nat;
  fresh : nat;
  delivered : list (nat * Aggregate)
}.

Definition set_current (a : Aggregate) (c : combined) : combined :=
  {| current := a; subscribers := subscribers c; notifiers := notifiers c;
     childUnsubs := childUnsubs c; next_ref := next_ref c; fresh := fresh c;
     delivered := delivered c |}.

Definition set_subscribers (l : list nat) (c : combined) : combined :=
  {| current := current c; subscribers := l; notifiers := notifiers c;
     childUnsubs := childUnsubs c; next_ref := next_ref c; fresh := fresh c;
     delivered := delivered c |}.

Definition set_notifier (id : nat) (n : Notifier) (c : combined) : combined :=
  {| current := current c; subscribers := subscribers c;
     notifiers := <[id := n]> (notifiers c);
     childUnsubs := childUnsubs c; next_ref := next_ref c; fresh := fresh c;
     delivered := delivered c |}.

Definition alloc_notifier (n : Notifier) (c : combined) : combined :=
  {| current := current c; subscribers := subscribers c;
     notifiers := <[fresh c := n]> (notifiers c);
     childUnsubs := childUnsubs c; next_ref := next_ref c; fresh := S (fresh c);
     delivered := delivered c |}.

Definition set_childUnsubs (u : option (list (string * nat))) (c : combined) : combined :=
  {| current := current c; subscribers := subscribers c; notifiers := notifiers c;
     childUnsubs := u; next_ref := next_ref c; fresh := fresh c;
     delivered := delivered c |}.

Definition alloc_object (c : combined) : combined :=
  {| current := current c; subscribers := subscribers c; notifiers := notifiers c;
     childUnsubs := childUnsubs c; next_ref := S (next_ref c); fresh := fresh c;
     delivered := delivered c |}.

(** A call [subscriber(a)] of a subscriber of the composite. *)
Definition deliver (id : nat) (a : Aggregate) (c : combined) : combined :=
  {| current := current c; subscribers := subscribers c; notifiers := notifiers c;
     childUnsubs := childUnsubs c; next_ref := next_ref c; fresh := fresh c;
     delivered := delivered c ++ [(id, a)] |}.

(** The [notify] closure of [Combined.subscribe]. *)
Definition notify (id : nat) (c : combined) : combined :=
  match notifiers c !! id with
  | None => c
  | Some n =>
      let next := current c in
      if n_eq n (n_prev n) next then c
      else deliver id next (set_notifier id {| n_eq := n_eq n; n_prev := next |} c)
  end.

(** [for (const n of subscribers) n()]; the observers leave the array
    alone, so the loop visits the elements it has at the start. *)
Definition notifyAll (c : combined) : combined :=
  foldl (λ c id, notify id c) c (subscribers c).

(** The subscriber that [attach] registers on member [k]:
    [next = { ...current }; next[k] = s.snapshot()], where [s.snapshot()]
    is the member's [current], which the identity selector has just
    handed to it. *)
Definition on_member (k : string) (x : V) (c : combined) : combined :=
  let next := {| ref := next_ref c; slots := <[k := x]> (slots (current c)) |} in
  let c := alloc_object c in
  if same_object (current c) next then c
  else notifyAll (set_current next c).

Definition member_subscriber (k : string) : Subscriber V combined :=
  λ x c, (on_member k x c, []).

Local Abbreviation store := (@Impl.store V V combined).

Record world : Type := {
  keys : list string;
  stores : gmap string store;
  view : combined
}.

(** A call on member [k]. *)
Definition member {A} (k : string) (m : M (store * combined) V A) : M world V A :=
  λ w,
    match stores w !! k with
    | None => Run (Throws "no such member") w []
    | Some s =>
        let r := m (s, view w) in
        Run (outcome r)
            {| keys := keys w; stores := <[k := (after r).1]> (stores w);
               view := (after r).2 |}
            (trace r)
    end.

Definition on_view (f : combined → combined) : M world V unit :=
  modify (λ w, {| keys := keys w; stores := stores w; view := f (view w) |}).

(** The function that [attach] maps over [keys]: it subscribes to member
    [k] and returns the unsubscribe handle. *)
Definition attach_member (k : string) : M world V (string * nat) :=
  id <- member k (Impl.subscribe Object_is (λ x, x) (member_subscriber k) None);
  ret (k, id).

Definition attach : M world V unit :=
  w <- get;
  match childUnsubs (view w) with
  | Some _ => ret tt
  | None =>
      handles <- map_m attach_member (keys w);
      on_view (set_childUnsubs (Some handles))
  end.

Definition detach : M world V unit :=
  w <- get;
  match childUnsubs (view w) with
  | None => ret tt
  | Some handles =>
      for_each (λ u : string * nat, member u.1 (Impl.unsubscribe u.2)) handles >>
      on_view (set_childUnsubs None)
  end.

Definition read : M world V Aggregate := w <- get; ret (current (view w)).

Definition subscribe (options : option (SubscribeOptions Aggregate)) : M world V nat :=
  let eq := default same_object (options ≫= opt_eq) in
  w <- get;
  (if childUnsubs (view w) is None then attach else ret tt) >>
  w' <- get;
  let prev := current (view w') in
  let id := fresh (view w') in
  (if default false (options ≫= fireImmediately)
   then on_view (deliver id prev) else ret tt) >>
  on_view (alloc_notifier {| n_eq := eq; n_prev := prev |}) >>
  w'' <- get;
  on_view (set_subscribers (subscribers (view w'') ++ [id])) >>
  ret id.

(** The handle returned by [Combined.subscribe]. *)
Definition unsubscribe (id : nat) : M world V unit :=
  w <- get;
  (match indexOf (subscribers (view w)) id with
   | Some idx => on_view (set_subscribers (delete idx (subscribers (view w))))
   | None => ret tt
   end) >>
  w' <- get;
  if decide (length (subscribers (view w')) = 0%nat) then detach else ret tt.

(** [combineStores(stores)], with [ks] the keys of the object [stores]. *)
Definition combineStores (ks : list string) (ss : gmap string store) : world :=
  {| keys := ks;
     stores := ss;
     view :=
       {| current :=
            {| ref := 0;
               slots := foldl (λ m k, match ss !! k with
                                       | Some s => <[k := Impl.current s]> m
                                       | None => m
                                       end) ∅ ks |};
          subscribers := []; notifiers := ∅; childUnsubs := None;
          next_ref := 1; fresh := 0; delivered := [] |} |}.

(** The calls on a composite and on its members. *)
Inductive Op : Type :=
| OnMember (k : string) (m : Mutation V)
| Read
| Subscribe (options : option (SubscribeOptions Aggregate))
| Unsubscribe (id : nat).

Definition step (op : Op) : M world V unit :=
  match op with
  | OnMember k m => member k (Impl.mutate m) >> ret tt
  | Read => read >> ret tt
  | Subscribe options => subscribe options >> ret tt
  | Unsubscribe id => unsubscribe id
  end.

Definition exec (ops : list Op) (w : world) : world :=
  after (script (step <$> ops) w).

(** A composite over freshly created member stores. *)
Definition init (members : list (string * V)) : world :=
  combineStores members.*1
    (list_to_map (prod_map id Impl.createStore <$> members)).

(** The composite has subscribed to its members. *)
Definition attached (w : world) : bool :=
  if childUnsubs (view w) is Some _ then true else false.


(** The listener that [attach] leaves on member [k], as it is when the
    value it last saw is [v]. *)
Definition member_listener (k : string) (v : V) : Listener V V combined :=
  {| selector := λ x, x; equality := Object_is; prev := v;
     subscriber := member_subscriber k |}.

(** Member [k] is listened to by the composite, through listener [id],
    which has seen the member's present value. *)
Definition listening (k : string) (id : nat) (s : store) : Prop :=
  Impl.listeners s = [id] ∧
  Impl.closures s !! id = Some (member_listener k (Impl.current s)).

(** The states of a composite over stores that nobody else listens to:
    the composite is subscribed to all its members while it has a
    subscriber, and to none otherwise. *)
Definition consistent (w : world) : Prop :=
  NoDup (keys w) ∧
  (∀ k, k ∈ keys w ↔ is_Some (stores w !! k)) ∧
  (ref (current (view w)) < next_ref (view w))%nat ∧
  match childUnsubs (view w) with
  | None =>
      subscribers (view w) = [] ∧
      ∀ k s, stores w !! k = Some s → Impl.listeners s = []
  | Some handles =>
      subscribers (view w) ≠ [] ∧
      (∀ k s, stores w !! k = Some s → ∃ id, (k, id) ∈ handles ∧ listening k id s) ∧
      (∀ k id, (k, id) ∈ handles → ∃ s, stores w !! k = Some s ∧ listening k id s)
  end.

(** What the composite's own notifications leave alone. *)
Definition same_shape (c c' : combined) : Prop :=
  current c' = current c ∧
  subscribers c' = subscribers c ∧
  childUnsubs c' = childUnsubs c ∧
  next_ref c' = next_ref c.

(** Two states with the same keys and the same value in every member. *)
Definition same_values (w w' : world) : Prop :=
  keys w' = keys w ∧
  ∀ k, Impl.current <$> (stores w' !! k) = Impl.current <$> (stores w !! k).


(** *** Other subscribers of the members

    Other parts of the program subscribe to a member store as well.
    Such a subscriber is an observer: it leaves the variables of the
    composite alone, which it cannot reach, and calls no unsubscribe
    handle; the trace records its calls. *)
Definition observer : Subscriber V combined := λ _ c, (c, []).

(** The calls of the program: those on the composite and on its
    members (above), [stores[k].subscribe(sel, observer, options)], and
    the unsubscribe handle that such a call has returned. *)
Inductive Call : Type :=
| Do (op : Op)
| Observe (k : string) (sel : Selector V V) (options : option (SubscribeOptions V))
| Unobserve (k : string) (id : nat).

(** The handles of the composite's own listeners are captured in
    [childUnsubs]; the program does not hold them. *)
Definition own_handle (w : world) (k : string) (id : nat) : bool :=
  bool_decide ((k, id) ∈ default [] (childUnsubs (view w))).

Definition call (c : Call) : M world V unit :=
  match c with
  | Do op => step op
  | Observe k sel options =>
      member k (Impl.subscribe Object_is sel observer options) >> ret tt
  | Unobserve k id =>
      w <- get;
      if own_handle w k id then ret tt else member k (Impl.unsubscribe id)
  end.

Definition perform (calls : list Call) (w : world) : world :=
  after (script (call <$> calls) w).

(** The value of member [k], and whether the composite has a
    subscriber. *)
Definition value_of (k : string) (w : world) : option V :=
  Impl.current <$> stores w !! k.

Definition subscribed (w : world) : bool :=
  bool_decide (subscribers (view w) ≠ []).

(** Listener [id] of a member store is an observer's. *)
Definition observes (s : store) (id : nat) : Prop :=
  ∃ l, Impl.closures s !! id = Some l ∧ subscriber l = observer.

(** Listener [id] of member [k] is the composite's, and has seen the
    member's present value. *)
Definition watches (k : string) (s : store) (id : nat) : Prop :=
  Impl.closures s !! id = Some (member_listener k (Impl.current s)).

(** A member store of a composite whose [childUnsubs] is [handles]: its
    listeners are distinct and are observers, but for the one listener
    of the composite, whose handle is in [handles], when there are
    handles. *)
Definition member_ok (handles : option (list (string * nat)))
    (k : string) (s : store) : Prop :=
  NoDup (Impl.listeners s) ∧
  (∀ id, id ∈ Impl.listeners s → (id < Impl.fresh s)%nat) ∧
  match handles with
  | None => ∀ id, id ∈ Impl.listeners s → observes s id
  | Some hs =>
      ∃ id, (∀ id', (k, id') ∈ hs ↔ id' = id) ∧
            id ∈ Impl.listeners s ∧ watches k s id ∧
            ∀ id', id' ∈ Impl.listeners s → id' ≠ id → observes s id'
  end.

(** The store of member [k] once [attach] has subscribed to it, and
    once [detach] has called the handles [handles]. *)
Definition attached_store (k : string) (s : store) : store :=
  Impl.set_listeners (Impl.set_add (Impl.fresh s) (Impl.listeners s))
    (Impl.alloc_closure (member_listener k (Impl.current s)) s).

Definition detached_store (handles : list (string * nat)) (k : string) (s : store) : store :=
  Impl.set_listeners (filter (λ id, (k, id) ∉ handles) (Impl.listeners s)) s.

(** The states of a composite whose members the program observes: the
    composite has handles of its members exactly while it has a
    subscriber. *)
Definition coherent (w : world) : Prop :=
  NoDup (keys w) ∧
  (∀ k, k ∈ keys w ↔ is_Some (stores w !! k)) ∧
  (ref (current (view w)) < next_ref (view w))%nat ∧
  (subscribers (view w) = [] ↔ childUnsubs (view w) = None) ∧
  (∀ k id, (k, id) ∈ default [] (childUnsubs (view w)) → k ∈ keys w) ∧
  (∀ k s, stores w !! k = Some s → member_ok (childUnsubs (view w)) k s).




End Combined.
Arguments Aggregate : clear implicits.
Arguments combined : clear implicits.
Arguments world : clear implicits.
Arguments Op : clear implicits.
Arguments Call : clear implicits.
Abbreviation store V := (@Impl.store V V (combined V)) (only parsing).
End Combine.


(** ** The counter of the test-suite ([tests/store.test.ts]) *)

Module Counter.

Record CounterState : Type := {
  count : Z;
  label : string
}.

Definition init : CounterState := {| count := 0; label := "init" |}.

(** [(prev, delta) => ({ ...prev, count: prev.count + delta })] *)
Definition add : Reducer CounterState Z :=
  λ prev delta, Normal {| count := count prev + delta; label := label prev |}.

(** A reducer that throws. *)
Definition failing : Reducer CounterState Z := λ _ _, Throws "boom".

Definition add_call (delta : Z) : ApplyCall CounterState :=
  {| call_P := Z; call_reducer := add; call_payload := delta |}.

Definition failing_call : ApplyCall CounterState :=
  {| call_P := Z; call_reducer := failing; call_payload := 1 |}.

(** [v => events.push(v)], with [events] the rest of the program. *)
Definition record_value : Subscriber Z (list Z) := λ v events, (events ++ [v], []).

(** A subscriber that also calls the unsubscribe handle [id]. *)
Definition record_and_unsubscribe (id : nat) : Subscriber Z (list Z) :=
  λ v events, (events ++ [v], [id]).

(** Two subscriptions on [count]; the first subscriber calls its own
    unsubscribe handle when it is notified. *)
Definition closure_two_listeners : @Closure.world CounterState Z (list Z) :=
  after (script [Closure.subscribe Z.eqb count (record_and_unsubscribe 0) None;
                 Closure.subscribe Z.eqb count record_value None]
           (Closure.createStore init, [])).

Definition impl_two_listeners : @Impl.world CounterState Z (list Z) :=
  after (script [Impl.subscribe Z.eqb count (record_and_unsubscribe 0) None;
                 Impl.subscribe Z.eqb count record_value None]
           (Impl.createStore init, [])).

(** The three [set] calls of the test "dedups by equality". *)
Definition dedup_sets : list CounterState :=
  [ {| count := 0; label := "x" |};
    {| count := 1; label := "y" |};
    {| count := 1; label := "z" |} ].

End Counter.

(** ** Invariants of calls

    The store's calls are reasoned about through what they keep: an
    invariant of the state and a property of every event they notify
    through. *)

(** A finished call has left a state in [I] and has notified only
    through events in [Q]. *)
Definition post {W R A} (I : W → Prop) (Q : event R → Prop) (r : run W R A) : Prop :=
  I (after r) ∧ Forall Q (trace r).

(** A call keeps the invariant [I] of the state and notifies only
    through events in [Q]. *)
Definition respects {W R A} (I : W → Prop) (Q : event R → Prop) (m : M W R A) : Prop :=
  ∀ w, I w → post I Q (m w).

(** The listener an event is about. *)
Definition listener_of {R} (ev : event R) : nat :=
  match ev with
  | Notified id => id
  | Fired id _ => id
  end.

(** Sequencing of calls that may throw, outside the store's monad. *)
Definition and_then {A B} (c : completion A) (k : A → completion B) : completion B :=
  match c with
  | Normal a => k a
  | Throws e => Throws e
  end.

(** ** The states a store reaches *)

(** The state a program reaches from a new store by the calls [ops]. *)
Definition closure_reach {T R Env} (Object_is : R → R → bool)
    (ops : list (StoreOp T R Env)) (initial : T) (env : Env) : @Closure.world T R Env :=
  after (script (Closure.step Object_is <$> ops) (Closure.createStore initial, env)).

Definition impl_reach {T R Env} (Object_is : R → R → bool)
    (ops : list (StoreOp T R Env)) (initial : T) (env : Env) : @Impl.world T R Env :=
  after (script (Impl.step Object_is <$> ops) (Impl.createStore initial, env)).

(** The registered closures are distinct, each has its captured
    variables, and the identities in use are below [fresh]. *)
Definition closure_wf {T R Env} (w : @Closure.world T R Env) : Prop :=
  NoDup (Closure.listeners w.1) ∧
  (∀ id, id ∈ Closure.listeners w.1 → is_Some (Closure.closures w.1 !! id)) ∧
  (∀ id, is_Some (Closure.closures w.1 !! id) → (id < Closure.fresh w.1)%nat).

Definition impl_wf {T R Env} (w : @Impl.world T R Env) : Prop :=
  NoDup (Impl.listeners w.1) ∧
  (∀ id, id ∈ Impl.listeners w.1 → is_Some (Impl.closures w.1 !! id)) ∧
  (∀ id, is_Some (Impl.closures w.1 !! id) → (id < Impl.fresh w.1)%nat).

(** The closure [id] has been created and is not registered. *)
Definition closure_gone {T R Env} (id : nat) (w : @Closure.world T R Env) : Prop :=
  (id ∉ Closure.listeners w.1) ∧ (id < Closure.fresh w.1)%nat.

Definition impl_gone {T R Env} (id : nat) (w : @Impl.world T R Env) : Prop :=
  (id ∉ Impl.listeners w.1) ∧ (id < Impl.fresh w.1)%nat.

(** The subscriber call that a pass over the state [w] owes to listener
    [id] of the closure based store. *)
Definition closure_selection_change {T R Env} (w : @Closure.world T R Env) (id : nat) :
    option (nat * R) :=
  l ← Closure.closures w.1 !! id;
  let next := selector l (Closure.current w.1) in
  if equality l (prev l) next then None else Some (id, next).

(** A listener whose subscriber calls no unsubscribe handle. *)
Definition calls_no_handle {T R Env} (l : Listener T R Env) : Prop :=
  ∀ v env, (subscriber l v env).2 = [].

(** What the call of listener [id] of the store [s] does to the rest of
    the program, when its subscriber calls no unsubscribe handle. *)
Definition pass_env {T R Env} (s : @Impl.store T R Env) (env : Env) (id : nat) : Env :=
  match Impl.closures s !! id with
  | Some l =>
      let next := selector l (Impl.current s) in
      if equality l (prev l) next then env else (subscriber l next env).1
  | None => env
  end.

(** An equality that holds of identical values only, as [Object.is] does. *)
Definition identifies {R} (eq : R → R → bool) : Prop :=
  ∀ a b, eq a b = true → a = b.

(** Every registered listener that compares by identity holds, in
    [prev], the selection of the present value. *)
Definition impl_synced {T R Env} (w : @Impl.world T R Env) : Prop :=
  ∀ id l, id ∈ Impl.listeners w.1 → Impl.closures w.1 !! id = Some l →
          identifies (equality l) → prev l = selector l (Impl.current w.1).

(** The values that the subscriber of listener [id] is called with,
    among the subscriber calls [calls]. *)
Definition calls_of {R} (id : nat) (calls : list (nat * R)) : list R :=
  (filter (λ c, c.1 = id) calls).*2.

(** ** [derive]

    The store is a [StoreImpl], which is what [createStore] returns. *)

Module Derive.
Section Derived.
Context {T R Env : Type} (Object_is : R → R → bool).

(** [read() { return selector(store.snapshot()) }] *)
Definition read (selector : Selector T R) : M (@Impl.world T R Env) R R :=
  snap <- Impl.snapshot;
  ret (selector snap).

(** [subscribe(subscriber, options) { return store.subscribe(selector, subscriber, options) }] *)
Definition subscribe (selector : Selector T R) (subscriber : Subscriber R Env)
    (options : option (SubscribeOptions R)) : M (@Impl.world T R Env) R nat :=
  Impl.subscribe Object_is selector subscriber options.

End Derived.
End Derive.

(** ** [createSerializer] ([serialize.ts]) and the hydration helpers
       ([ssr.ts])

    [unknown] values are the values [JSON.parse] produces; a number is
    modelled by the integer it holds, as [version] is.  [JSON.parse] and
    [JSON.stringify] are parameters: the text they read and write is not
    modelled. *)

Module Serialize.

#[local] Unset Elimination Schemes.
Inductive json : Type :=
| JNull
| JBool (b : bool)
| JNum (n : Z)
| JStr (s : string)
| JArr (items : list json)
| JObj (props : list (string * json)).
#[local] Set Elimination Schemes.

(** [x[k]] on the properties of an object; [None] is [undefined]. *)
Fixpoint lookup_prop (k : string) (props : list (string * json)) : option json :=
  match props with
  | [] => None
  | (k', v) :: props' => if decide (k' = k) then Some v else lookup_prop k props'
  end.

(** [x[k]] for a string key that no array has. *)
Definition prop (k : string) (x : json) : option json :=
  match x with
  | JObj props => lookup_prop k props
  | _ => None
  end.

(** [typeof x === "object" && x !== null] *)
Definition isObject (x : json) : bool :=
  match x with
  | JObj _ | JArr _ => true
  | _ => false
  end.

(** [typeof v === "number" && typeof data !== "undefined"] *)
Definition isVersioned (x : json) : bool :=
  if negb (isObject x) then false
  else
    match prop "v" x, prop "data" x with
    | Some (JNum _), Some _ => true
    | _, _ => false
    end.

(** [parsedUnknown.v] and [parsedUnknown.data] of a versioned payload. *)
Definition payload_v (x : json) : Z :=
  if prop "v" x is Some (JNum n) then n else 0.

Definition payload_data (x : json) : json :=
  default JNull (prop "data" x).

Definition Migration : Type := json → completion json.

Record SerializerOptions : Type := {
  validate : json → bool;
  migrations : option (gmap Z Migration)
}.

Record Serializer : Type := {
  version : Z;
  encode : json → string;
  decode : string → completion json
}.

Section Json.
Context (JSON_parse : string → completion json) (JSON_stringify : json → string).

(** [{ v: version, data: snapshot }] *)
Definition envelope (version : Z) (snapshot : json) : json :=
  JObj [("v", JNum version); ("data", snapshot)].

(** [while (currVersion < version) { ... currVersion += 1 }], bounded by
    [fuel]; running out of it is reported as a throw. *)
Fixpoint migrate (version : Z) (steps : gmap Z Migration)
    (fuel : nat) (currVersion : Z) (dataUnknown : json) : completion json :=
  if decide (currVersion < version) then
    match fuel with
    | O => Throws "out of fuel"
    | S fuel' =>
        match steps !! currVersion with
        | None => Throws "Missing migration"
        | Some step =>
            and_then (step dataUnknown) (migrate version steps fuel' (currVersion + 1))
        end
    end
  else Normal dataUnknown.

Definition createSerializer (version : Z) (options : SerializerOptions) : Serializer :=
  let steps := default ∅ (migrations options) in
  {| version := version;
     encode := λ snapshot, JSON_stringify (envelope version snapshot);
     decode := λ raw,
       and_then (JSON_parse raw) (λ parsedUnknown,
         if negb (isVersioned parsedUnknown) then Throws "Invalid payload"
         else
           let currVersion := payload_v parsedUnknown in
           let dataUnknown := payload_data parsedUnknown in
           if decide (currVersion > version) then Throws "Future version"
           else
             and_then
               (migrate version steps (Z.to_nat (version - currVersion))
                  currVersion dataUnknown)
               (λ dataUnknown,
                  if negb (validate options dataUnknown) then Throws "Validation failed"
                  else Normal dataUnknown)) |}.

(** The migrations of the versions [vs], applied one after the other. *)
Fixpoint migrate_chain (steps : gmap Z Migration) (vs : list Z) (data : json) :
    completion json :=
  match vs with
  | [] => Normal data
  | v :: vs' =>
      match steps !! v with
      | None => Throws "Missing migration"
      | Some step => and_then (step data) (migrate_chain steps vs')
      end
  end.

(** [dehydrate] and [rehydrate], for a store of JSON values that lives
    in a state [W]. *)
Section Hydration.
Context {R W : Type} (store : Transaction.StoreApi json R W).

Definition dehydrate (serializer : option Serializer) : M W R string :=
  snap <- Transaction.api_snapshot store;
  ret (match serializer with
       | Some s => encode s snap
       | None => JSON_stringify snap
       end).

Definition rehydrate (raw : string) (serializer : option Serializer) : M W R json :=
  next <- call (match serializer with
                | Some s => decode s raw
                | None => JSON_parse raw
                end);
  Transaction.api_set store next.

End Hydration.
End Json.
End Serialize.

(** ** [persistLocal]

    The store is a [StoreImpl]; the rest of the program's state, as the
    store's subscribers see it, is the storage object and the variables
    [suppress] and [detach] captured by the closures of [persistLocal]. *)

Module Persist.
Section PersistLocal.
Context {T St : Type} `{EqDecision T}.
Context (JSON_stringify : T → completion string) (JSON_parse : string → completion T).

(** [Object.is] on the values of the store. *)
Definition Object_is (a b : T) : bool := bool_decide (a = b).

(** [StorageLike], for a storage object whose state is an [St].
    [getItem] returns a string or [null]; a [setItem] that throws leaves
    the state it returns. *)
Record StorageLike : Type := {
  getItem : string → St → option string;
  setItem : string → string → St → completion unit * St;
  removeItem : string → St → St
}.

(** [PersistOptions<T>] *)
Record PersistOptions : Type := {
  loadInitial : option bool;
  opt_encode : option (T → completion string);
  opt_decode : option (string → completion T)
}.

Record env : Type := {
  storage_state : St;
  suppress : bool;
  detach_var : option nat
}.

Definition set_storage_state (st : St) (e : env) : env :=
  {| storage_state := st; suppress := suppress e; detach_var := detach_var e |}.

Definition set_suppress (b : bool) (e : env) : env :=
  {| storage_state := storage_state e; suppress := b; detach_var := detach_var e |}.

Definition set_detach_var (d : option nat) (e : env) : env :=
  {| storage_state := storage_state e; suppress := suppress e; detach_var := d |}.

Definition world : Type := @Impl.world T T env.

Definition on_env (f : env → env) : M world T unit :=
  modify (λ w, (w.1, f w.2)).

(** The subscriber that [persistLocal] registers:
    [if (suppress) return; try { storage.setItem(key, encode(next)) } catch {}] *)
Definition write (storage : StorageLike) (key : string)
    (encode : T → completion string) : Subscriber T env :=
  λ next e,
    if suppress e then (e, [])
    else
      match encode next with
      | Throws _ => (e, [])
      | Normal raw =>
          (set_storage_state (setItem storage key raw (storage_state e)).2 e, [])
      end.

Definition persistLocal (storage : StorageLike) (key : string)
    (options : option PersistOptions) : M world T unit :=
  let encode := default JSON_stringify (options ≫= opt_encode) in
  let decode := default JSON_parse (options ≫= opt_decode) in
  on_env (set_detach_var None) >>
  on_env (set_suppress false) >>
  (if default true (options ≫= loadInitial) then
     w <- get;
     match getItem storage key (storage_state w.2) with
     | None => ret tt
     | Some raw =>
         match decode raw with
         | Throws _ => ret tt
         | Normal initial =>
             on_env (set_suppress true) >>
             c <- attempt (Impl.set initial);
             if c is Normal _ then on_env (set_suppress false) else ret tt
         end
     end
   else ret tt) >>
  id <- Impl.subscribe Object_is (λ s, s) (write storage key encode) None;
  on_env (set_detach_var (Some id)).

(** The [detach] of the object [persistLocal] returns:
    [if (detach) { detach(); detach = null }] *)
Definition detach : M world T unit :=
  w <- get;
  match detach_var w.2 with
  | Some id => Impl.unsubscribe id >> on_env (set_detach_var None)
  | None => ret tt
  end.

(** The value that [persistLocal] loads, if any. *)
Definition stored_initial (storage : StorageLike) (key : string)
    (options : option PersistOptions) (st : St) : option T :=
  if default true (options ≫= loadInitial) then
    raw ← getItem storage key st;
    if default JSON_parse (options ≫= opt_decode) raw is Normal initial
    then Some initial else None
  else None.

(** The store is listened to by [persistLocal] only, through listener
    [id], which has seen the present value. *)
Definition attached (storage : StorageLike) (key : string)
    (options : option PersistOptions) (id : nat) (w : world) : Prop :=
  Impl.listeners w.1 = [id] ∧
  Impl.closures w.1 !! id =
    Some {| selector := λ s, s; equality := Object_is; prev := Impl.current w.1;
            subscriber :=
              write storage key (default JSON_stringify (options ≫= opt_encode)) |} ∧
  suppress w.2 = false ∧
  detach_var w.2 = Some id.


End PersistLocal.
Arguments StorageLike : clear implicits.
Arguments PersistOptions : clear implicits.
Arguments env : clear implicits.
Arguments world : clear implicits.
End Persist.

(** ** [withMiddleware] ([middleware.ts]) and [devtoolsMiddleware]
       ([devtools.ts])

    The wrapped store is a [StoreImpl].  The hooks of the middlewares act
    on a state of their own, [MS], that the store's subscribers do not
    touch; they do not call the store they are handed in [ctx.store],
    which is therefore left out of the context.  [Date.now()] reads a
    clock whose state is a [Clock].  [effect] is the synchronous one: an
    [Effect] of the embedding returns no promise. *)

Module Middleware.

(** [Operation] *)
Inductive Operation : Type :=
| OSet
| OUpdate
| OCompute
| OBatch
| OEffect.

(** A value of type [unknown]. *)
Record Unknown : Type := {
  unknown_type : Type;
  unknown_value : unknown_type
}.

Section WithMiddleware.
Context {T R Env Clock MS : Type}.
Context (Date_now : Clock → Z * Clock).

(** [MiddlewareContext<T>] and [MiddlewareAfterContext<T>] *)
Record MiddlewareContext : Type := {
  ctx_version : Z;
  ctx_snapshot : T;
  ctx_payload : option Unknown
}.

Record MiddlewareAfterContext : Type := {
  ctx : MiddlewareContext;
  durationMs : Z
}.

(** [Middleware<T>]: both hooks are optional and may throw. *)
Record Middleware : Type := {
  before : option (Operation → MiddlewareContext → MS → completion unit * MS);
  after_hook : option (Operation → MiddlewareAfterContext → MS → completion unit * MS)
}.

(** The wrapped store, the clock and the middlewares' state. *)
Record world : Type := {
  store : @Impl.world T R Env;
  clock : Clock;
  mstate : MS
}.

Definition on_store {A} (m : M (@Impl.world T R Env) R A) : M world R A :=
  λ w,
    let r := m (store w) in
    Run (outcome r) {| store := after r; clock := clock w; mstate := mstate w |} (trace r).

Definition now : M world R Z :=
  λ w,
    let '(t, c) := Date_now (clock w) in
    Run (Normal t) {| store := store w; clock := c; mstate := mstate w |} [].

(** A call of a hook. *)
Definition hook (h : MS → completion unit * MS) : M world R unit :=
  λ w,
    let '(c, s) := h (mstate w) in
    Run c {| store := store w; clock := clock w; mstate := s |} [].

(** [for (const m of middlewares) m.before?.(op, ctx)] *)
Definition callBefore (middlewares : list Middleware) (op : Operation)
    (c : MiddlewareContext) : M world R unit :=
  for_each (λ m, match before m with
                 | Some h => hook (h op c)
                 | None => ret tt
                 end) middlewares.

(** [for (const m of middlewares) m.after?.(op, ctx)] *)
Definition callAfter (middlewares : list Middleware) (op : Operation)
    (c : MiddlewareAfterContext) : M world R unit :=
  for_each (λ m, match after_hook m with
                 | Some h => hook (h op c)
                 | None => ret tt
                 end) middlewares.

(** [{ store, version: store.version, snapshot: store.snapshot(), payload }] *)
Definition context (payload : option Unknown) : M world R MiddlewareContext :=
  w <- get;
  snap <- on_store Impl.snapshot;
  ret {| ctx_version := Impl.version (store w).1; ctx_snapshot := snap;
         ctx_payload := payload |}.

(** The body that the five wrapped entry points share:
    [start = Date.now(); callBefore(op, ...); out = store.op(...);
     end = Date.now(); callAfter(op, ...); return out] *)
Definition around {A} (middlewares : list Middleware) (op : Operation)
    (payload : option Unknown) (call : M (@Impl.world T R Env) R A) : M world R A :=
  start <- now;
  c <- context payload;
  callBefore middlewares op c >>
  out <- on_store call;
  finish <- now;
  c' <- context payload;
  callAfter middlewares op {| ctx := c'; durationMs := finish - start |} >>
  ret out.

Definition unknown {A} (a : A) : Unknown := {| unknown_type := A; unknown_value := a |}.

Section Wrapped.
Context (middlewares : list Middleware).

Definition version (w : world) : Z := Impl.version (store w).1.
Definition read : M world R T := on_store Impl.read.
Definition snapshot : M world R T := on_store Impl.snapshot.

Definition set (next : T) : M world R T :=
  around middlewares OSet (Some (unknown next)) (Impl.set next).

Definition update {P : Type} (reducer : Reducer T P) (payload : P) : M world R T :=
  around middlewares OUpdate (Some (unknown payload)) (Impl.update reducer payload).

Definition compute (fn : Compute T) : M world R T :=
  around middlewares OCompute None (Impl.compute fn).

Definition batch (apply : BatchCallback T) : M world R T :=
  around middlewares OBatch None (Impl.batch apply).

Definition effect {P : Type} (fn : Effect T P) (payload : P) : M world R unit :=
  around middlewares OEffect (Some (unknown payload)) (Impl.effect fn payload).

(** [subscribe: store.subscribe.bind(store)] *)
Definition subscribe (Object_is : R → R → bool) (sel : Selector T R)
    (sub : Subscriber R Env) (options : option (SubscribeOptions R)) : M world R nat :=
  on_store (Impl.subscribe Object_is sel sub options).

Definition mutate (m : Mutation T) : M world R T :=
  match m with
  | MUpdate c => update (call_reducer c) (call_payload c)
  | MSet next => set next
  | MCompute fn => compute fn
  | MBatch apply => batch apply
  end.

End Wrapped.

(** The operation name and the payload that a mutation hands to the hooks. *)
Definition operation (m : Mutation T) : Operation :=
  match m with
  | MUpdate _ => OUpdate
  | MSet _ => OSet
  | MCompute _ => OCompute
  | MBatch _ => OBatch
  end.

Definition payload (m : Mutation T) : option Unknown :=
  match m with
  | MUpdate c => Some (unknown (call_payload c))
  | MSet next => Some (unknown next)
  | MCompute _ | MBatch _ => None
  end.

End WithMiddleware.
Arguments MiddlewareContext : clear implicits.
Arguments MiddlewareAfterContext : clear implicits.
Arguments Middleware : clear implicits.
Arguments world : clear implicits.

Section Hooks.
Context {T MS : Type}.

(** [callBefore] and [callAfter] as functions of the middlewares' state:
    the hooks of [middlewares], called in order, up to the first that
    throws. *)
Fixpoint before_all (middlewares : list (Middleware T MS)) (op : Operation)
    (c : MiddlewareContext T) (s : MS) : completion unit * MS :=
  match middlewares with
  | [] => (Normal tt, s)
  | m :: rest =>
      match before m with
      | None => before_all rest op c s
      | Some h =>
          match h op c s with
          | (Normal _, s') => before_all rest op c s'
          | (Throws e, s') => (Throws e, s')
          end
      end
  end.

Fixpoint after_all (middlewares : list (Middleware T MS)) (op : Operation)
    (c : MiddlewareAfterContext T) (s : MS) : completion unit * MS :=
  match middlewares with
  | [] => (Normal tt, s)
  | m :: rest =>
      match after_hook m with
      | None => after_all rest op c s
      | Some h =>
          match h op c s with
          | (Normal _, s') => after_all rest op c s'
          | (Throws e, s') => (Throws e, s')
          end
      end
  end.
End Hooks.
End Middleware.

(** [devtoolsMiddleware] and [createMemoryConnection] *)

Module Devtools.
Import Middleware.
Section Devtools.
Context {T C : Type}.

(** [meta?: { version: number; name?: string }] *)
Record Meta : Type := {
  meta_version : Z;
  meta_name : option string
}.

(** [DevtoolsConnection], for a connection whose state is a [C]. *)
Record DevtoolsConnection : Type := {
  init : T → C → completion unit * C;
  send : Operation → option Unknown → T → option Meta → C → completion unit * C
}.

(** The variable [initialized] of the closures of [devtoolsMiddleware]
    and the connection. *)
Record state : Type := {
  initialized : bool;
  connection : C
}.

Definition devtoolsMiddleware (conn : DevtoolsConnection) (name : option string) :
    Middleware T state :=
  {| before := Some (λ _op c s,
       if initialized s then (Normal tt, s)
       else
         match init conn (ctx_snapshot c) (connection s) with
         | (Normal _, k) => (Normal tt, {| initialized := true; connection := k |})
         | (Throws e, k) => (Throws e, {| initialized := initialized s; connection := k |})
         end);
     after_hook := Some (λ op c s,
       let '(r, k) :=
         send conn op (ctx_payload (ctx c)) (ctx_snapshot (ctx c))
           (Some {| meta_version := ctx_version (ctx c); meta_name := name |})
           (connection s) in
       (r, {| initialized := initialized s; connection := k |})) |}.

End Devtools.
Arguments Meta : clear implicits.
Arguments DevtoolsConnection : clear implicits.
Arguments state : clear implicits.

Section Memory.
Context {T : Type}.

(** An element of the array [events] of [createMemoryConnection]. *)
Record Event : Type := {
  ev_op : Operation;
  ev_payload : option Unknown;
  ev_state : T;
  ev_meta : option Meta
}.

(** The arrays [inits] and [events]. *)
Record memory : Type := {
  inits : list T;
  events : list Event
}.

Definition createMemoryConnection : DevtoolsConnection T memory * memory :=
  ({| init := λ st k, (Normal tt, {| inits := inits k ++ [st]; events := events k |});
      send := λ op payload st meta k,
        (Normal tt,
         {| inits := inits k;
            events := events k ++ [{| ev_op := op; ev_payload := payload;
                                       ev_state := st; ev_meta := meta |}] |}) |},
   {| inits := []; events := [] |}).

(** The events that the mutations [ms], made one after the other on a
    store holding [v] at version [ver], are expected to leave. *)
Fixpoint recorded (name : option string) (ms : list (Mutation T)) (v : T) (ver : Z) :
    list Event :=
  match ms with
  | [] => []
  | m :: ms' =>
      match user_completion m v with
      | Normal next =>
          {| ev_op := operation m; ev_payload := payload m; ev_state := next;
             ev_meta := Some {| meta_version := ver + 1; meta_name := name |} |}
          :: recorded name ms' next (ver + 1)
      | Throws _ => recorded name ms' v ver
      end
  end.

End Memory.
Arguments Event : clear implicits.
Arguments memory : clear implicits.
End Devtools.

(** ** Further fixtures of the test-suite *)

Module Example.

(** A subscription on [count] that records what it is given. *)
Definition subscribe_count : StoreOp Counter.CounterState Z (list Z) :=
  OpSubscribe Counter.count Counter.record_value None.

(** A subscription on [count] whose subscriber records what it is given
    and calls the unsubscribe handle of the subscription made next. *)
Definition subscribe_and_drop_next : StoreOp Counter.CounterState Z (list Z) :=
  OpSubscribe Counter.count (Counter.record_and_unsubscribe 1) None.

(** Two subscriptions on [count] whose subscribers only record. *)
Definition closure_two_recorders : @Closure.world Counter.CounterState Z (list Z) :=
  after (script [Closure.subscribe Z.eqb Counter.count Counter.record_value None;
                 Closure.subscribe Z.eqb Counter.count Counter.record_value None]
           (Closure.createStore Counter.init, [])).

(** The listener of the first subscription, before any notification. *)
Definition count_listener : Listener Counter.CounterState Z (list Z) :=
  {| selector := Counter.count; equality := Z.eqb; prev := 0;
     subscriber := Counter.record_value |}.

(** [{ count: 1, label: "a" }] as [JSON.parse] returns it, and the type
    guard [isV2] of [tests/serialize.test.ts]. *)
Definition doc : Serialize.json :=
  Serialize.JObj [("count", Serialize.JNum 1); ("label", Serialize.JStr "a")].

Definition isV2 (x : Serialize.json) : bool :=
  Serialize.isObject x &&
  match Serialize.prop "count" x, Serialize.prop "label" x with
  | Some (Serialize.JNum _), Some (Serialize.JStr _) => true
  | _, _ => false
  end.

Definition v2_options : Serialize.SerializerOptions :=
  {| Serialize.validate := isV2; Serialize.migrations := None |}.

(** A [JSON.stringify] and a [JSON.parse] that know one text, the one of
    the envelope of [doc] at version 2. *)
Definition stringify_doc (x : Serialize.json) : string := "doc-v2".

Definition parse_doc (raw : string) : completion Serialize.json :=
  if decide (raw = "doc-v2") then Normal (Serialize.envelope 2 doc)
  else Throws "SyntaxError".

(** Stores of JSON values, holding [doc] and [null]. *)
Definition doc_store : @Impl.world Serialize.json Serialize.json unit :=
  (Impl.createStore doc, tt).

Definition null_store : @Impl.world Serialize.json Serialize.json unit :=
  (Impl.createStore Serialize.JNull, tt).

(** [MemoryStorage] of [tests/persist.local.test.ts]. *)
Definition MemoryStorage : Persist.StorageLike (gmap string string) :=
  {| Persist.getItem := λ key map, map !! key;
     Persist.setItem := λ key value map, (Normal tt, <[key := value]> map);
     Persist.removeItem := λ key map, delete key map |}.

(** A store of strings, written to the storage as they are, and a
    storage that holds a seed under the key. *)
Definition text_options : Persist.PersistOptions string :=
  {| Persist.loadInitial := None;
     Persist.opt_encode := Some (λ s, Normal s);
     Persist.opt_decode := Some (λ raw, Normal raw) |}.

Definition seeded : Persist.world string (gmap string string) :=
  (Impl.createStore "a",
   {| Persist.storage_state := {["ex/1" := "seed"]};
      Persist.suppress := false;
      Persist.detach_var := None |}).

Definition persisted : Persist.world string (gmap string string) :=
  after (Persist.persistLocal (λ s, Normal s) (λ raw, Normal raw)
           MemoryStorage "ex/1" (Some text_options) seeded).

(** A clock that advances by one at each reading. *)
Definition ticking (t : Z) : Z * Z := (t, t + 1).

(** The counter behind [devtoolsMiddleware] on a new memory connection. *)
Definition traced :
    Middleware.world Counter.CounterState Z (list Z) Z
      (Devtools.state (Devtools.memory Counter.CounterState)) :=
  {| Middleware.store := (Impl.createStore Counter.init, []);
     Middleware.clock := 0;
     Middleware.mstate :=
       {| Devtools.initialized := false;
          Devtools.connection := (Devtools.createMemoryConnection).2 |} |}.

End Example.

(** * Properties *)

(** ** The monad *)

(** Case analysis on the completion of the call the goal is waiting for. *)
Ltac case_outcome :=
  match goal with
  | |- context [match outcome ?r with _ => _ end] => destruct (outcome r) eqn:?
  end.

Section MonadFacts.
Context {W R : Type}.
Implicit Types w : W.

Lemma bind_normal {A B} (m : M W R A) (k : A → M W R B) w a :
  outcome (m w) = Normal a →
  bind m k w =
    Run (outcome (k a (after (m w)))) (after (k a (after (m w))))
        (trace (m w) ++ trace (k a (after (m w)))).
Proof. intros Hm. unfold bind. by rewrite Hm. Qed.

Lemma bind_throws {A B} (m : M W R A) (k : A → M W R B) w e :
  outcome (m w) = Throws e →
  bind m k w = Run (Throws e) (after (m w)) (trace (m w)).
Proof. intros Hm. unfold bind. by rewrite Hm. Qed.

Lemma preserves_bind {A B} (P : W → W → Prop) `{!Transitive P}
    (m : M W R A) (k : A → M W R B) :
  preserves P m → (∀ a, preserves P (k a)) → preserves P (bind m k).
Proof.
  intros Hm Hk w. unfold bind. destruct (outcome (m w)) as [a|e]; cbn.
  - etrans; [apply Hm | apply Hk].
  - apply Hm.
Qed.

#[global] Instance keeps_preorder {X} (f : W → X) : PreOrder (keeps f).
Proof. split; unfold keeps; [done | congruence]. Qed.

Lemma preserves_pure {A} (P : W → W → Prop) `{!Reflexive P} (m : M W R A) :
  (∀ w, after (m w) = w) → preserves P m.
Proof. intros Hm w. by rewrite Hm. Qed.

Lemma preserves_for_each {A} (P : W → W → Prop) `{!PreOrder P}
    (f : A → M W R unit) (l : list A) :
  (∀ x, preserves P (f x)) → preserves P (for_each f l).
Proof.
  intros Hf. induction l as [|x l IH]; cbn.
  - apply preserves_pure; [apply _ | done].
  - apply preserves_bind; [apply _ | apply Hf | done].
Qed.

Lemma returns_bind {A B} (m : M W R A) (k : A → M W R B) :
  returns m → (∀ a, returns (k a)) → returns (bind m k).
Proof.
  intros Hm Hk w. destruct (Hm w) as [a Ha].
  rewrite (bind_normal _ _ _ _ Ha). cbn. apply Hk.
Qed.

Lemma returns_for_each {A} (f : A → M W R unit) (l : list A) :
  (∀ x, returns (f x)) → returns (for_each f l).
Proof.
  intros Hf. induction l as [|x l IH]; cbn.
  - intros w. by exists tt.
  - by apply returns_bind.
Qed.

Lemma quiet_bind {A B} (m : M W R A) (k : A → M W R B) :
  quiet m → (∀ a, quiet (k a)) → quiet (bind m k).
Proof.
  intros Hm Hk w. unfold bind. destruct (outcome (m w)) as [a|e]; cbn.
  - by rewrite Hm, Hk.
  - apply Hm.
Qed.

Lemma quiet_for_each {A} (f : A → M W R unit) (l : list A) :
  (∀ x, quiet (f x)) → quiet (for_each f l).
Proof.
  intros Hf. induction l as [|x l IH]; cbn; [done|]. by apply quiet_bind.
Qed.

Lemma script_returns {A} (ms : list (M W R A)) : returns (script ms).
Proof.
  induction ms as [|m ms IH]; intros w; cbn; [by eexists|].
  unfold bind. destruct (IH (after (m w))) as [cs ->]. cbn. by eexists.
Qed.

Lemma script_after {A} (m : M W R A) (ms : list (M W R A)) w :
  after (script (m :: ms) w) = after (script ms (after (m w))).
Proof.
  cbn. unfold bind.
  by destruct (script_returns ms (after (m w))) as [cs ->].
Qed.

Lemma script_trace {A} (m : M W R A) (ms : list (M W R A)) w :
  trace (script (m :: ms) w) = trace (m w) ++ trace (script ms (after (m w))).
Proof.
  cbn. unfold bind.
  destruct (script_returns ms (after (m w))) as [cs ->]. cbn. by rewrite app_nil_r.
Qed.

Lemma bind_run {A B} (m : M W R A) (k : A → M W R B) (w w1 : W) a t :
  m w = Run (Normal a) w1 t →
  bind m k w = Run (outcome (k a w1)) (after (k a w1)) (t ++ trace (k a w1)).
Proof. intros Hm. unfold bind. by rewrite Hm. Qed.

Lemma map_m_cons_normal {A B} (f : A → M W R B) x l (w : W) y ys :
  outcome (f x w) = Normal y →
  outcome (map_m f l (after (f x w))) = Normal ys →
  map_m f (x :: l) w =
    Run (Normal (y :: ys)) (after (map_m f l (after (f x w))))
        (trace (f x w) ++ trace (map_m f l (after (f x w))) ++ []).
Proof.
  intros Hx Hl. cbn. unfold bind at 1. rewrite Hx. cbn.
  unfold bind at 1 2 3. rewrite Hl. done.
Qed.

Lemma for_each_cons_normal {A} (f : A → M W R unit) x l (w : W) :
  outcome (f x w) = Normal tt →
  for_each f (x :: l) w =
    Run (outcome (for_each f l (after (f x w)))) (after (for_each f l (after (f x w))))
        (trace (f x w) ++ trace (for_each f l (after (f x w)))).
Proof. intros Hx. cbn. unfold bind. by rewrite Hx. Qed.

Lemma returns_unit (m : M W R unit) w : returns m → outcome (m w) = Normal tt.
Proof. intros Hm. destruct (Hm w) as [[] ->]. done. Qed.

End MonadFacts.

(** ** The batch callback *)

Section CallbackFacts.
Context {T : Type}.

(** The local [next] of [batch] after a callback that returned normally
    is the fold of the calls it made, when each of them returned. *)
Lemma run_callback_fold (cb : BatchCallback T) (v final : T) :
  fold_calls (callback_calls cb v) v = Normal final →
  (run_callback cb v).2 = final.
Proof.
  revert v. induction cb as [| e | c k IH]; intros v; cbn.
  - congruence.
  - congruence.
  - unfold applier.
    destruct (call_reducer c v (call_payload c)) as [v'|e] eqn:Hc; cbn; rewrite Hc.
    + apply IH.
    + done.
Qed.

Lemma callback_of_calls (calls : list (ApplyCall T)) (v final : T) :
  fold_calls calls v = Normal final →
  callback_calls (callback_of calls) v = calls ∧
  run_callback (callback_of calls) v = (Normal tt, final).
Proof.
  revert v. induction calls as [|c cs IH]; intros v; cbn.
  - intros [= ->]. done.
  - unfold applier. destruct (call_reducer c v (call_payload c)) as [v'|e]; [|done].
    cbn. intros Hf. destruct (IH _ Hf) as [-> ->]. done.
Qed.

End CallbackFacts.

(** The calls of the stores are unfolded by name only. *)
Arguments Closure.unsubscribe : simpl never.
Arguments Closure.call_subscriber : simpl never.
Arguments Closure.notify : simpl never.
Arguments Closure.iterate : simpl never.
Arguments Closure.notifyListeners : simpl never.
Arguments Closure.subscribe : simpl never.
Arguments Closure.set : simpl never.
Arguments Closure.read : simpl never.
Arguments Closure.snapshot : simpl never.
Arguments Impl.unsubscribe : simpl never.
Arguments Impl.call_subscriber : simpl never.
Arguments Impl.notify : simpl never.
Arguments Impl.notifyListeners : simpl never.
Arguments Impl.notify_if_any : simpl never.
Arguments Impl.subscribe : simpl never.
Arguments Impl.set : simpl never.
Arguments Impl.read : simpl never.
Arguments Impl.snapshot : simpl never.

(** ** The closure based store *)

Section ClosureFacts.
Context {T R Env : Type}.
Abbreviation world := (@Closure.world T R Env).
Implicit Types w : world.

(** What calling unsubscribe handles leaves alone. *)
Abbreviation closure_core :=
  (λ w : world, (Closure.current w.1, Closure.version w.1,
                 Closure.closures w.1, Closure.fresh w.1)).

#[global] Instance closure_frame_preorder : PreOrder (@Closure.frame T R Env).
Proof.
  split.
  - intros w. unfold Closure.frame. auto.
  - intros w1 w2 w3 (Hc1 & Hv1 & Hl1) (Hc2 & Hv2 & Hl2). unfold Closure.frame.
    rewrite Hc2, Hc1, Hv2, Hv1. split_and!; [done..|lia].
Qed.

Lemma closure_delete_length (l : list nat) (i : nat) :
  (length (delete i l) ≤ length l)%nat.
Proof.
  rewrite delete_take_drop, length_app, length_take, length_drop. lia.
Qed.

Lemma closure_unsubscribe_frame id :
  preserves (W:=world) (R:=R) Closure.frame (Closure.unsubscribe id).
Proof.
  intros w. unfold Closure.unsubscribe, bind, get; cbn.
  destruct (indexOf (Closure.listeners w.1) id) as [idx|]; cbn.
  - unfold Closure.frame; cbn. split_and!; [done..|apply closure_delete_length].
  - reflexivity.
Qed.

Lemma closure_unsubscribe_returns id :
  returns (W:=world) (R:=R) (Closure.unsubscribe id).
Proof.
  intros w. unfold Closure.unsubscribe, bind, get; cbn.
  destruct (indexOf (Closure.listeners w.1) id); cbn; by exists tt.
Qed.

Lemma closure_core_keeps w w' :
  keeps closure_core w w' →
  Closure.current w'.1 = Closure.current w.1 ∧
  Closure.version w'.1 = Closure.version w.1 ∧
  Closure.closures w'.1 = Closure.closures w.1 ∧
  Closure.fresh w'.1 = Closure.fresh w.1.
Proof. unfold keeps. intros [= -> -> -> ->]. done. Qed.

Lemma closure_unsubscribe_core id :
  preserves (W:=world) (R:=R) (keeps closure_core) (Closure.unsubscribe id).
Proof.
  intros w. unfold keeps, Closure.unsubscribe, bind, get; cbn.
  destruct (indexOf (Closure.listeners w.1) id); done.
Qed.

Lemma closure_unsubscribe_quiet id :
  quiet (W:=world) (R:=R) (Closure.unsubscribe id).
Proof.
  intros w. unfold Closure.unsubscribe, bind, get; cbn.
  destruct (indexOf (Closure.listeners w.1) id); done.
Qed.

Lemma closure_call_subscriber_frame id sub v :
  preserves (W:=world) (R:=R) Closure.frame (Closure.call_subscriber id sub v).
Proof.
  intros w. unfold Closure.call_subscriber, bind, tell, get; cbn.
  destruct (sub v w.2) as [env' handles]; cbn.
  pose proof (preserves_for_each Closure.frame (Closure.unsubscribe (T:=T) (R:=R) (Env:=Env)) handles
                closure_unsubscribe_frame (w.1, env')) as Hf.
  exact Hf.
Qed.

Lemma closure_call_subscriber_returns id sub v :
  returns (W:=world) (R:=R) (Closure.call_subscriber id sub v).
Proof.
  intros w. unfold Closure.call_subscriber, bind, tell, get; cbn.
  destruct (sub v w.2) as [env' handles]; cbn.
  apply (returns_for_each (Closure.unsubscribe (T:=T) (R:=R) (Env:=Env)) handles
           closure_unsubscribe_returns (w.1, env')).
Qed.

Lemma closure_call_subscriber_trace id sub v w :
  trace (Closure.call_subscriber (T:=T) (R:=R) (Env:=Env) id sub v w) = [Fired id v].
Proof.
  unfold Closure.call_subscriber, bind, tell, get; cbn.
  destruct (sub v w.2) as [env' handles]; cbn.
  f_equal. apply (quiet_for_each (Closure.unsubscribe (T:=T) (R:=R) (Env:=Env)) handles
                    closure_unsubscribe_quiet (w.1, env')).
Qed.

Lemma closure_call_subscriber_core id sub v :
  preserves (W:=world) (R:=R) (keeps closure_core)
    (Closure.call_subscriber id sub v).
Proof.
  intros w. unfold Closure.call_subscriber, bind, tell, get; cbn.
  destruct (sub v w.2) as [env' handles]; cbn.
  exact (preserves_for_each _ (Closure.unsubscribe (T:=T) (R:=R) (Env:=Env)) handles
           closure_unsubscribe_core (w.1, env')).
Qed.

Lemma closure_notify_frame id :
  preserves (W:=world) (R:=R) Closure.frame (Closure.notify id).
Proof.
  unfold Closure.notify.
  apply preserves_bind; [apply _ | by apply preserves_pure; [apply _|] |]. intros _.
  apply preserves_bind; [apply _ | by apply preserves_pure; [apply _|] |]. intros w.
  destruct (Closure.closures w.1 !! id) as [l|]; [|by apply preserves_pure; [apply _|]].
  cbv zeta.
  destruct (equality l (prev l) (selector l (Closure.current w.1)));
    [by apply preserves_pure; [apply _|]|].
  apply preserves_bind; [apply _ | | intros _; apply closure_call_subscriber_frame].
  intros w'. unfold Closure.frame. cbn. auto.
Qed.

Lemma closure_notify_returns id :
  returns (W:=world) (R:=R) (Closure.notify id).
Proof.
  unfold Closure.notify.
  apply returns_bind; [by eexists|]. intros _.
  apply returns_bind; [by eexists|]. intros w.
  destruct (Closure.closures w.1 !! id) as [l|]; [|by eexists].
  cbv zeta.
  destruct (equality l (prev l) (selector l (Closure.current w.1))); [by eexists|].
  apply returns_bind; [by eexists|]. intros _.
  apply closure_call_subscriber_returns.
Qed.

(** The array loop ends by reaching the end of the array: the fuel it is
    given is never used up. *)
Lemma closure_iterate_returns (fuel i : nat) w :
  (0 < fuel)%nat → (length (Closure.listeners w.1) < i + fuel)%nat →
  outcome (Closure.iterate (R:=R) fuel i w) = Normal tt.
Proof.
  revert i w. induction fuel as [|fuel IH]; intros i w Hpos Hlen; [lia|].
  unfold Closure.iterate; fold (Closure.iterate (T:=T) (R:=R) (Env:=Env)).
  unfold bind at 1. cbn.
  destruct (Closure.listeners w.1 !! i) as [id|] eqn:Hi; [|done].
  apply lookup_lt_Some in Hi.
  destruct (closure_notify_returns id w) as [[] Hn].
  rewrite (bind_normal _ _ _ _ Hn). cbn.
  destruct (closure_notify_frame id w) as (_ & _ & Hl).
  apply IH; lia.
Qed.

Lemma closure_iterate_frame (fuel i : nat) :
  preserves (W:=world) (R:=R) Closure.frame (Closure.iterate fuel i).
Proof.
  revert i. induction fuel as [|fuel IH]; intros i; [by apply preserves_pure; [apply _|]|].
  unfold Closure.iterate; fold (Closure.iterate (T:=T) (R:=R) (Env:=Env)).
  apply preserves_bind; [apply _ | by apply preserves_pure; [apply _|] |]. intros w.
  destruct (Closure.listeners w.1 !! i) as [id|]; [|by apply preserves_pure; [apply _|]].
  apply preserves_bind; [apply _ | apply closure_notify_frame | intros _; apply IH].
Qed.

Lemma closure_notifyListeners_returns w :
  outcome (Closure.notifyListeners (R:=R) w) = Normal tt.
Proof.
  unfold Closure.notifyListeners, bind at 1; cbn.
  rewrite closure_iterate_returns; [done|lia..].
Qed.

Lemma closure_notifyListeners_frame :
  preserves (W:=world) (R:=R) Closure.frame Closure.notifyListeners.
Proof.
  unfold Closure.notifyListeners.
  apply preserves_bind; [apply _ | by apply preserves_pure; [apply _|] |]. intros w.
  apply closure_iterate_frame.
Qed.

(** The common tail of the mutation entry points: assign, count, notify
    once, return [current]. *)
Lemma closure_publish (next : T) w :
  (Closure.on_store (Closure.set_current next) >>
   Closure.on_store Closure.bump_version >>
   Closure.notifyListeners (R:=R) >>
   Closure.read) w
  = Run (Normal next)
        (after (Closure.notifyListeners (R:=R) (Closure.committed next w)))
        (trace (Closure.notifyListeners (R:=R) (Closure.committed next w))).
Proof.
  unfold bind, Closure.on_store, modify. cbn.
  fold (Closure.committed next w).
  rewrite closure_notifyListeners_returns. unfold Closure.read, bind, get, ret. cbn.
  destruct (closure_notifyListeners_frame (Closure.committed next w)) as (Hc & _ & _).
  rewrite Hc, app_nil_r. done.
Qed.

Lemma closure_mutate_spec (m : Mutation T) w :
  Closure.mutate (R:=R) m w =
    match user_completion m (Closure.current w.1) with
    | Normal next =>
        Run (Normal next)
            (after (Closure.notifyListeners (R:=R) (Closure.committed next w)))
            (trace (Closure.notifyListeners (R:=R) (Closure.committed next w)))
    | Throws e => Run (Throws e) w []
    end.
Proof.
  destruct m as [c | next | fn | cb]; cbn.
  - unfold Closure.update. unfold bind at 1. cbn. unfold bind at 1.
    destruct (call_reducer c (Closure.current w.1) (call_payload c)) as [v|e]; cbn; [|done].
    apply closure_publish.
  - unfold Closure.set. apply closure_publish.
  - unfold Closure.compute. unfold bind at 1. cbn. unfold bind at 1.
    destruct (fn (Closure.current w.1)) as [v|e]; cbn; [|done].
    apply closure_publish.
  - unfold Closure.batch. unfold bind at 1. cbn.
    destruct (run_callback cb (Closure.current w.1)) as [[[]|e] next]; cbn.
    + unfold bind at 1. cbn. apply closure_publish.
    + done.
Qed.

(** A successful mutation replaces the value and counts once; the pass
    changes neither. *)
Lemma closure_mutate_normal (m : Mutation T) (next : T) w :
  user_completion m (Closure.current w.1) = Normal next →
  outcome (Closure.mutate (R:=R) m w) = Normal next ∧
  Closure.current (after (Closure.mutate (R:=R) m w)).1 = next ∧
  Closure.version (after (Closure.mutate (R:=R) m w)).1 = Closure.version w.1 + 1.
Proof.
  intros Hm. rewrite closure_mutate_spec, Hm. cbn.
  destruct (closure_notifyListeners_frame (Closure.committed next w)) as (Hc & Hv & _).
  rewrite Hc, Hv. done.
Qed.

Lemma closure_notify_spec id (l : Listener T R Env) w :
  Closure.closures w.1 !! id = Some l →
  let next := selector l (Closure.current w.1) in
  let r := Closure.notify id w in
  outcome r = Normal tt ∧
  trace r = (if equality l (prev l) next then [Notified id]
             else [Notified id; Fired id next]) ∧
  Closure.closures (after r).1 !! id =
    Some (if equality l (prev l) next then l else with_prev next l).
Proof.
  intros Hl next r. subst r. unfold Closure.notify.
  unfold bind at 1. cbn. unfold bind at 1. cbn. rewrite Hl. fold next.
  destruct (equality l (prev l) next); cbn; [done|].
  unfold bind, Closure.on_store, modify. cbn.
  match goal with
  | |- context [Closure.call_subscriber id ?s ?v ?w'] =>
      rewrite (closure_call_subscriber_trace id s v w');
      pose proof (closure_call_subscriber_core id s v w') as Hc;
      destruct (closure_call_subscriber_returns id s v w') as [[] ->]
  end.
  apply closure_core_keeps in Hc as (_ & _ & Hc & _). cbn. rewrite Hc.
  split_and!; [done..|]. apply lookup_insert_eq.
Qed.

Lemma closure_subscribe_spec (Object_is : R → R → bool) sel sub options w :
  let r := Closure.subscribe Object_is sel sub options w in
  outcome r = Normal (Closure.fresh w.1) ∧
  Closure.closures (after r).1 !! Closure.fresh w.1 =
    Some {| selector := sel; equality := default Object_is (options ≫= opt_eq);
            prev := sel (Closure.current w.1); subscriber := sub |} ∧
  fired (trace r) =
    (if default false (options ≫= fireImmediately)
     then [(Closure.fresh w.1, sel (Closure.current w.1))] else []) ∧
  Closure.current (after r).1 = Closure.current w.1 ∧
  Closure.version (after r).1 = Closure.version w.1.
Proof.
  cbv zeta. unfold Closure.subscribe. unfold bind at 1. cbn.
  set (first := if default false (options ≫= fireImmediately)
                then Closure.call_subscriber (Closure.fresh w.1) sub (sel (Closure.current w.1))
                else ret tt).
  assert (outcome (first w) = Normal tt ∧ keeps closure_core w (after (first w)) ∧
          fired (trace (first w)) =
            (if default false (options ≫= fireImmediately)
             then [(Closure.fresh w.1, sel (Closure.current w.1))] else []))
    as (Hout & Hcore & Htr).
  { subst first. destruct (default false (options ≫= fireImmediately)).
    - split_and!.
      + apply returns_unit, closure_call_subscriber_returns.
      + apply closure_call_subscriber_core.
      + by rewrite closure_call_subscriber_trace.
    - done. }
  rewrite (bind_normal _ _ _ _ Hout).
  apply closure_core_keeps in Hcore as (Hcur & Hver & _ & Hf).
  revert Hcur Hver Hf Htr. generalize (after (first w)) (trace (first w)).
  intros w1 tr1 Hcur Hver Hf Htr.
  unfold bind, Closure.on_store, modify, get, ret. cbn. rewrite Hf.
  split_and!; [done | apply lookup_insert_eq | | done..].
  unfold fired in *. rewrite omap_app, Htr. cbn. by rewrite app_nil_r.
Qed.

(** The version after any call of the store. *)
Lemma closure_step_version (Object_is : R → R → bool) (op : StoreOp T R Env) w :
  Closure.version (after (Closure.step Object_is op w)).1 =
    Closure.version w.1 + (if succeeds op (Closure.current w.1) then 1 else 0).
Proof.
  destruct op as [m | | | P fn payload | sel sub options | id]; cbn.
  - unfold bind. rewrite closure_mutate_spec.
    destruct (user_completion m (Closure.current w.1)) as [next|e]; cbn; [|lia].
    by destruct (closure_notifyListeners_frame (Closure.committed next w)) as (_ & -> & _).
  - unfold Closure.read, bind; cbn. lia.
  - unfold Closure.snapshot, bind; cbn. lia.
  - unfold Closure.effect, bind; cbn. destruct (fn _ _); cbn; lia.
  - unfold bind.
    destruct (closure_subscribe_spec Object_is sel sub options w) as (Ho & _ & _ & _ & Hv).
    rewrite Ho. cbn. rewrite Hv. lia.
  - destruct (closure_core_keeps _ _ (closure_unsubscribe_core id w)) as (_ & -> & _). lia.
Qed.

End ClosureFacts.

(** ** [StoreImpl] *)

Section ImplFacts.
Context {T R Env : Type}.
Abbreviation world := (@Impl.world T R Env).
Implicit Types w : world.

(** What calling unsubscribe handles leaves alone. *)
Abbreviation impl_core :=
  (λ w : world, (Impl.current w.1, Impl.version w.1,
                 Impl.closures w.1, Impl.fresh w.1)).

#[global] Instance impl_frame_preorder : PreOrder (@Impl.frame T R Env).
Proof.
  split.
  - intros w. unfold Impl.frame. auto.
  - intros w1 w2 w3 (Hc1 & Hv1 & Hl1) (Hc2 & Hv2 & Hl2). unfold Impl.frame.
    rewrite Hc2, Hc1, Hv2, Hv1. split_and!; [done..|lia].
Qed.

Lemma impl_unsubscribe_frame id :
  preserves (W:=world) (R:=R) Impl.frame (Impl.unsubscribe id).
Proof.
  intros w. unfold Impl.unsubscribe, bind, get; cbn.
  destruct (decide (id ∈ Impl.listeners w.1)); cbn.
  - unfold Impl.frame; cbn. split_and!; [done..|apply length_filter].
  - reflexivity.
Qed.

Lemma impl_unsubscribe_returns id :
  returns (W:=world) (R:=R) (Impl.unsubscribe id).
Proof.
  intros w. unfold Impl.unsubscribe, bind, get; cbn.
  destruct (decide (id ∈ Impl.listeners w.1)); cbn; by exists tt.
Qed.

Lemma impl_core_keeps w w' :
  keeps impl_core w w' →
  Impl.current w'.1 = Impl.current w.1 ∧
  Impl.version w'.1 = Impl.version w.1 ∧
  Impl.closures w'.1 = Impl.closures w.1 ∧
  Impl.fresh w'.1 = Impl.fresh w.1.
Proof. unfold keeps. intros [= -> -> -> ->]. done. Qed.

Lemma impl_unsubscribe_core id :
  preserves (W:=world) (R:=R) (keeps impl_core) (Impl.unsubscribe id).
Proof.
  intros w. unfold keeps, Impl.unsubscribe, bind, get; cbn.
  destruct (decide (id ∈ Impl.listeners w.1)); done.
Qed.

Lemma impl_unsubscribe_quiet id :
  quiet (W:=world) (R:=R) (Impl.unsubscribe id).
Proof.
  intros w. unfold Impl.unsubscribe, bind, get; cbn.
  destruct (decide (id ∈ Impl.listeners w.1)); done.
Qed.

Lemma impl_call_subscriber_frame id sub v :
  preserves (W:=world) (R:=R) Impl.frame (Impl.call_subscriber id sub v).
Proof.
  intros w. unfold Impl.call_subscriber, bind, tell, get; cbn.
  destruct (sub v w.2) as [env' handles]; cbn.
  pose proof (preserves_for_each Impl.frame (Impl.unsubscribe (T:=T) (R:=R) (Env:=Env)) handles
                impl_unsubscribe_frame (w.1, env')) as Hf.
  exact Hf.
Qed.

Lemma impl_call_subscriber_returns id sub v :
  returns (W:=world) (R:=R) (Impl.call_subscriber id sub v).
Proof.
  intros w. unfold Impl.call_subscriber, bind, tell, get; cbn.
  destruct (sub v w.2) as [env' handles]; cbn.
  apply (returns_for_each (Impl.unsubscribe (T:=T) (R:=R) (Env:=Env)) handles
           impl_unsubscribe_returns (w.1, env')).
Qed.

Lemma impl_call_subscriber_trace id sub v w :
  trace (Impl.call_subscriber (T:=T) (R:=R) (Env:=Env) id sub v w) = [Fired id v].
Proof.
  unfold Impl.call_subscriber, bind, tell, get; cbn.
  destruct (sub v w.2) as [env' handles]; cbn.
  f_equal. apply (quiet_for_each (Impl.unsubscribe (T:=T) (R:=R) (Env:=Env)) handles
                    impl_unsubscribe_quiet (w.1, env')).
Qed.

Lemma impl_call_subscriber_core id sub v :
  preserves (W:=world) (R:=R) (keeps impl_core)
    (Impl.call_subscriber id sub v).
Proof.
  intros w. unfold Impl.call_subscriber, bind, tell, get; cbn.
  destruct (sub v w.2) as [env' handles]; cbn.
  exact (preserves_for_each _ (Impl.unsubscribe (T:=T) (R:=R) (Env:=Env)) handles
           impl_unsubscribe_core (w.1, env')).
Qed.

Lemma impl_notify_frame id :
  preserves (W:=world) (R:=R) Impl.frame (Impl.notify id).
Proof.
  unfold Impl.notify.
  apply preserves_bind; [apply _ | by apply preserves_pure; [apply _|] |]. intros _.
  apply preserves_bind; [apply _ | by apply preserves_pure; [apply _|] |]. intros w.
  destruct (Impl.closures w.1 !! id) as [l|]; [|by apply preserves_pure; [apply _|]].
  cbv zeta.
  destruct (equality l (prev l) (selector l (Impl.current w.1)));
    [by apply preserves_pure; [apply _|]|].
  apply preserves_bind; [apply _ | | intros _; apply impl_call_subscriber_frame].
  intros w'. unfold Impl.frame. cbn. auto.
Qed.

Lemma impl_notify_returns id :
  returns (W:=world) (R:=R) (Impl.notify id).
Proof.
  unfold Impl.notify.
  apply returns_bind; [by eexists|]. intros _.
  apply returns_bind; [by eexists|]. intros w.
  destruct (Impl.closures w.1 !! id) as [l|]; [|by eexists].
  cbv zeta.
  destruct (equality l (prev l) (selector l (Impl.current w.1))); [by eexists|].
  apply returns_bind; [by eexists|]. intros _.
  apply impl_call_subscriber_returns.
Qed.

Lemma impl_notifyListeners_returns w :
  outcome (Impl.notifyListeners (R:=R) w) = Normal tt.
Proof.
  unfold Impl.notifyListeners, bind at 1; cbn.
  apply returns_unit, returns_for_each, impl_notify_returns.
Qed.

Lemma impl_notifyListeners_frame :
  preserves (W:=world) (R:=R) Impl.frame Impl.notifyListeners.
Proof.
  unfold Impl.notifyListeners.
  apply preserves_bind; [apply _ | by apply preserves_pure; [apply _|] |]. intros w.
  apply preserves_for_each; [apply _ | apply impl_notify_frame].
Qed.

(** The guard [listeners.size > 0] skips a pass that would call nobody. *)
Lemma impl_notify_if_any w :
  Impl.notify_if_any (R:=R) w = Impl.notifyListeners w.
Proof.
  unfold Impl.notify_if_any, Impl.notifyListeners, bind, get. cbn.
  destruct (decide _) as [|Hn]; [done|].
  destruct (Impl.listeners w.1); [done|]. cbn in Hn. lia.
Qed.

(** The common tail of the mutation entry points: assign, count, notify
    once, return [current]. *)
Lemma impl_publish (next : T) w :
  (Impl.on_store (Impl.set_current next) >>
   Impl.on_store Impl.bump_version >>
   Impl.notify_if_any (R:=R) >>
   Impl.read) w
  = Run (Normal next)
        (after (Impl.notifyListeners (R:=R) (Impl.committed next w)))
        (trace (Impl.notifyListeners (R:=R) (Impl.committed next w))).
Proof.
  unfold bind, Impl.on_store, modify. cbn.
  fold (Impl.committed next w).
  rewrite impl_notify_if_any, impl_notifyListeners_returns. unfold Impl.read, bind, get, ret. cbn.
  destruct (impl_notifyListeners_frame (Impl.committed next w)) as (Hc & _ & _).
  rewrite Hc, app_nil_r. done.
Qed.

Lemma impl_mutate_spec (m : Mutation T) w :
  Impl.mutate (R:=R) m w =
    match user_completion m (Impl.current w.1) with
    | Normal next =>
        Run (Normal next)
            (after (Impl.notifyListeners (R:=R) (Impl.committed next w)))
            (trace (Impl.notifyListeners (R:=R) (Impl.committed next w)))
    | Throws e => Run (Throws e) w []
    end.
Proof.
  destruct m as [c | next | fn | cb]; cbn.
  - unfold Impl.update. unfold bind at 1. cbn. unfold bind at 1.
    destruct (call_reducer c (Impl.current w.1) (call_payload c)) as [v|e]; cbn; [|done].
    apply impl_publish.
  - unfold Impl.set. apply impl_publish.
  - unfold Impl.compute. unfold bind at 1. cbn. unfold bind at 1.
    destruct (fn (Impl.current w.1)) as [v|e]; cbn; [|done].
    apply impl_publish.
  - unfold Impl.batch. unfold bind at 1. cbn.
    destruct (run_callback cb (Impl.current w.1)) as [[[]|e] next]; cbn.
    + unfold bind at 1. cbn. apply impl_publish.
    + done.
Qed.

(** A successful mutation replaces the value and counts once; the pass
    changes neither. *)
Lemma impl_mutate_normal (m : Mutation T) (next : T) w :
  user_completion m (Impl.current w.1) = Normal next →
  outcome (Impl.mutate (R:=R) m w) = Normal next ∧
  Impl.current (after (Impl.mutate (R:=R) m w)).1 = next ∧
  Impl.version (after (Impl.mutate (R:=R) m w)).1 = Impl.version w.1 + 1.
Proof.
  intros Hm. rewrite impl_mutate_spec, Hm. cbn.
  destruct (impl_notifyListeners_frame (Impl.committed next w)) as (Hc & Hv & _).
  rewrite Hc, Hv. done.
Qed.

Lemma impl_notify_spec id (l : Listener T R Env) w :
  Impl.closures w.1 !! id = Some l →
  let next := selector l (Impl.current w.1) in
  let r := Impl.notify id w in
  outcome r = Normal tt ∧
  trace r = (if equality l (prev l) next then [Notified id]
             else [Notified id; Fired id next]) ∧
  Impl.closures (after r).1 !! id =
    Some (if equality l (prev l) next then l else with_prev next l).
Proof.
  intros Hl next r. subst r. unfold Impl.notify.
  unfold bind at 1. cbn. unfold bind at 1. cbn. rewrite Hl. fold next.
  destruct (equality l (prev l) next); cbn; [done|].
  unfold bind, Impl.on_store, modify. cbn.
  match goal with
  | |- context [Impl.call_subscriber id ?s ?v ?w'] =>
      rewrite (impl_call_subscriber_trace id s v w');
      pose proof (impl_call_subscriber_core id s v w') as Hc;
      destruct (impl_call_subscriber_returns id s v w') as [[] ->]
  end.
  apply impl_core_keeps in Hc as (_ & _ & Hc & _). cbn. rewrite Hc.
  split_and!; [done..|]. apply lookup_insert_eq.
Qed.

Lemma impl_subscribe_spec (Object_is : R → R → bool) sel sub options w :
  let r := Impl.subscribe Object_is sel sub options w in
  outcome r = Normal (Impl.fresh w.1) ∧
  Impl.closures (after r).1 !! Impl.fresh w.1 =
    Some {| selector := sel; equality := default Object_is (options ≫= opt_eq);
            prev := sel (Impl.current w.1); subscriber := sub |} ∧
  fired (trace r) =
    (if default false (options ≫= fireImmediately)
     then [(Impl.fresh w.1, sel (Impl.current w.1))] else []) ∧
  Impl.current (after r).1 = Impl.current w.1 ∧
  Impl.version (after r).1 = Impl.version w.1.
Proof.
  cbv zeta. unfold Impl.subscribe. unfold bind at 1. cbn.
  set (first := if default false (options ≫= fireImmediately)
                then Impl.call_subscriber (Impl.fresh w.1) sub (sel (Impl.current w.1))
                else ret tt).
  assert (outcome (first w) = Normal tt ∧ keeps impl_core w (after (first w)) ∧
          fired (trace (first w)) =
            (if default false (options ≫= fireImmediately)
             then [(Impl.fresh w.1, sel (Impl.current w.1))] else []))
    as (Hout & Hcore & Htr).
  { subst first. destruct (default false (options ≫= fireImmediately)).
    - split_and!.
      + apply returns_unit, impl_call_subscriber_returns.
      + apply impl_call_subscriber_core.
      + by rewrite impl_call_subscriber_trace.
    - done. }
  rewrite (bind_normal _ _ _ _ Hout).
  apply impl_core_keeps in Hcore as (Hcur & Hver & _ & Hf).
  revert Hcur Hver Hf Htr. generalize (after (first w)) (trace (first w)).
  intros w1 tr1 Hcur Hver Hf Htr.
  unfold bind, Impl.on_store, modify, get, ret. cbn. rewrite Hf.
  split_and!; [done | apply lookup_insert_eq | | done..].
  unfold fired in *. rewrite omap_app, Htr. cbn. by rewrite app_nil_r.
Qed.

(** The version after any call of the store. *)
Lemma impl_step_version (Object_is : R → R → bool) (op : StoreOp T R Env) w :
  Impl.version (after (Impl.step Object_is op w)).1 =
    Impl.version w.1 + (if succeeds op (Impl.current w.1) then 1 else 0).
Proof.
  destruct op as [m | | | P fn payload | sel sub options | id]; cbn.
  - unfold bind. rewrite impl_mutate_spec.
    destruct (user_completion m (Impl.current w.1)) as [next|e]; cbn; [|lia].
    by destruct (impl_notifyListeners_frame (Impl.committed next w)) as (_ & -> & _).
  - unfold Impl.read, bind; cbn. lia.
  - unfold Impl.snapshot, bind; cbn. lia.
  - unfold Impl.effect, bind; cbn. destruct (fn _ _); cbn; lia.
  - unfold bind.
    destruct (impl_subscribe_spec Object_is sel sub options w) as (Ho & _ & _ & _ & Hv).
    rewrite Ho. cbn. rewrite Hv. lia.
  - destruct (impl_core_keeps _ _ (impl_unsubscribe_core id w)) as (_ & -> & _). lia.
Qed.

End ImplFacts.

(** A pass of [StoreImpl] calls the listeners of the set it started
    with, each once and in order, whatever the subscribers unsubscribe
    meanwhile. *)
Section ImplPass.
Context {T R Env : Type}.
Implicit Types w : @Impl.world T R Env.

Lemma impl_notify_notified id w :
  notified (trace (Impl.notify (R:=R) id w)) = [id].
Proof.
  unfold Impl.notify. unfold bind at 1. cbn. unfold bind at 1. cbn.
  destruct (Impl.closures w.1 !! id) as [l|]; [|done].
  destruct (equality l (prev l) (selector l (Impl.current w.1))); [done|].
  unfold bind, Impl.on_store, modify. cbn.
  by rewrite impl_call_subscriber_trace.
Qed.

Lemma impl_for_each_notified (ids : list nat) w :
  notified (trace (for_each (Impl.notify (R:=R)) ids w)) = ids.
Proof.
  revert w. induction ids as [|id ids IH]; intros w; [done|].
  cbn. rewrite (bind_normal _ _ _ _ (returns_unit _ _ (impl_notify_returns id))).
  cbn. pose proof (impl_notify_notified id w) as Hn.
  unfold notified in *. by rewrite omap_app, IH, Hn.
Qed.

Lemma impl_notify_fired id w :
  fired (trace (Impl.notify (R:=R) id w)) = option_list (Impl.selection_change w id).
Proof.
  unfold Impl.selection_change.
  destruct (Impl.closures w.1 !! id) as [l|] eqn:Hl; cbn.
  - destruct (impl_notify_spec id l w Hl) as (_ & -> & _).
    by destruct (equality l (prev l) (selector l (Impl.current w.1))).
  - unfold Impl.notify. unfold bind at 1. cbn. unfold bind at 1. cbn. by rewrite Hl.
Qed.

(** A listener's call changes no other listener's [prev], nor the value. *)
Lemma impl_notify_others id w j :
  j ≠ id →
  Impl.selection_change (after (Impl.notify (R:=R) id w)) j = Impl.selection_change w j.
Proof.
  intros Hj. unfold Impl.selection_change.
  destruct (impl_notify_frame id w) as (-> & _ & _).
  enough (Impl.closures (after (Impl.notify (R:=R) id w)).1 !! j
          = Impl.closures w.1 !! j) as -> by done.
  unfold Impl.notify. unfold bind at 1. cbn. unfold bind at 1. cbn.
  destruct (Impl.closures w.1 !! id) as [l|]; [|done].
  destruct (equality l (prev l) (selector l (Impl.current w.1))); [done|].
  destruct (impl_core_keeps _ _
              (impl_call_subscriber_core id (subscriber l) (selector l (Impl.current w.1))
                 (Impl.set_closure id (with_prev (selector l (Impl.current w.1)) l) w.1, w.2)))
    as (_ & _ & Hc & _).
  cbn [after]. rewrite Hc. cbn. by rewrite lookup_insert_ne.
Qed.

Lemma impl_for_each_fired (ids : list nat) w :
  NoDup ids →
  fired (trace (for_each (Impl.notify (R:=R)) ids w))
  = omap (Impl.selection_change w) ids.
Proof.
  revert w. induction ids as [|id ids IH]; intros w Hnd; [done|].
  apply NoDup_cons in Hnd as [Hid Hnd].
  cbn [for_each omap]. rewrite (bind_normal _ _ _ _ (returns_unit _ _ (impl_notify_returns id))).
  cbn [trace]. pose proof (impl_notify_fired id w) as Hf.
  unfold fired in *. rewrite omap_app, Hf, (IH _ Hnd).
  assert (omap (Impl.selection_change (after (Impl.notify (R:=R) id w))) ids
          = omap (Impl.selection_change w) ids) as ->.
  { clear IH Hnd Hf. induction ids as [|j ids IH]; [done|].
    apply not_elem_of_cons in Hid as [Hj Hid]. cbn [omap list_omap].
    rewrite (impl_notify_others id w j) by done. by rewrite (IH Hid). }
  cbn [list_omap]. by destruct (Impl.selection_change w id).
Qed.

(** A pass of [StoreImpl] calls the subscribers of exactly the listeners
    whose selection has changed, with the new selection, in order. *)
Lemma impl_pass_fired w :
  NoDup (Impl.listeners w.1) →
  fired (trace (Impl.notifyListeners (R:=R) w))
  = omap (Impl.selection_change w) (Impl.listeners w.1).
Proof.
  intros Hnd. unfold Impl.notifyListeners, bind at 1. cbn.
  apply (impl_for_each_fired (Impl.listeners w.1) w Hnd).
Qed.

Lemma impl_pass_snapshot w :
  notified (trace (Impl.notifyListeners (R:=R) w)) = Impl.listeners w.1.
Proof.
  unfold Impl.notifyListeners, bind at 1. cbn.
  apply (impl_for_each_notified (Impl.listeners w.1) w).
Qed.

End ImplPass.

(** ** The store: atomic failure, batch, version, subscriptions *)

Section StoreClaims.
Context {T R Env : Type}.
Implicit Types cw : @Closure.world T R Env.
Implicit Types iw : @Impl.world T R Env.

(** C1. If the function handed to [update], [compute] or [batch] throws
    on the store's value, the call throws the same exception to its
    caller, the store (value, version, listeners) is exactly as before
    the call and nothing is notified; in both listings. *)
Theorem throwing_mutation_leaves_store_as_before
    (m : Mutation T) (v : T) (e : exn) :
  user_completion m v = Throws e →
  (∀ cw, Closure.current cw.1 = v →
     Closure.mutate (R:=R) m cw = Run (Throws e) cw []) ∧
  (∀ iw, Impl.current iw.1 = v →
     Impl.mutate (R:=R) m iw = Run (Throws e) iw []).
Proof.
  intros Hm. split.
  - intros cw <-. by rewrite closure_mutate_spec, Hm.
  - intros iw <-. by rewrite impl_mutate_spec, Hm.
Qed.

(** C3. [version] starts at 0; a call of the store adds exactly 1 to it
    when it is [set], [update], [compute] or [batch] (one batch, one
    mutation) and its function returns normally, in which case the value
    is replaced by what the function produced, and leaves it unchanged
    otherwise; so it never decreases and is never negative. *)
Theorem version_counts_successful_mutations (Object_is : R → R → bool) :
  (∀ initial : T,
     Closure.version (Closure.createStore (R:=R) (Env:=Env) initial) = 0 ∧
     Impl.version (Impl.createStore (R:=R) (Env:=Env) initial) = 0) ∧
  (∀ op cw,
     Closure.version (after (Closure.step Object_is op cw)).1 =
       Closure.version cw.1 + (if succeeds op (Closure.current cw.1) then 1 else 0)) ∧
  (∀ op iw,
     Impl.version (after (Impl.step Object_is op iw)).1 =
       Impl.version iw.1 + (if succeeds op (Impl.current iw.1) then 1 else 0)) ∧
  (∀ m cw,
     match user_completion m (Closure.current cw.1) with
     | Normal next =>
         outcome (Closure.mutate (R:=R) m cw) = Normal next ∧
         Closure.current (after (Closure.mutate (R:=R) m cw)).1 = next
     | Throws e => Closure.mutate (R:=R) m cw = Run (Throws e) cw []
     end) ∧
  (∀ m iw,
     match user_completion m (Impl.current iw.1) with
     | Normal next =>
         outcome (Impl.mutate (R:=R) m iw) = Normal next ∧
         Impl.current (after (Impl.mutate (R:=R) m iw)).1 = next
     | Throws e => Impl.mutate (R:=R) m iw = Run (Throws e) iw []
     end) ∧
  (∀ ops cw,
     Closure.version cw.1 ≤
     Closure.version (after (script (Closure.step Object_is <$> ops) cw)).1) ∧
  (∀ ops iw,
     Impl.version iw.1 ≤
     Impl.version (after (script (Impl.step Object_is <$> ops) iw)).1) ∧
  (∀ (ops : list (StoreOp T R Env)) (initial : T) (env : Env),
     0 ≤ Closure.version
           (after (script (Closure.step Object_is <$> ops)
                     (Closure.createStore initial, env))).1 ∧
     0 ≤ Impl.version
           (after (script (Impl.step Object_is <$> ops)
                     (Impl.createStore initial, env))).1).
Proof.
  assert (∀ ops cw,
     Closure.version cw.1 ≤
     Closure.version (after (script (Closure.step Object_is <$> ops) cw)).1) as Hcmono.
  { intros ops. induction ops as [|op ops IH]; intros cw; [cbn; lia|].
    rewrite fmap_cons, script_after.
    specialize (IH (after (Closure.step Object_is op cw))).
    pose proof (closure_step_version Object_is op cw).
    destruct (succeeds _ _); lia. }
  assert (∀ ops iw,
     Impl.version iw.1 ≤
     Impl.version (after (script (Impl.step Object_is <$> ops) iw)).1) as Himono.
  { intros ops. induction ops as [|op ops IH]; intros iw; [cbn; lia|].
    rewrite fmap_cons, script_after.
    specialize (IH (after (Impl.step Object_is op iw))).
    pose proof (impl_step_version Object_is op iw).
    destruct (succeeds _ _); lia. }
  split_and!.
  - done.
  - apply closure_step_version.
  - apply impl_step_version.
  - intros m cw. rewrite closure_mutate_spec.
    destruct (user_completion m (Closure.current cw.1)) as [next|e] eqn:Hm; [|done].
    cbn. by destruct (closure_notifyListeners_frame (R:=R) (Closure.committed next cw))
      as (-> & _ & _).
  - intros m iw. rewrite impl_mutate_spec.
    destruct (user_completion m (Impl.current iw.1)) as [next|e] eqn:Hm; [|done].
    cbn. by destruct (impl_notifyListeners_frame (R:=R) (Impl.committed next iw))
      as (-> & _ & _).
  - apply Hcmono.
  - apply Himono.
  - intros ops initial env. split.
    + apply (Hcmono ops (Closure.createStore initial, env)).
    + apply (Himono ops (Impl.createStore initial, env)).
Qed.

End StoreClaims.

Section SubscriptionClaims.
Context {T R Env : Type}.
Implicit Types cw : @Closure.world T R Env.
Implicit Types iw : @Impl.world T R Env.

(** One call of a listener.  [subscribe(selector, subscriber, options)]
    builds a listener holding [selector], [subscriber], the equality
    [options.eq], or [Object.is] when none is given, and [prev], the
    selection of the value at that time.  A call of a listener applies
    the selector to the store's value, calls the subscriber, with the new
    selection, if and only if [eq(prev, next)] is false, and sets [prev]
    to the new selection exactly in that case; in both listings.  A pass
    of [StoreImpl] calls every listener, so that it calls the subscribers
    of exactly the listeners whose selection has changed; a pass of the
    closure based store may not reach a listener (see below). *)
Theorem subscriber_fires_iff_selection_differs
    (Object_is : R → R → bool) (id : nat) (l : Listener T R Env) cw iw :
  Closure.closures cw.1 !! id = Some l →
  Impl.closures iw.1 !! id = Some l →
  (let next := selector l (Closure.current cw.1) in
   let r := Closure.notify id cw in
   outcome r = Normal tt ∧
   notified (trace r) = [id] ∧
   fired (trace r) = (if equality l (prev l) next then [] else [(id, next)]) ∧
   Closure.closures (after r).1 !! id =
     Some (if equality l (prev l) next then l else with_prev next l)) ∧
  (let next := selector l (Impl.current iw.1) in
   let r := Impl.notify id iw in
   outcome r = Normal tt ∧
   notified (trace r) = [id] ∧
   fired (trace r) = (if equality l (prev l) next then [] else [(id, next)]) ∧
   Impl.closures (after r).1 !! id =
     Some (if equality l (prev l) next then l else with_prev next l)) ∧
  (∀ sel sub options cw',
     Closure.closures (after (Closure.subscribe Object_is sel sub options cw')).1
       !! Closure.fresh cw'.1 =
     Some {| selector := sel; equality := default Object_is (options ≫= opt_eq);
             prev := sel (Closure.current cw'.1); subscriber := sub |}) ∧
  (∀ sel sub options iw',
     Impl.closures (after (Impl.subscribe Object_is sel sub options iw')).1
       !! Impl.fresh iw'.1 =
     Some {| selector := sel; equality := default Object_is (options ≫= opt_eq);
             prev := sel (Impl.current iw'.1); subscriber := sub |}) ∧
  (∀ iw', NoDup (Impl.listeners iw'.1) →
     notified (trace (Impl.notifyListeners (R:=R) iw')) = Impl.listeners iw'.1 ∧
     fired (trace (Impl.notifyListeners (R:=R) iw'))
       = omap (Impl.selection_change iw') (Impl.listeners iw'.1)).
Proof.
  intros Hc Hi. split_and!; [| | | |intros iw' Hnd; split;
                                   [apply impl_pass_snapshot | by apply impl_pass_fired]].
  - cbv zeta. destruct (closure_notify_spec id l cw Hc) as (Ho & Ht & Hl).
    rewrite Ht. split_and!; [done | | | done];
      by destruct (equality l (prev l) (selector l (Closure.current cw.1))).
  - cbv zeta. destruct (impl_notify_spec id l iw Hi) as (Ho & Ht & Hl).
    rewrite Ht. split_and!; [done | | | done];
      by destruct (equality l (prev l) (selector l (Impl.current iw.1))).
  - intros sel sub options cw'.
    by destruct (closure_subscribe_spec Object_is sel sub options cw') as (_ & ? & _).
  - intros sel sub options iw'.
    by destruct (impl_subscribe_spec Object_is sel sub options iw') as (_ & ? & _).
Qed.

End SubscriptionClaims.

(** The test "dedups by equality": of three [set] calls, only the one
    that changes [count] reaches the subscriber. *)
Example dedups_by_equality :
  (after (script (Closure.subscribe Z.eqb Counter.count Counter.record_value None
                  :: ((λ s, Closure.set s >> ret 0%nat) <$> Counter.dedup_sets))
            (Closure.createStore Counter.init, []))).2 = [1] ∧
  (after (script (Impl.subscribe Z.eqb Counter.count Counter.record_value None
                  :: ((λ s, Impl.set s >> ret 0%nat) <$> Counter.dedup_sets))
            (Impl.createStore Counter.init, []))).2 = [1].
Proof. split; vm_compute; reflexivity. Qed.

(** C5, on the closure based listing: the first of two listeners
    unsubscribes itself while it is notified; the in-place [splice]
    shifts the second listener under the iterator's index and the pass
    ends without calling it.  [StoreImpl] calls both. *)
Theorem closure_pass_skips_listener_after_splice :
  Closure.listeners Counter.closure_two_listeners.1 = [0%nat; 1%nat] ∧
  notified (trace (Closure.set (Counter.Build_CounterState 1 "y")
                     Counter.closure_two_listeners)) = [0%nat] ∧
  Impl.listeners Counter.impl_two_listeners.1 = [0%nat; 1%nat] ∧
  notified (trace (Impl.set (Counter.Build_CounterState 1 "y")
                     Counter.impl_two_listeners)) = [0%nat; 1%nat].
Proof. split_and!; vm_compute; reflexivity. Qed.

(** C4, on the closure based listing, at the input of C5.  The second
    listener is registered with [prev = 0]; the first [set] takes
    [count] from 0 to 1, so that [eq(prev, next)] is false for it, but
    the pass ends before it is called: its subscriber is not invoked and
    its [prev] stays 0.  The second [set] leaves [count] at 1, and the
    subscriber is invoked although the selection has not changed.
    [StoreImpl] invokes it on the first [set] and not on the second. *)
Theorem closure_skipped_listener_fires_on_unchanged_selection :
  let y := Counter.Build_CounterState 1 "y" in
  let z := Counter.Build_CounterState 1 "z" in
  let c1 := Closure.set (R:=Z) y Counter.closure_two_listeners in
  let c2 := Closure.set (R:=Z) z (after c1) in
  let i1 := Impl.set (R:=Z) y Counter.impl_two_listeners in
  let i2 := Impl.set (R:=Z) z (after i1) in
  Closure.listeners Counter.closure_two_listeners.1 = [0%nat; 1%nat] ∧
  (prev <$> Closure.closures Counter.closure_two_listeners.1 !! 1%nat) = Some 0 ∧
  (equality <$> Closure.closures Counter.closure_two_listeners.1 !! 1%nat) = Some Z.eqb ∧
  Z.eqb 0 (Counter.count y) = false ∧
  fired (trace c1) = [(0%nat, 1)] ∧
  (prev <$> Closure.closures (after c1).1 !! 1%nat) = Some 0 ∧
  Closure.listeners (after c1).1 = [1%nat] ∧
  Counter.count (Closure.current (after c1).1) = Counter.count z ∧
  fired (trace c2) = [(1%nat, 1)] ∧
  fired (trace i1) = [(0%nat, 1); (1%nat, 1)] ∧
  (prev <$> Impl.closures (after i1).1 !! 1%nat) = Some 1 ∧
  fired (trace i2) = [].
Proof. cbv zeta. split_and!; vm_compute; reflexivity. Qed.

(** Witnesses. *)

Lemma throwing_mutation_witness :
  user_completion (MUpdate Counter.failing_call) Counter.init = Throws "boom" ∧
  (∀ cw : @Closure.world Counter.CounterState Z (list Z),
     Closure.current cw.1 = Counter.init →
     Closure.mutate (R:=Z) (MUpdate Counter.failing_call) cw = Run (Throws "boom") cw []) ∧
  (∀ iw : @Impl.world Counter.CounterState Z (list Z),
     Impl.current iw.1 = Counter.init →
     Impl.mutate (R:=Z) (MUpdate Counter.failing_call) iw = Run (Throws "boom") iw []).
Proof.
  split; [reflexivity|].
  apply (throwing_mutation_leaves_store_as_before
           (MUpdate Counter.failing_call) Counter.init "boom").
  reflexivity.
Defined.

Lemma subscriber_fires_witness :
  let l := {| selector := Counter.count; equality := Z.eqb; prev := 0;
              subscriber := Counter.record_value |} in
  let cw := (Closure.set_current (Counter.Build_CounterState 1 "y")
               Counter.closure_two_listeners.1, []) in
  let iw := (Impl.set_current (Counter.Build_CounterState 1 "y")
               Counter.impl_two_listeners.1, []) in
  Closure.closures cw.1 !! 1%nat = Some l ∧
  Impl.closures iw.1 !! 1%nat = Some l ∧
  fired (trace (Closure.notify 1 cw)) = [(1%nat, 1)] ∧
  fired (trace (Impl.notify 1 iw)) = [(1%nat, 1)].
Proof.
  cbv zeta. split; [reflexivity|]. split; [reflexivity|].
  destruct (subscriber_fires_iff_selection_differs Z.eqb 1
              {| selector := Counter.count; equality := Z.eqb; prev := 0;
                 subscriber := Counter.record_value |}
              (Closure.set_current (Counter.Build_CounterState 1 "y")
                 Counter.closure_two_listeners.1, [])
              (Impl.set_current (Counter.Build_CounterState 1 "y")
                 Counter.impl_two_listeners.1, [])
              eq_refl eq_refl) as ((_ & _ & Hc & _) & (_ & _ & Hi & _) & _).
  split; [exact Hc | exact Hi].
Defined.

(** ** The transaction scope *)

Arguments Transaction.commit : simpl never.
Arguments Transaction.rollback : simpl never.

Section TransactionFacts.
Context {T R W : Type}.
Variable store : Transaction.StoreApi T R W.
Implicit Types s : Transaction.system (T:=T) (W:=W).

(** The staging calls work on [next] only: the store's state is not
    touched, nothing is notified and [initial] stays. *)
Lemma staging_step_frame (op : Transaction.TxOp T) s :
  Transaction.staging op = true →
  (after (Transaction.step (R:=R) store op s)).1 = s.1 ∧
  Transaction.initial (after (Transaction.step (R:=R) store op s)).2
    = Transaction.initial s.2 ∧
  trace (Transaction.step (R:=R) store op s) = [].
Proof.
  destruct op as [ | c | fn | v | | ]; cbn; try done; intros _.
  - unfold Transaction.apply, bind. cbn.
    by destruct (call_reducer c (Transaction.next s.2) (call_payload c)).
  - unfold Transaction.compute, bind. cbn.
    by destruct (fn (Transaction.next s.2)).
Qed.

Lemma staging_script_frame (ops : list (Transaction.TxOp T)) s :
  forallb Transaction.staging ops = true →
  (after (script (Transaction.step (R:=R) store <$> ops) s)).1 = s.1 ∧
  Transaction.initial (after (script (Transaction.step (R:=R) store <$> ops) s)).2
    = Transaction.initial s.2 ∧
  trace (script (Transaction.step (R:=R) store <$> ops) s) = [].
Proof.
  revert s. induction ops as [|op ops IH]; intros s; [done|].
  cbn [forallb]. intros [Hop Hops]%andb_prop.
  rewrite fmap_cons, script_after, script_trace.
  destruct (staging_step_frame op s Hop) as (H1 & H2 & H3).
  destruct (IH (after (Transaction.step store op s)) Hops) as (H4 & H5 & H6).
  rewrite H3, H4, H5, H6, H1, H2. done.
Qed.

(** Staged [apply] calls that all return fold their reducers into
    [next]. *)
Lemma staged_applies_fold (calls : list (ApplyCall T)) (pending : T) s :
  fold_calls calls (Transaction.next s.2) = Normal pending →
  Transaction.next
    (after (script (Transaction.step (R:=R) store <$> (Transaction.TxApply <$> calls)) s)).2
  = pending.
Proof.
  revert s. induction calls as [|c calls IH]; intros s; cbn [fold_calls].
  - intros [= <-]. done.
  - destruct (call_reducer c (Transaction.next s.2) (call_payload c)) as [v|e] eqn:Hc; [|done].
    intros Hf. rewrite !fmap_cons, script_after. apply IH.
    cbn. unfold Transaction.apply, bind. cbn. rewrite Hc. cbn. exact Hf.
Qed.

Lemma rollback_spec s :
  Transaction.rollback (R:=R) s =
    Run (Normal (Transaction.initial s.2))
        (s.1, Transaction.set_next (Transaction.initial s.2) s.2) [].
Proof. done. Qed.

(** C6. After any staged [apply]/[compute]/[set] (and [read]) calls on a
    scope, whether or not they threw, [rollback()] returns the baseline,
    which is the snapshot taken when the scope was created; the scope
    then reads the baseline; the store's state, hence its [read()] value
    and [version], is the one it had when the scope was created, and
    neither the staged calls nor the rollback notified anyone. *)
Theorem rollback_restores_baseline_without_touching_store
    (w0 : W) (t : Transaction.scope T) (ops : list (Transaction.TxOp T)) :
  outcome (Transaction.beginTransaction (R:=R) store w0) = Normal t →
  forallb Transaction.staging ops = true →
  let w := after (Transaction.beginTransaction (R:=R) store w0) in
  let staged := script (Transaction.step (R:=R) store <$> ops) (w, t) in
  let r := Transaction.rollback (R:=R) (after staged) in
  outcome (Transaction.api_snapshot store w0) = Normal (Transaction.initial t) ∧
  (after staged).1 = w ∧ trace staged = [] ∧
  outcome r = Normal (Transaction.initial t) ∧
  (after r).1 = w ∧ trace r = [] ∧
  Transaction.api_version store (after r).1 = Transaction.api_version store w ∧
  outcome (Transaction.read (R:=R) (after r)) = Normal (Transaction.initial t).
Proof.
  intros Hbegin Hops. cbv zeta.
  destruct (staging_script_frame ops
              (after (Transaction.beginTransaction store w0), t) Hops) as (H1 & H2 & H3).
  rewrite rollback_spec. cbn [outcome after trace fst snd].
  split_and!.
  - unfold Transaction.beginTransaction, bind in Hbegin.
    destruct (outcome (Transaction.api_snapshot store w0)) as [v|e]; cbn in Hbegin; [|done].
    by injection Hbegin as <-.
  - exact H1.
  - exact H3.
  - f_equal. exact H2.
  - exact H1.
  - done.
  - f_equal. exact H1.
  - unfold Transaction.read, bind, get, ret. cbn. f_equal. exact H2.
Qed.

Lemma commit_spec (value : W → T) s :
  Transaction.lawful store value →
  let published := Transaction.api_set store (Transaction.next s.2) s.1 in
  Transaction.commit (R:=R) store s =
    Run (Normal (Transaction.next s.2)) (after published, s.2) (trace published).
Proof.
  intros (_ & Hread & Hset). cbv zeta.
  destruct (Hset (Transaction.next s.2) s.1) as (Ho & Hv & _).
  unfold Transaction.commit, bind, Transaction.on_store, get. cbn.
  rewrite Ho. cbn. rewrite Hread. cbn. by rewrite Hv, app_nil_r.
Qed.

(** C7. After K staged [apply] calls that returned, [next] is the fold
    of the K reducers over the baseline; the staged calls leave the
    store alone and notify nobody; [commit()] is exactly one call
    [store.set(next)] of the store (its state and its notifications are
    those of that call: one version increment, one pass) and it returns
    the store's resulting value. *)
Theorem commit_publishes_fold_in_one_set
    (value : W → T) (w : W) (calls : list (ApplyCall T)) (pending : T) :
  Transaction.lawful store value →
  fold_calls calls (value w) = Normal pending →
  let begun := Transaction.beginTransaction (R:=R) store w in
  let t := {| Transaction.initial := value w; Transaction.next := value w |} in
  let staged :=
    script (Transaction.step (R:=R) store <$> (Transaction.TxApply <$> calls)) (w, t) in
  let r := Transaction.commit (R:=R) store (after staged) in
  let published := Transaction.api_set store pending w in
  begun = Run (Normal t) w [] ∧
  (after staged).1 = w ∧ trace staged = [] ∧
  Transaction.next (after staged).2 = pending ∧
  outcome r = Normal pending ∧
  (after r).1 = after published ∧ trace r = trace published ∧
  value (after r).1 = pending ∧
  Transaction.api_version store (after r).1 = Transaction.api_version store w + 1.
Proof.
  intros Hlaw Hfold. cbv zeta.
  set (t := {| Transaction.initial := value w; Transaction.next := value w |}).
  assert (forallb Transaction.staging (Transaction.TxApply <$> calls) = true) as Hst.
  { clear. by induction calls. }
  destruct (staging_script_frame (Transaction.TxApply <$> calls) (w, t) Hst)
    as (H1 & _ & H3).
  pose proof (staged_applies_fold calls pending (w, t) Hfold) as H4.
  rewrite (commit_spec value _ Hlaw).
  destruct Hlaw as (Hsnap & _ & Hset).
  destruct (Hset pending w) as (_ & Hv & Hver).
  unfold Transaction.system in *. cbn [outcome after trace fst snd] in *.
  rewrite H4, H1, H3, Hv, Hver.
  split_and!; try done.
  unfold Transaction.beginTransaction, bind. by rewrite Hsnap.
Qed.

(** One call on a scope, against the user's view of it. *)
Lemma scope_step_spec (value : W → T) (op : Transaction.TxOp T) s :
  Transaction.lawful store value →
  let r := Transaction.step (R:=R) store op s in
  outcome r = Transaction.answer (Transaction.initial s.2) op (Transaction.next s.2) ∧
  (after r).2 =
    {| Transaction.initial := Transaction.initial s.2;
       Transaction.next :=
         Transaction.pending_after (Transaction.initial s.2) op (Transaction.next s.2) |} ∧
  Transaction.api_version store (after r).1
    = Transaction.api_version store s.1 + (if Transaction.is_commit op then 1 else 0).
Proof.
  intros Hlaw. cbv zeta. destruct s as [w [initial next]].
  destruct op as [ | c | fn | v | | ]; cbn [Transaction.step].
  - cbn. split_and!; [done..|lia].
  - unfold Transaction.apply, bind. cbn.
    destruct (call_reducer c next (call_payload c)); cbn; split_and!; try done; lia.
  - unfold Transaction.compute, bind. cbn.
    destruct (fn next); cbn; split_and!; try done; lia.
  - cbn. split_and!; [done..|lia].
  - rewrite (commit_spec value _ Hlaw). cbn.
    destruct Hlaw as (_ & _ & Hset). by destruct (Hset next w) as (_ & _ & ->).
  - rewrite rollback_spec. cbn. split_and!; [done..|lia].
Qed.

(** C10. A scope has no terminated state.  On any scope, whatever calls
    were made on it before: [commit()] returns after one more
    [store.set(next)] (its state and notifications are those of that
    call, one more version increment) and leaves [next] as it is;
    [rollback()] returns the baseline after resetting [next] to it;
    [read()] returns [next]; [set(v)] makes [v] the pending value and
    returns it; [apply] and [compute] make the result of their function
    on [next] the pending value and return it, or throw what the
    function throws and leave the scope as it is.  Hence in any sequence
    of calls every call completes as on a scope that starts from the
    last pending value, no [commit] or [rollback] throws, [version]
    grows by the number of [commit] calls, the baseline never changes,
    and a [commit] publishes the pending value that the calls before it
    have left. *)
Theorem scope_is_never_terminated (value : W → T) :
  Transaction.lawful store value →
  (∀ s,
     let r := Transaction.commit (R:=R) store s in
     let published := Transaction.api_set store (Transaction.next s.2) s.1 in
     outcome r = Normal (Transaction.next s.2) ∧
     (after r).2 = s.2 ∧
     value (after r).1 = Transaction.next s.2 ∧
     Transaction.api_version store (after r).1 = Transaction.api_version store s.1 + 1 ∧
     (after r).1 = after published ∧ trace r = trace published) ∧
  (∀ s,
     Transaction.rollback (R:=R) s =
       Run (Normal (Transaction.initial s.2))
           (s.1, Transaction.set_next (Transaction.initial s.2) s.2) []) ∧
  (∀ s, Transaction.read (R:=R) s = Run (Normal (Transaction.next s.2)) s []) ∧
  (∀ v s,
     Transaction.set (R:=R) v s = Run (Normal v) (s.1, Transaction.set_next v s.2) []) ∧
  (∀ c s,
     Transaction.apply (R:=R) (call_reducer c) (call_payload c) s =
       match call_reducer c (Transaction.next s.2) (call_payload c) with
       | Normal v => Run (Normal v) (s.1, Transaction.set_next v s.2) []
       | Throws e => Run (Throws e) s []
       end) ∧
  (∀ fn s,
     Transaction.compute (R:=R) fn s =
       match fn (Transaction.next s.2) with
       | Normal v => Run (Normal v) (s.1, Transaction.set_next v s.2) []
       | Throws e => Run (Throws e) s []
       end) ∧
  (∀ ops s,
     let r := script (Transaction.step (R:=R) store <$> ops) s in
     let cs := Transaction.answers (Transaction.initial s.2) ops (Transaction.next s.2) in
     outcome r = Normal cs ∧
     Forall2 (λ op c, Transaction.returned op c = true) ops cs ∧
     Forall2 (λ op c, Transaction.staging op = false → is_normal c = true) ops cs ∧
     Transaction.next (after r).2
       = Transaction.replay (Transaction.initial s.2) ops (Transaction.next s.2) ∧
     Transaction.api_version store (after r).1
       = Transaction.api_version store s.1 + Transaction.commits ops ∧
     Transaction.initial (after r).2 = Transaction.initial s.2) ∧
  (∀ ops s,
     let r := script (Transaction.step (R:=R) store <$> (ops ++ [Transaction.TxCommit])) s in
     value (after r).1
       = Transaction.replay (Transaction.initial s.2) ops (Transaction.next s.2)).
Proof.
  intros Hlaw.
  assert (∀ s,
     let r := Transaction.commit (R:=R) store s in
     let published := Transaction.api_set store (Transaction.next s.2) s.1 in
     outcome r = Normal (Transaction.next s.2) ∧
     (after r).2 = s.2 ∧
     value (after r).1 = Transaction.next s.2 ∧
     Transaction.api_version store (after r).1 = Transaction.api_version store s.1 + 1 ∧
     (after r).1 = after published ∧ trace r = trace published) as Hcommit.
  { intros s. cbv zeta. rewrite (commit_spec value s Hlaw).
    destruct Hlaw as (_ & _ & Hset).
    destruct (Hset (Transaction.next s.2) s.1) as (_ & Hv & Hver). done. }
  assert (∀ ops s,
     let r := script (Transaction.step (R:=R) store <$> ops) s in
     let cs := Transaction.answers (Transaction.initial s.2) ops (Transaction.next s.2) in
     outcome r = Normal cs ∧
     Forall2 (λ op c, Transaction.returned op c = true) ops cs ∧
     Forall2 (λ op c, Transaction.staging op = false → is_normal c = true) ops cs ∧
     Transaction.next (after r).2
       = Transaction.replay (Transaction.initial s.2) ops (Transaction.next s.2) ∧
     Transaction.api_version store (after r).1
       = Transaction.api_version store s.1 + Transaction.commits ops ∧
     Transaction.initial (after r).2 = Transaction.initial s.2) as Hscript.
  { intros ops. induction ops as [|op ops IH]; intros s.
    { cbn. split_and!; [done | constructor | constructor | done
                        | unfold Transaction.commits; cbn; lia | done]. }
    cbv zeta. rewrite fmap_cons, script_after.
    destruct (scope_step_spec value op s Hlaw) as (Ho & Hs & Hv).
    destruct (IH (after (Transaction.step store op s)))
      as (Hcs & Hret & Hterm & Hnext & Hver & Hini).
    rewrite Hs in Hcs, Hret, Hterm, Hnext, Hini. cbn [Transaction.initial Transaction.next] in *.
    cbn [Transaction.answers Transaction.replay foldl].
    split_and!.
    - cbn. unfold bind at 1. cbn. rewrite Ho. cbn in Hcs. unfold bind. rewrite Hcs. done.
    - constructor; [|done]. unfold Transaction.returned. by destruct op.
    - constructor; [|done]. by destruct op.
    - exact Hnext.
    - rewrite Hver, Hv. unfold Transaction.commits. rewrite filter_cons.
      destruct op; cbn; try lia.
      all: case_decide; try done; cbn [length]; lia.
    - exact Hini. }
  split_and!; [exact Hcommit | apply rollback_spec | done | done | | | exact Hscript |].
  - intros c s. unfold Transaction.apply, bind. cbn.
    destruct (call_reducer c (Transaction.next s.2) (call_payload c)); [|done].
    cbn. by destruct s.
  - intros fn s. unfold Transaction.compute, bind. cbn.
    destruct (fn (Transaction.next s.2)); [|done].
    cbn. by destruct s.
  - intros ops s. cbv zeta. rewrite fmap_app.
    assert (∀ (ms1 ms2 : list (M (Transaction.system (T:=T) (W:=W)) R T)) s0,
              after (script (ms1 ++ ms2) s0) = after (script ms2 (after (script ms1 s0))))
      as Happ.
    { intros ms1 ms2. induction ms1 as [|m ms1 IH1]; intros s0; [done|].
      rewrite <- app_comm_cons, !script_after. apply IH1. }
    rewrite Happ. cbn [fmap list_fmap]. rewrite script_after.
    cbn [Transaction.step]. destruct (Hscript ops s) as (_ & _ & _ & Hnext & _).
    destruct (Hcommit (after (script (Transaction.step (R:=R) store <$> ops) s)))
      as (_ & _ & Hv & _).
    cbn [script]. unfold ret at 1. cbn [after]. by rewrite Hv, Hnext.
Qed.

End TransactionFacts.

(** Both listings implement [Store<T>] as a transaction expects. *)
Lemma closure_api_lawful {T R Env : Type} :
  Transaction.lawful (closure_api (T:=T) (R:=R) (Env:=Env)) (λ w, Closure.current w.1).
Proof.
  split_and!; [done..|].
  intros v w. cbn.
  pose proof (closure_mutate_spec (R:=R) (MSet v) w) as Hs.
  destruct (closure_mutate_normal (R:=R) (MSet v) v w eq_refl) as (Ho & Hc & Hv).
  done.
Qed.

Lemma impl_api_lawful {T R Env : Type} :
  Transaction.lawful (impl_api (T:=T) (R:=R) (Env:=Env)) (λ w, Impl.current w.1).
Proof.
  split_and!; [done..|].
  intros v w. cbn.
  destruct (impl_mutate_normal (R:=R) (MSet v) v w eq_refl) as (Ho & Hc & Hv).
  done.
Qed.

(** Witnesses on the counter: staged calls, one of which throws. *)

Lemma rollback_witness :
  let ops := [Transaction.TxApply (Counter.add_call 1);
              Transaction.TxApply Counter.failing_call;
              Transaction.TxSet (Counter.Build_CounterState 7 "staged");
              Transaction.TxRead] in
  let t := {| Transaction.initial := Counter.init; Transaction.next := Counter.init |} in
  let staged := script (Transaction.step impl_api <$> ops) (Counter.impl_two_listeners, t) in
  outcome (Transaction.beginTransaction impl_api Counter.impl_two_listeners) = Normal t ∧
  forallb Transaction.staging ops = true ∧
  outcome (Transaction.rollback (R:=Z) (after staged)) = Normal Counter.init ∧
  (after (Transaction.rollback (R:=Z) (after staged))).1 = Counter.impl_two_listeners.
Proof.
  cbv zeta. split; [reflexivity|]. split; [reflexivity|].
  destruct (rollback_restores_baseline_without_touching_store impl_api
              Counter.impl_two_listeners
              {| Transaction.initial := Counter.init; Transaction.next := Counter.init |}
              [Transaction.TxApply (Counter.add_call 1);
               Transaction.TxApply Counter.failing_call;
               Transaction.TxSet (Counter.Build_CounterState 7 "staged");
               Transaction.TxRead]
              eq_refl eq_refl) as (_ & _ & _ & Ho & Hw & _).
  split; [exact Ho | exact Hw].
Defined.

Lemma commit_witness :
  let w : @Closure.world Counter.CounterState Z (list Z) :=
    (Closure.createStore Counter.init, []) in
  let calls := [Counter.add_call 1; Counter.add_call 2] in
  let t := {| Transaction.initial := Closure.current w.1;
              Transaction.next := Closure.current w.1 |} in
  let staged :=
    script (Transaction.step closure_api <$> (Transaction.TxApply <$> calls)) (w, t) in
  Transaction.lawful (closure_api (T:=Counter.CounterState) (R:=Z) (Env:=list Z))
    (λ w, Closure.current w.1) ∧
  fold_calls calls (Closure.current w.1) = Normal (Counter.Build_CounterState 3 "init") ∧
  outcome (Transaction.commit closure_api (after staged))
    = Normal (Counter.Build_CounterState 3 "init") ∧
  Transaction.api_version closure_api (after (Transaction.commit closure_api (after staged))).1
    = Transaction.api_version closure_api w + 1.
Proof.
  cbv zeta. split; [apply closure_api_lawful|]. split; [reflexivity|].
  destruct (commit_publishes_fold_in_one_set closure_api
              (λ w : @Closure.world Counter.CounterState Z (list Z), Closure.current w.1)
              (Closure.createStore Counter.init, [])
              [Counter.add_call 1; Counter.add_call 2]
              (Counter.Build_CounterState 3 "init")
              closure_api_lawful eq_refl) as (_ & _ & _ & _ & Ho & _ & _ & _ & Hv).
  split; [exact Ho | exact Hv].
Defined.

Lemma scope_never_terminated_witness :
  let ops := [Transaction.TxCommit; Transaction.TxRollback;
              Transaction.TxSet (Counter.Build_CounterState 7 "staged");
              Transaction.TxCompute (λ s, Counter.add s 5);
              Transaction.TxApply Counter.failing_call;
              Transaction.TxApply (Counter.add_call 1);
              Transaction.TxCommit; Transaction.TxRollback; Transaction.TxRead;
              Transaction.TxSet (Counter.Build_CounterState 2 "again");
              Transaction.TxCommit] in
  let s : Transaction.system :=
    (Counter.impl_two_listeners,
     {| Transaction.initial := Counter.init; Transaction.next := Counter.init |}) in
  let r := script (Transaction.step impl_api <$> ops) s in
  Transaction.lawful (impl_api (T:=Counter.CounterState) (R:=Z) (Env:=list Z))
    (λ w, Impl.current w.1) ∧
  outcome r =
    Normal [Normal Counter.init; Normal Counter.init;
            Normal (Counter.Build_CounterState 7 "staged");
            Normal (Counter.Build_CounterState 12 "staged");
            Throws "boom";
            Normal (Counter.Build_CounterState 13 "staged");
            Normal (Counter.Build_CounterState 13 "staged");
            Normal Counter.init; Normal Counter.init;
            Normal (Counter.Build_CounterState 2 "again");
            Normal (Counter.Build_CounterState 2 "again")] ∧
  Transaction.next (after r).2 = Counter.Build_CounterState 2 "again" ∧
  Transaction.api_version impl_api (after r).1 = Transaction.api_version impl_api s.1 + 3 ∧
  Transaction.initial (after r).2 = Counter.init.
Proof.
  cbv zeta. split; [apply impl_api_lawful|].
  destruct (scope_is_never_terminated impl_api
              (λ w : @Impl.world Counter.CounterState Z (list Z), Impl.current w.1)
              impl_api_lawful)
    as (_ & _ & _ & _ & _ & _ & Hscript & _).
  destruct (Hscript
              [Transaction.TxCommit; Transaction.TxRollback;
               Transaction.TxSet (Counter.Build_CounterState 7 "staged");
               Transaction.TxCompute (λ s, Counter.add s 5);
               Transaction.TxApply Counter.failing_call;
               Transaction.TxApply (Counter.add_call 1);
               Transaction.TxCommit; Transaction.TxRollback; Transaction.TxRead;
               Transaction.TxSet (Counter.Build_CounterState 2 "again");
               Transaction.TxCommit]
              (Counter.impl_two_listeners,
               {| Transaction.initial := Counter.init; Transaction.next := Counter.init |}))
    as (Ho & _ & _ & Hn & Hv & Hi).
  split; [exact Ho|]. split; [exact Hn|]. split; [exact Hv | exact Hi].
Defined.

(** ** The composite view *)

Arguments Combine.attach_member : simpl never.
Arguments Combine.on_member : simpl never.
Arguments Combine.notifyAll : simpl never.
Arguments Combine.attach : simpl never.
Arguments Combine.detach : simpl never.

Section CombineFacts.
Context {V : Type} `{EqDecision V}.
Abbreviation cstore := (Combine.store V).
Abbreviation cworld := (Combine.world V).
Implicit Types w : cworld.
Implicit Types s : cstore.
Implicit Types c : Combine.combined V.

(** A pass of a member nobody listens to calls nobody. *)
Lemma member_pass_idle s c (next : V) :
  Impl.listeners s = [] →
  Impl.notifyListeners (R:=V) (Impl.committed next (s, c))
  = Run (Normal tt) (Impl.committed next (s, c)) [].
Proof.
  intros Hl. unfold Impl.notifyListeners, bind, get. cbn. rewrite Hl. done.
Qed.

(** A pass of a member the composite listens to: the composite's
    listener is told when the member's value is another one. *)
Lemma member_pass_listening k id s c (next : V) :
  Combine.listening k id s →
  after (Impl.notifyListeners (R:=V) (Impl.committed next (s, c))) =
    if decide (Impl.current s = next) then Impl.committed next (s, c)
    else (Impl.set_closure id (Combine.member_listener k next)
            (Impl.bump_version (Impl.set_current next s)),
          Combine.on_member k next c).
Proof.
  intros [Hl Hc]. unfold Impl.notifyListeners. unfold bind at 1. cbn. rewrite Hl. cbn.
  unfold bind at 1. unfold Impl.notify. unfold bind at 1. cbn. unfold bind at 1. cbn.
  rewrite Hc. cbn. unfold Combine.Object_is.
  destruct (decide (Impl.current s = next)) as [Heq|Hne].
  - rewrite bool_decide_eq_true_2 by done. done.
  - rewrite bool_decide_eq_false_2 by done.
    unfold bind, Impl.on_store, modify, Impl.call_subscriber, tell, get. cbn. done.
Qed.

Lemma notify_same_shape id c : Combine.same_shape c (Combine.notify id c).
Proof.
  unfold Combine.notify, Combine.same_shape.
  destruct (Combine.notifiers c !! id) as [n|]; [|done].
  by destruct (Combine.n_eq n (Combine.n_prev n) (Combine.current c)).
Qed.

Lemma notifyAll_same_shape c : Combine.same_shape c (Combine.notifyAll c).
Proof.
  unfold Combine.notifyAll. generalize (Combine.subscribers c) as ids.
  intros ids. revert c. induction ids as [|id ids IH]; intros c; [done|].
  cbn. destruct (notify_same_shape id c) as (H1 & H2 & H3 & H4).
  destruct (IH (Combine.notify id c)) as (H5 & H6 & H7 & H8).
  unfold Combine.same_shape. by rewrite H5, H6, H7, H8.
Qed.

(** The composite's listener on member [k] puts [x] in slot [k] of a new
    aggregate object and leaves the other slots as they are. *)
Lemma on_member_spec k (x : V) c :
  (Combine.ref (Combine.current c) < Combine.next_ref c)%nat →
  Combine.current (Combine.on_member k x c) =
    {| Combine.ref := Combine.next_ref c;
       Combine.slots := <[k := x]> (Combine.slots (Combine.current c)) |} ∧
  Combine.subscribers (Combine.on_member k x c) = Combine.subscribers c ∧
  Combine.childUnsubs (Combine.on_member k x c) = Combine.childUnsubs c ∧
  Combine.next_ref (Combine.on_member k x c) = S (Combine.next_ref c).
Proof.
  intros Href. unfold Combine.on_member, Combine.same_object. cbn.
  rewrite bool_decide_eq_false_2 by lia.
  by destruct (notifyAll_same_shape
       (Combine.set_current
          {| Combine.ref := Combine.next_ref c;
             Combine.slots := <[k := x]> (Combine.slots (Combine.current c)) |}
          (Combine.alloc_object c))) as (-> & -> & -> & ->).
Qed.

Lemma exec_nil w : Combine.exec [] w = w.
Proof. done. Qed.

Lemma exec_cons op ops w :
  Combine.exec (op :: ops) w = Combine.exec ops (after (Combine.step op w)).
Proof. unfold Combine.exec. by rewrite fmap_cons, script_after. Qed.

Lemma exec_one op w : Combine.exec [op] w = after (Combine.step op w).
Proof. by rewrite exec_cons. Qed.

Lemma exec_app ops1 ops2 w :
  Combine.exec (ops1 ++ ops2) w = Combine.exec ops2 (Combine.exec ops1 w).
Proof.
  revert w. induction ops1 as [|op ops1 IH]; intros w; [done|].
  by rewrite <- app_comm_cons, !exec_cons, IH.
Qed.

(** A mutation of a member. *)
Lemma on_member_missing k (m : Mutation V) w :
  Combine.stores w !! k = None →
  after (Combine.step (Combine.OnMember k m) w) = w.
Proof.
  intros Hk. cbn. unfold bind, Combine.member. by rewrite Hk.
Qed.

Lemma on_member_after k (m : Mutation V) w s :
  Combine.stores w !! k = Some s →
  after (Combine.step (Combine.OnMember k m) w) =
    match user_completion m (Impl.current s) with
    | Normal next =>
        let r := Impl.notifyListeners (R:=V) (Impl.committed next (s, Combine.view w)) in
        {| Combine.keys := Combine.keys w;
           Combine.stores := <[k := (after r).1]> (Combine.stores w);
           Combine.view := (after r).2 |}
    | Throws _ => w
    end.
Proof.
  intros Hk. cbn. unfold bind, Combine.member. rewrite Hk.
  rewrite (impl_mutate_spec (R:=V) m (s, Combine.view w)). cbn.
  destruct (user_completion m (Impl.current s)) as [next|e]; cbn; [done|].
  rewrite insert_id by done. by destruct w.
Qed.

(** Replacing a member's store by one with the same listeners, and the
    composite by one with the same subscriptions, keeps the state
    consistent. *)
Lemma consistent_update k s s' c' w :
  Combine.consistent w →
  Combine.stores w !! k = Some s →
  Impl.listeners s' = Impl.listeners s →
  (∀ id, Combine.listening k id s → Combine.listening k id s') →
  Combine.subscribers c' = Combine.subscribers (Combine.view w) →
  Combine.childUnsubs c' = Combine.childUnsubs (Combine.view w) →
  (Combine.ref (Combine.current c') < Combine.next_ref c')%nat →
  Combine.consistent
    {| Combine.keys := Combine.keys w;
       Combine.stores := <[k := s']> (Combine.stores w);
       Combine.view := c' |}.
Proof.
  intros (Hnd & Hdom & Href & Hatt) Hk Hls Hlis Hsub Hch Href'.
  unfold Combine.consistent. cbn. rewrite Hsub, Hch.
  split_and!; [done | | done |].
  - intros j. rewrite Hdom. destruct (decide (k = j)) as [<-|Hne].
    + rewrite lookup_insert_eq, Hk. by split; eauto.
    + by rewrite lookup_insert_ne.
  - destruct (Combine.childUnsubs (Combine.view w)) as [handles|].
    + destruct Hatt as (Hne & Hall & Hhs). split_and!; [done | |].
      * intros j sj. destruct (decide (k = j)) as [<-|Hkj].
        -- rewrite lookup_insert_eq. intros [= <-].
           destruct (Hall k s Hk) as (id & Hin & Hl). eauto.
        -- rewrite lookup_insert_ne by done. apply Hall.
      * intros j id Hin. destruct (Hhs j id Hin) as (sj & Hj & Hl).
        destruct (decide (k = j)) as [<-|Hkj].
        -- rewrite lookup_insert_eq. exists s'. split; [done|].
           apply Hlis. congruence.
        -- rewrite lookup_insert_ne by done. eauto.
    + destruct Hatt as (Hemp & Hall). split; [done|].
      intros j sj. destruct (decide (k = j)) as [<-|Hkj].
      * rewrite lookup_insert_eq. intros [= <-]. rewrite Hls. eauto.
      * rewrite lookup_insert_ne by done. apply Hall.
Qed.

(** The state after a mutation of member [k] whose function produced
    [next]: the member holds [next] and has counted once; the composite
    is told exactly when it is subscribed and [next] is another value. *)
Lemma on_member_effect k (m : Mutation V) w s (next : V) :
  Combine.consistent w →
  Combine.stores w !! k = Some s →
  user_completion m (Impl.current s) = Normal next →
  ∃ s' c',
    after (Combine.step (Combine.OnMember k m) w) =
      {| Combine.keys := Combine.keys w;
         Combine.stores := <[k := s']> (Combine.stores w);
         Combine.view := c' |} ∧
    Impl.current s' = next ∧
    Impl.listeners s' = Impl.listeners s ∧
    (∀ id, Combine.listening k id s → Combine.listening k id s') ∧
    c' = (if Combine.attached w && negb (bool_decide (Impl.current s = next))
          then Combine.on_member k next (Combine.view w)
          else Combine.view w).
Proof.
  intros (Hnd & Hdom & Href & Hatt) Hk Hm.
  rewrite (on_member_after k m w s Hk), Hm. cbv zeta.
  unfold Combine.attached.
  destruct (Combine.childUnsubs (Combine.view w)) as [handles|] eqn:Hch.
  - destruct Hatt as (Hne & Hall & Hhs).
    destruct (Hall k s Hk) as (id & Hin & Hl).
    rewrite (member_pass_listening k id s (Combine.view w) next Hl).
    destruct (decide (Impl.current s = next)) as [Heq|Hneq].
    + rewrite bool_decide_eq_true_2 by done. cbn.
      eexists _, _. split; [done|]. split_and!; [done..| |done].
      intros id' [Hl1 Hl2]. split; [done|]. cbn. by rewrite Hl2, Heq.
    + rewrite bool_decide_eq_false_2 by done. cbn.
      eexists _, _. split; [done|]. split_and!; [done| by destruct Hl | |done].
      intros id' [Hl1 Hl2]. destruct Hl as [Hl3 _].
      assert (id' = id) as -> by congruence.
      split; [done|]. cbn. apply lookup_insert_eq.
  - destruct Hatt as (Hemp & Hall).
    rewrite (member_pass_idle s (Combine.view w) next (Hall k s Hk)). cbn.
    eexists _, _. split; [done|]. split_and!; [done..| |done].
    intros id' [Hl1 _]. rewrite (Hall k s Hk) in Hl1. done.
Qed.

Lemma on_member_consistent k (m : Mutation V) w :
  Combine.consistent w →
  Combine.consistent (after (Combine.step (Combine.OnMember k m) w)).
Proof.
  intros Hw. destruct (Combine.stores w !! k) as [s|] eqn:Hk.
  - destruct (user_completion m (Impl.current s)) as [next|e] eqn:Hm.
    + destruct (on_member_effect k m w s next Hw Hk Hm)
        as (s' & c' & -> & Hcur & Hls & Hlis & ->).
      assert (Combine.ref (Combine.current (Combine.view w))
              < Combine.next_ref (Combine.view w))%nat as Href by apply Hw.
      destruct (on_member_spec k next (Combine.view w) Href) as (H1 & H2 & H3 & H4).
      apply (consistent_update k s); try done.
      * by destruct (_ && _).
      * by destruct (_ && _).
      * destruct (_ && _); [|done]. rewrite H1, H4. cbn. lia.
    + by rewrite (on_member_after k m w s Hk), Hm.
  - by rewrite on_member_missing.
Qed.

#[local] Instance same_values_preorder : PreOrder (Combine.same_values (V:=V)).
Proof.
  split.
  - by intros w.
  - intros w1 w2 w3 [Hk1 Hv1] [Hk2 Hv2]. split; [congruence|].
    intros k. by rewrite Hv2, Hv1.
Qed.

Lemma same_values_update k s s' c' w :
  Combine.stores w !! k = Some s →
  Impl.current s' = Impl.current s →
  Combine.same_values w {| Combine.keys := Combine.keys w;
                   Combine.stores := <[k := s']> (Combine.stores w);
                   Combine.view := c' |}.
Proof.
  intros Hk Hc. split; [done|]. intros j. cbn [Combine.stores].
  destruct (decide (k = j)) as [<-|Hne].
  - rewrite lookup_insert_eq, Hk. cbn. by rewrite Hc.
  - by rewrite lookup_insert_ne.
Qed.

(** [stores[k].subscribe(x => x, ...)] in [attach]. *)
Lemma member_subscribe_spec k w s :
  Combine.stores w !! k = Some s →
  Combine.member k
    (Impl.subscribe Combine.Object_is (λ x : V, x) (Combine.member_subscriber k) None) w
  = Run (Normal (Impl.fresh s))
        {| Combine.keys := Combine.keys w;
           Combine.stores :=
             <[k := Impl.set_listeners (Impl.set_add (Impl.fresh s) (Impl.listeners s))
                      (Impl.alloc_closure (Combine.member_listener k (Impl.current s)) s)]>
               (Combine.stores w);
           Combine.view := Combine.view w |}
        [].
Proof.
  intros Hk. unfold Combine.member. rewrite Hk.
  unfold Impl.subscribe, bind, get, ret, Impl.on_store, modify. cbn. done.
Qed.

(** The unsubscribe handle of member [k] in [detach]. *)
Lemma member_unsubscribe_spec k id w s :
  Combine.stores w !! k = Some s →
  Combine.member k (Impl.unsubscribe (R:=V) id) w
  = Run (Normal tt)
        {| Combine.keys := Combine.keys w;
           Combine.stores :=
             <[k := if decide (id ∈ Impl.listeners s)
                    then Impl.set_listeners (Impl.set_delete id (Impl.listeners s)) s
                    else s]> (Combine.stores w);
           Combine.view := Combine.view w |}
        [].
Proof.
  intros Hk. unfold Combine.member. rewrite Hk.
  unfold Impl.unsubscribe, bind, get, ret, Impl.on_store, modify. cbn.
  by destruct (decide (id ∈ Impl.listeners s)).
Qed.

Lemma attach_member_spec k w s :
  Combine.stores w !! k = Some s →
  Combine.attach_member k w
  = Run (Normal (k, Impl.fresh s))
        {| Combine.keys := Combine.keys w;
           Combine.stores :=
             <[k := Impl.set_listeners (Impl.set_add (Impl.fresh s) (Impl.listeners s))
                      (Impl.alloc_closure (Combine.member_listener k (Impl.current s)) s)]>
               (Combine.stores w);
           Combine.view := Combine.view w |}
        [].
Proof.
  intros Hk. unfold Combine.attach_member, bind.
  by rewrite (member_subscribe_spec k w s Hk).
Qed.

(** The loop of [attach] over keys whose stores nobody listens to. *)
Lemma attach_loop (ks : list string) w :
  NoDup ks →
  (∀ k, k ∈ ks → ∃ s, Combine.stores w !! k = Some s ∧ Impl.listeners s = []) →
  ∃ handles w',
    map_m Combine.attach_member ks w = Run (Normal handles) w' [] ∧
    Combine.same_values w w' ∧
    Combine.view w' = Combine.view w ∧
    (∀ k, k ∉ ks → Combine.stores w' !! k = Combine.stores w !! k) ∧
    (∀ k, k ∈ ks → ∃ id, (k, id) ∈ handles) ∧
    (∀ k id, (k, id) ∈ handles →
       k ∈ ks ∧ ∃ s', Combine.stores w' !! k = Some s' ∧ Combine.listening k id s').
Proof.
  revert w. induction ks as [|k ks IH]; intros w Hnd Hidle.
  { exists [], w. split_and!; try done.
    - intros k Hk. by apply elem_of_nil in Hk.
    - intros k id Hk. by apply elem_of_nil in Hk. }
  apply NoDup_cons in Hnd as [Hk Hnd].
  destruct (Hidle k) as (s & Hs & Hl); [by left|].
  pose proof (attach_member_spec k w s Hs) as Hone.
  set (s' := Impl.set_listeners (Impl.set_add (Impl.fresh s) (Impl.listeners s))
               (Impl.alloc_closure (Combine.member_listener k (Impl.current s)) s)) in *.
  set (w1 := {| Combine.keys := Combine.keys w;
                Combine.stores := <[k := s']> (Combine.stores w);
                Combine.view := Combine.view w |}) in *.
  assert (Combine.listening k (Impl.fresh s) s') as Hlis.
  { subst s'. unfold Combine.listening. cbn. rewrite Hl. split; [done|].
    apply lookup_insert_eq. }
  destruct (IH w1 Hnd) as (hs & w' & Hloop & Hval & Hview & Hother & Hcover & Hhs).
  { intros j Hj. destruct (Hidle j) as (sj & Hsj & Hlj); [by right|].
    exists sj. split; [|done]. cbn. rewrite lookup_insert_ne; [done|].
    intros ->. done. }
  exists ((k, Impl.fresh s) :: hs), w'. split_and!.
  - rewrite (map_m_cons_normal Combine.attach_member k ks w (k, Impl.fresh s) hs);
      rewrite Hone; cbn [outcome after trace]; rewrite ?Hloop; done.
  - etrans; [|exact Hval]. by apply (same_values_update k s).
  - by rewrite Hview.
  - intros j Hj. apply not_elem_of_cons in Hj as [Hjk Hj].
    rewrite Hother by done. cbn. by rewrite lookup_insert_ne.
  - intros j [->|Hj]%elem_of_cons.
    + exists (Impl.fresh s). by left.
    + destruct (Hcover j Hj) as [id Hid]. exists id. by right.
  - intros j id [[= -> ->]|Hj]%elem_of_cons.
    + split; [by left|]. exists s'. split; [|done].
      rewrite Hother by done. cbn. apply lookup_insert_eq.
    + destruct (Hhs j id Hj) as (Hin & sj & Hsj & Hlj). split; [by right|]. eauto.
Qed.

(** The loop of [detach] over handles of members that the composite
    listens to, or no longer does. *)
Lemma detach_loop (handles : list (string * nat)) w :
  (∀ k id, (k, id) ∈ handles →
     ∃ s, Combine.stores w !! k = Some s ∧
          (Impl.listeners s = [id] ∨ Impl.listeners s = [])) →
  (∀ k s, Combine.stores w !! k = Some s →
     Impl.listeners s = [] ∨ ∃ id, (k, id) ∈ handles) →
  ∃ w',
    for_each (λ u : string * nat, Combine.member u.1 (Impl.unsubscribe (R:=V) u.2))
      handles w = Run (Normal tt) w' [] ∧
    Combine.same_values w w' ∧
    Combine.view w' = Combine.view w ∧
    (∀ k s', Combine.stores w' !! k = Some s' → Impl.listeners s' = []).
Proof.
  revert w. induction handles as [|[k id] hs IH]; intros w Hhs Hall.
  { exists w. split_and!; try done.
    intros k s Hk. destruct (Hall k s Hk) as [|[id Hid]]; [done|].
    by apply elem_of_nil in Hid. }
  destruct (Hhs k id) as (s & Hs & Hl); [by left|].
  pose proof (member_unsubscribe_spec k id w s Hs) as Hone.
  set (s' := if decide (id ∈ Impl.listeners s)
             then Impl.set_listeners (Impl.set_delete id (Impl.listeners s)) s
             else s) in *.
  set (w1 := {| Combine.keys := Combine.keys w;
                Combine.stores := <[k := s']> (Combine.stores w);
                Combine.view := Combine.view w |}) in *.
  assert (Impl.listeners s' = [] ∧ Impl.current s' = Impl.current s) as [Hl' Hc'].
  { subst s'. destruct Hl as [Hl|Hl]; rewrite Hl.
    - rewrite decide_True by (by left). split; [|done].
      unfold Impl.set_listeners, Impl.set_delete. cbn [Impl.listeners].
      rewrite filter_cons, decide_False by (intros Hne; by apply Hne). done.
    - rewrite decide_False by (by intros ?%elem_of_nil). done. }
  destruct (IH w1) as (w' & Hloop & Hval & Hview & Hidle).
  { intros j idj Hj. destruct (decide (k = j)) as [<-|Hkj].
    - exists s'. cbn. rewrite lookup_insert_eq. split; [done|]. by right.
    - destruct (Hhs j idj) as (sj & Hsj & Hlj); [by right|].
      exists sj. cbn. by rewrite lookup_insert_ne. }
  { intros j sj. cbn. destruct (decide (k = j)) as [<-|Hkj].
    - rewrite lookup_insert_eq. intros [= <-]. by left.
    - rewrite lookup_insert_ne by done. intros Hj.
      destruct (Hall j sj Hj) as [|[idj [[= -> ->]|Hin]%elem_of_cons]]; [by left|done|].
      right. by exists idj. }
  exists w'. split_and!.
  - rewrite for_each_cons_normal; cbn [fst snd]; rewrite Hone; [|done].
    cbn [outcome after trace]. by rewrite Hloop.
  - etrans; [|exact Hval]. by apply (same_values_update k s).
  - by rewrite Hview.
  - done.
Qed.

Lemma same_values_dom w w' k :
  Combine.same_values w w' →
  is_Some (Combine.stores w' !! k) ↔ is_Some (Combine.stores w !! k).
Proof.
  intros [_ Hv]. specialize (Hv k). rewrite <- !fmap_is_Some with (f := Impl.current).
  by rewrite Hv.
Qed.


(** A change of the composite that keeps its subscription to the members
    and does not remove its last subscriber. *)
Lemma consistent_view c' w :
  Combine.consistent w →
  Combine.childUnsubs c' = Combine.childUnsubs (Combine.view w) →
  (Combine.subscribers (Combine.view w) = [] → Combine.subscribers c' = []) →
  (Combine.subscribers c' = [] → Combine.childUnsubs c' = None) →
  (Combine.ref (Combine.current c') < Combine.next_ref c')%nat →
  Combine.consistent
    {| Combine.keys := Combine.keys w; Combine.stores := Combine.stores w;
       Combine.view := c' |}.
Proof.
  intros (Hnd & Hdom & Href & Hatt) Hch Hsub Hsub' Href'.
  unfold Combine.consistent. cbn. rewrite Hch in *.
  split_and!; [done..|].
  destruct (Combine.childUnsubs (Combine.view w)) as [handles|].
  - destruct Hatt as (Hne & Hall & Hhs). split_and!; [|done..].
    intros Hemp. by specialize (Hsub' Hemp).
  - destruct Hatt as (Hemp & Hall). split; [by apply Hsub|done].
Qed.

Lemma attach_spec w :
  Combine.consistent w →
  Combine.childUnsubs (Combine.view w) = None →
  ∃ handles w1,
    Combine.attach w =
      Run (Normal tt)
          {| Combine.keys := Combine.keys w1; Combine.stores := Combine.stores w1;
             Combine.view := Combine.set_childUnsubs (Some handles) (Combine.view w) |} [] ∧
    Combine.same_values w w1 ∧
    (∀ k s, Combine.stores w1 !! k = Some s → ∃ id, (k, id) ∈ handles ∧ Combine.listening k id s) ∧
    (∀ k id, (k, id) ∈ handles → ∃ s, Combine.stores w1 !! k = Some s ∧ Combine.listening k id s).
Proof.
  intros (Hnd & Hdom & Href & Hatt) Hch. rewrite Hch in Hatt. destruct Hatt as [Hemp Hidle].
  destruct (attach_loop (Combine.keys w) w Hnd)
    as (handles & w1 & Hloop & Hval & Hview & Hother & Hcover & Hhs).
  { intros k [s Hs]%Hdom. exists s. split; [done|]. by apply (Hidle k). }
  exists handles, w1. split_and!.
  - unfold Combine.attach. unfold bind at 1. cbn. rewrite Hch.
    rewrite (bind_normal (map_m Combine.attach_member (Combine.keys w)) _ w handles)
      by (by rewrite Hloop).
    rewrite Hloop. cbn. by rewrite Hview.
  - done.
  - intros k s Hs.
    assert (k ∈ Combine.keys w) as Hk.
    { apply Hdom. apply (same_values_dom w w1 k Hval). eauto. }
    destruct (Hcover k Hk) as [id Hid]. exists id. split; [done|].
    destruct (Hhs k id Hid) as (_ & s' & Hs' & Hl). congruence.
  - intros k id Hid. by destruct (Hhs k id Hid) as (_ & s' & Hs' & Hl); eauto.
Qed.

(** [Combined.subscribe] once the members are subscribed to: the
    composite gets one more subscriber and nothing else changes. *)
Lemma subscribe_registers options w1 :
  ∃ c',
    (w' <- get;
     let prev := Combine.current (Combine.view w') in
     let id := Combine.fresh (Combine.view w') in
     (if default false (options ≫= fireImmediately)
      then Combine.on_view (V:=V) (Combine.deliver id prev) else ret tt) >>
     Combine.on_view
       (Combine.alloc_notifier
          {| Combine.n_eq := default Combine.same_object (options ≫= opt_eq);
             Combine.n_prev := prev |}) >>
     w'' <- get;
     Combine.on_view
       (Combine.set_subscribers (Combine.subscribers (Combine.view w'') ++ [id])) >>
     ret id) w1
    = Run (Normal (Combine.fresh (Combine.view w1)))
          {| Combine.keys := Combine.keys w1; Combine.stores := Combine.stores w1;
             Combine.view := c' |} [] ∧
    Combine.current c' = Combine.current (Combine.view w1) ∧
    Combine.childUnsubs c' = Combine.childUnsubs (Combine.view w1) ∧
    Combine.next_ref c' = Combine.next_ref (Combine.view w1) ∧
    Combine.subscribers c' ≠ [].
Proof.
  destruct (default false (options ≫= fireImmediately)).
  - eexists. split; [reflexivity|]. cbn. split_and!; try done. by intros [_ ?]%app_nil.
  - eexists. split; [reflexivity|]. cbn. split_and!; try done. by intros [_ ?]%app_nil.
Qed.

Lemma subscribe_after options w :
  Combine.consistent w →
  ∃ w1 c',
    after (Combine.step (Combine.Subscribe options) w) =
      {| Combine.keys := Combine.keys w1; Combine.stores := Combine.stores w1;
         Combine.view := c' |} ∧
    (if Combine.childUnsubs (Combine.view w) is None
     then Combine.attach w = Run (Normal tt) w1 []
     else w1 = w) ∧
    Combine.current c' = Combine.current (Combine.view w1) ∧
    Combine.childUnsubs c' = Combine.childUnsubs (Combine.view w1) ∧
    Combine.next_ref c' = Combine.next_ref (Combine.view w1) ∧
    Combine.subscribers c' ≠ [].
Proof.
  intros Hw.
  assert (∃ w1,
    (if Combine.childUnsubs (Combine.view w) is None then Combine.attach else ret tt) w
      = Run (Normal tt) w1 [] ∧
    (if Combine.childUnsubs (Combine.view w) is None
     then Combine.attach w = Run (Normal tt) w1 []
     else w1 = w)) as (w1 & Hfirst & Hw1).
  { destruct (Combine.childUnsubs (Combine.view w)) as [handles|] eqn:Hch.
    - by exists w.
    - destruct (attach_spec w Hw Hch) as (handles & w1 & Hatt & _). eauto. }
  destruct (subscribe_registers options w1) as (c' & Htail & Hc').
  exists w1, c'. split; [|done].
  cbn [Combine.step]. unfold Combine.subscribe.
  assert (Combine.subscribe options w =
          Run (Normal (Combine.fresh (Combine.view w1)))
              {| Combine.keys := Combine.keys w1; Combine.stores := Combine.stores w1;
                 Combine.view := c' |} []) as Hsub.
  { unfold Combine.subscribe. cbv zeta.
    rewrite (bind_run get _ w w w [] eq_refl). cbv beta.
    rewrite (bind_run _ _ w w1 tt [] Hfirst). cbv beta.
    cbv zeta in Htail. rewrite Htail. done. }
  fold (Combine.subscribe options). by rewrite (bind_run _ _ w _ _ _ Hsub).
Qed.

Lemma subscribe_step options w :
  Combine.consistent w →
  let w' := after (Combine.step (Combine.Subscribe options) w) in
  Combine.consistent w' ∧ Combine.same_values w w' ∧
  Combine.current (Combine.view w') = Combine.current (Combine.view w) ∧
  Combine.attached w' = true.
Proof.
  intros Hw. cbv zeta.
  destruct (subscribe_after options w Hw) as (w1 & c' & -> & Hw1 & Hcur & Hch' & Href & Hne).
  destruct (Combine.childUnsubs (Combine.view w)) as [handles|] eqn:Hch.
  - subst w1. unfold Combine.attached. cbn [Combine.view]. rewrite Hch', Hch.
    split_and!; [|done..].
    apply consistent_view; cbn [Combine.view]; [done | congruence | | done |].
    + intros Hemp. destruct Hw as (_ & _ & _ & Hatt). rewrite Hch in Hatt.
      by destruct Hatt as [Hsub _].
    + rewrite Hcur, Href. apply Hw.
  - destruct (attach_spec w Hw Hch) as (handles & w2 & Hatt & Hval & Hall & Hhs).
    rewrite Hatt in Hw1. injection Hw1 as <-.
    cbn [Combine.view Combine.keys Combine.stores] in *.
    unfold Combine.attached. cbn [Combine.view]. rewrite Hch'. cbn.
    split_and!; [|done..].
    destruct Hw as (Hnd & Hdom & Href0 & _). destruct Hval as [Hkeys Hv].
    unfold Combine.consistent. cbn [Combine.view Combine.keys Combine.stores].
    rewrite Hch', Hcur, Href, Hkeys. cbn. split_and!; try done.
    intros k. rewrite Hdom. symmetry. by apply (same_values_dom w w2).
Qed.

Lemma detach_spec handles w :
  Combine.childUnsubs (Combine.view w) = Some handles →
  (∀ k s, Combine.stores w !! k = Some s → ∃ id, (k, id) ∈ handles ∧ Combine.listening k id s) →
  (∀ k id, (k, id) ∈ handles → ∃ s, Combine.stores w !! k = Some s ∧ Combine.listening k id s) →
  ∃ w1,
    Combine.detach w =
      Run (Normal tt)
          {| Combine.keys := Combine.keys w1; Combine.stores := Combine.stores w1;
             Combine.view := Combine.set_childUnsubs None (Combine.view w) |} [] ∧
    Combine.same_values w w1 ∧
    (∀ k s, Combine.stores w1 !! k = Some s → Impl.listeners s = []).
Proof.
  intros Hch Hall Hhs.
  destruct (detach_loop handles w) as (w1 & Hloop & Hval & Hview & Hidle).
  { intros k id Hin. destruct (Hhs k id Hin) as (s & Hs & Hl & _). eauto. }
  { intros k s Hs. destruct (Hall k s Hs) as (id & Hin & _). eauto. }
  exists w1. split_and!; [|done..].
  unfold Combine.detach. rewrite (bind_run get _ w w w [] eq_refl). cbv beta.
  rewrite Hch. rewrite (bind_run _ _ w w1 tt [] Hloop).
  unfold Combine.on_view, modify. cbn [outcome after trace app]. by rewrite Hview.
Qed.

Lemma detach_detached w :
  Combine.childUnsubs (Combine.view w) = None →
  Combine.detach w = Run (Normal tt) w [].
Proof.
  intros Hch. unfold Combine.detach. rewrite (bind_run get _ w w w [] eq_refl).
  cbv beta. by rewrite Hch.
Qed.

Lemma unsubscribe_step id w :
  Combine.consistent w →
  let w' := after (Combine.step (Combine.Unsubscribe id) w) in
  Combine.consistent w' ∧ Combine.same_values w w' ∧
  Combine.current (Combine.view w') = Combine.current (Combine.view w).
Proof.
  intros Hw. cbv zeta. cbn [Combine.step]. unfold Combine.unsubscribe.
  set (c1 := match indexOf (Combine.subscribers (Combine.view w)) id with
             | Some idx =>
                 Combine.set_subscribers
                   (delete idx (Combine.subscribers (Combine.view w))) (Combine.view w)
             | None => Combine.view w
             end).
  set (w1 := {| Combine.keys := Combine.keys w; Combine.stores := Combine.stores w;
                Combine.view := c1 |}).
  assert (match indexOf (Combine.subscribers (Combine.view w)) id with
          | Some idx =>
              Combine.on_view (V:=V)
                (Combine.set_subscribers (delete idx (Combine.subscribers (Combine.view w))))
          | None => ret tt
          end w = Run (Normal tt) w1 []) as Hfirst.
  { subst w1 c1. destruct (indexOf _ _); [done|]. by destruct w. }
  rewrite (bind_run get _ w w w [] eq_refl). cbv beta.
  rewrite (bind_run _ _ w w1 tt [] Hfirst). cbv beta.
  rewrite (bind_run get _ w1 w1 w1 [] eq_refl). cbv beta.
  cbn [outcome after trace].
  assert (Combine.childUnsubs c1 = Combine.childUnsubs (Combine.view w) ∧
          Combine.current c1 = Combine.current (Combine.view w) ∧
          Combine.next_ref c1 = Combine.next_ref (Combine.view w) ∧
          (Combine.subscribers (Combine.view w) = [] → Combine.subscribers c1 = []))
    as (Hc1 & Hc2 & Hc3 & Hc4).
  { subst c1. destruct (indexOf _ _) eqn:Hi; [|done]. split_and!; try done.
    intros Hemp. rewrite Hemp in Hi. done. }
  assert (Combine.same_values w w1) as Hww1 by done.
  destruct (decide (length (Combine.subscribers (Combine.view w1)) = 0%nat)) as [Hlen|Hlen].
  - apply nil_length_inv in Hlen. cbn [Combine.view w1] in Hlen.
    destruct (Combine.childUnsubs (Combine.view w)) as [handles|] eqn:Hch.
    + destruct Hw as (Hnd & Hdom & Href & Hatt). rewrite Hch in Hatt.
      destruct Hatt as (Hne & Hall & Hhs).
      destruct (detach_spec handles w1) as (w2 & Hdet & Hval & Hidle); [done..|].
      rewrite Hdet. cbn [outcome after trace Combine.view w1].
      split_and!; [| by etrans | done].
      unfold Combine.consistent.
      cbn [Combine.view Combine.keys Combine.stores Combine.set_childUnsubs
           Combine.childUnsubs Combine.subscribers Combine.current Combine.next_ref].
      destruct Hval as [Hkeys Hv]. rewrite Hkeys, Hlen, Hc2, Hc3.
      split_and!; try done.
      intros k. cbn [w1 Combine.keys]. rewrite Hdom. symmetry.
      by apply (same_values_dom w1 w2).
    + rewrite (detach_detached w1) by done. cbn [outcome after trace Combine.view w1].
      split_and!; [|done..].
      apply consistent_view; [done | by rewrite Hch | done | done | ].
      rewrite Hc2, Hc3. apply Hw.
  - cbn [ret outcome after trace Combine.view w1]. split_and!; [|done..].
    apply consistent_view; [done | done | done | | rewrite Hc2, Hc3; apply Hw].
    intros Hemp. cbn [Combine.view w1] in Hlen. by rewrite Hemp in Hlen.
Qed.

Lemma step_consistent op w :
  Combine.consistent w → Combine.consistent (after (Combine.step op w)).
Proof.
  intros Hw. destruct op as [k m | | options | id].
  - by apply on_member_consistent.
  - done.
  - by apply subscribe_step.
  - by apply unsubscribe_step.
Qed.

Lemma exec_consistent ops w :
  Combine.consistent w → Combine.consistent (Combine.exec ops w).
Proof.
  revert w. induction ops as [|op ops IH]; intros w Hw; [done|].
  rewrite exec_cons. by apply IH, step_consistent.
Qed.

(** A composite over freshly created stores. *)
Lemma init_lookup (members : list (string * V)) k s :
  Combine.stores (Combine.init members) !! k = Some s →
  ∃ v, (k, v) ∈ members ∧ s = Impl.createStore v.
Proof.
  unfold Combine.init, Combine.combineStores. cbn [Combine.stores].
  intros Hk%elem_of_list_to_map_2.
  apply list_elem_of_fmap in Hk as ([k' v] & [= -> ->] & Hin). eauto.
Qed.


Lemma init_member (members : list (string * V)) k :
  k ∈ members.*1 ↔ is_Some (Combine.stores (Combine.init members) !! k).
Proof.
  unfold Combine.init, Combine.combineStores. cbn [Combine.stores]. split.
  - intros Hin.
    destruct (list_to_map (M:=gmap string cstore)
                (prod_map id Impl.createStore <$> members) !! k) as [s|] eqn:Hk; [eauto|].
    apply not_elem_of_list_to_map_2 in Hk. exfalso. apply Hk.
    apply list_elem_of_fmap in Hin as ([k' v] & -> & Hin).
    apply list_elem_of_fmap. exists (k', Impl.createStore v). split; [done|].
    apply list_elem_of_fmap. by exists (k', v).
  - intros [s Hs]. apply elem_of_list_to_map_2 in Hs.
    apply list_elem_of_fmap in Hs as ([k' v] & [= -> ->] & Hin).
    apply list_elem_of_fmap. by exists (k', v).
Qed.

Lemma init_consistent (members : list (string * V)) :
  NoDup members.*1 → Combine.consistent (Combine.init members).
Proof.
  intros Hnd. unfold Combine.consistent. split_and!.
  - done.
  - apply init_member.
  - cbn. lia.
  - cbn [Combine.init Combine.combineStores Combine.view Combine.childUnsubs
         Combine.subscribers].
    split; [done|]. intros k s Hs.
    by destruct (init_lookup members k s Hs) as (v & _ & ->).
Qed.


(** A step that is not a mutation of a member leaves the aggregate
    object and the members' values as they are. *)
Lemma quiet_step op w :
  Combine.consistent w →
  (if op is Combine.OnMember _ _ then False else True) →
  Combine.same_values w (after (Combine.step op w)) ∧
  Combine.current (Combine.view (after (Combine.step op w)))
    = Combine.current (Combine.view w).
Proof.
  intros Hw Hop. destruct op as [k m | | options | id]; [done | done | |].
  - by destruct (subscribe_step options w Hw) as (_ & ? & ? & _).
  - by destruct (unsubscribe_step id w Hw) as (_ & ? & ?).
Qed.



End CombineFacts.

(** * Further properties of the code

    The properties below hold of the code beyond the notification
    protocol stated above: subscriptions over the states a store
    reaches, derived views, serialization and hydration, persistence,
    middlewares and the devtools connection, and the lazy activation of
    the composite. *)

(** ** Calls that keep an invariant *)

Section RespectsFacts.
Context {W R : Type} (I : W → Prop) (Q : event R → Prop).

Lemma post_bind {A B} (m : M W R A) (k : A → M W R B) w :
  post I Q (m w) →
  (∀ a, outcome (m w) = Normal a → post I Q (k a (after (m w)))) →
  post I Q (bind m k w).
Proof.
  intros [Hi Ht] Hk. unfold bind.
  destruct (outcome (m w)) as [a|e]; cbn; [|done].
  destruct (Hk a eq_refl) as [Hi' Ht']. split; [done|]. by apply Forall_app.
Qed.

Lemma post_get {B} (k : W → M W R B) w :
  post I Q (k w w) → post I Q (bind get k w).
Proof. done. Qed.

Lemma post_modify {B} (f : W → W) (k : unit → M W R B) w :
  post I Q (k tt (f w)) → post I Q (bind (modify f) k w).
Proof. done. Qed.

Lemma post_tell {B} (evs : list (event R)) (k : unit → M W R B) w :
  Forall Q evs → post I Q (k tt w) → post I Q (bind (tell evs) k w).
Proof. intros Hq [Hi Ht]. split; [done|]. cbn. by apply Forall_app. Qed.

Lemma post_ret {A} (a : A) w : I w → post I Q (ret (R:=R) a w).
Proof. done. Qed.

Lemma respects_bind {A B} (m : M W R A) (k : A → M W R B) :
  respects I Q m → (∀ a, respects I Q (k a)) → respects I Q (bind m k).
Proof.
  intros Hm Hk w Hw. apply post_bind; [by apply Hm|].
  intros a _. apply Hk. by apply Hm.
Qed.

Lemma respects_for_each {A} (f : A → M W R unit) (l : list A) :
  (∀ x, x ∈ l → respects I Q (f x)) → respects I Q (for_each f l).
Proof.
  induction l as [|x l IH]; intros Hf; cbn.
  - by intros w Hw.
  - apply respects_bind; [apply Hf; left|]. intros _. apply IH.
    intros y Hy. apply Hf. by right.
Qed.

Lemma respects_script {A} (ms : list (M W R A)) :
  (∀ m, m ∈ ms → respects I Q m) → respects I Q (script ms).
Proof.
  induction ms as [|m ms IH]; intros Hms; cbn.
  - by intros w Hw.
  - apply respects_bind.
    + intros w Hw. apply Hms; [left|done].
    + intros c. apply respects_bind; [|by intros cs w Hw].
      apply IH. intros m' Hm'. apply Hms. by right.
Qed.

End RespectsFacts.

Lemma bind_get {W R B} (k : W → M W R B) (w : W) : bind get k w = k w w.
Proof. unfold bind, get. cbn. by destruct (k w w). Qed.

Lemma bind_run_quiet {W R A B} (m : M W R A) (k : A → M W R B) (w w1 : W) a r :
  m w = Run (Normal a) w1 [] → k a w1 = r → bind m k w = r.
Proof. intros Hm <-. unfold bind. rewrite Hm. cbn. by destruct (k a w1). Qed.

Lemma bind_run_then {W R A B} (m : M W R A) (k : A → M W R B) (w w1 w2 : W) a t o :
  m w = Run (Normal a) w1 t → k a w1 = Run o w2 [] → bind m k w = Run o w2 t.
Proof. intros Hm Hk. unfold bind. rewrite Hm. cbn. rewrite Hk. cbn. by rewrite app_nil_r. Qed.

Lemma bind_throws_run {W R A B} (m : M W R A) (k : A → M W R B) (w w1 : W) e t :
  m w = Run (Throws e) w1 t → bind m k w = Run (Throws e) w1 t.
Proof. intros Hm. unfold bind. by rewrite Hm. Qed.


(** ** The listeners of a store, over the states it reaches *)

Section ClosureInvariant.
Context {T R Env : Type}.
Abbreviation cworld := (@Closure.world T R Env).
Variable I : cworld → Prop.
Variable Q : event R → Prop.
Hypothesis I_env : ∀ s e e', I (s, e) → I (s, e').
Hypothesis I_remove : ∀ (w : cworld) ls',
  I w → ls' `sublist_of` Closure.listeners w.1 → I (Closure.set_listeners ls' w.1, w.2).
Hypothesis I_prev : ∀ (w : cworld) id l v,
  I w → Closure.closures w.1 !! id = Some l →
  I (Closure.set_closure id (with_prev v l) w.1, w.2).
Hypothesis I_commit : ∀ (w : cworld) v, I w → I (Closure.committed v w).
Hypothesis I_alloc : ∀ (w : cworld) sel eq sub,
  I w →
  I (Closure.set_listeners (Closure.listeners w.1 ++ [Closure.fresh w.1])
       (Closure.alloc_closure
          {| selector := sel; equality := eq; prev := sel (Closure.current w.1);
             subscriber := sub |} w.1), w.2).
Hypothesis Q_listener : ∀ (w : cworld) ev,
  I w → listener_of ev ∈ Closure.listeners w.1 → Q ev.
Hypothesis Q_fresh : ∀ (w : cworld) ev,
  I w → listener_of ev = Closure.fresh w.1 → Q ev.

Lemma closure_unsubscribe_respects id :
  respects I Q (Closure.unsubscribe (T:=T) (R:=R) (Env:=Env) id).
Proof.
  intros w Hw. unfold Closure.unsubscribe. apply post_get.
  destruct (indexOf (Closure.listeners w.1) id) as [idx|]; [|done].
  split; [|done]. apply I_remove; [done|]. apply sublist_delete.
Qed.

Lemma closure_call_subscriber_respects id sub v :
  (∀ ev, listener_of ev = id → Q ev) →
  respects I Q (Closure.call_subscriber (T:=T) (R:=R) (Env:=Env) id sub v).
Proof.
  intros Hq w Hw. unfold Closure.call_subscriber.
  apply post_tell; [repeat constructor; by apply Hq|].
  apply post_get. destruct (sub v w.2) as [env' handles].
  apply post_modify.
  apply respects_for_each; [intros x _; apply closure_unsubscribe_respects|].
  destruct w. by eapply I_env.
Qed.

Lemma closure_notify_respects id :
  (∀ ev, listener_of ev = id → Q ev) →
  respects I Q (Closure.notify (T:=T) (R:=R) (Env:=Env) id).
Proof.
  intros Hq w Hw. unfold Closure.notify.
  apply post_tell; [repeat constructor; by apply Hq|].
  apply post_get.
  destruct (Closure.closures w.1 !! id) as [l|] eqn:Hl; [|done].
  cbv zeta.
  destruct (equality l (prev l) (selector l (Closure.current w.1))); [done|].
  unfold Closure.on_store. apply post_modify.
  apply closure_call_subscriber_respects; [done|]. by apply I_prev.
Qed.

Lemma closure_iterate_respects fuel i :
  respects I Q (Closure.iterate (T:=T) (R:=R) (Env:=Env) fuel i).
Proof.
  revert i. induction fuel as [|fuel IH]; intros i w Hw; [done|].
  unfold Closure.iterate; fold (Closure.iterate (T:=T) (R:=R) (Env:=Env)).
  apply post_get.
  destruct (Closure.listeners w.1 !! i) as [id|] eqn:Hi; [|done].
  apply respects_bind; [|intros _; apply IH|done].
  apply closure_notify_respects. intros ev Hev. apply (Q_listener w); [done|].
  rewrite Hev. by eapply list_elem_of_lookup_2.
Qed.

Lemma closure_notifyListeners_respects :
  respects I Q (Closure.notifyListeners (T:=T) (R:=R) (Env:=Env)).
Proof.
  intros w Hw. unfold Closure.notifyListeners. apply post_get.
  by apply closure_iterate_respects.
Qed.

Lemma closure_mutate_respects (m : Mutation T) :
  respects I Q (Closure.mutate (R:=R) (Env:=Env) m).
Proof.
  intros w Hw. rewrite closure_mutate_spec.
  destruct (user_completion m (Closure.current w.1)) as [next|e]; [|done].
  apply (closure_notifyListeners_respects (Closure.committed next w)).
  by apply I_commit.
Qed.

Lemma closure_subscribe_respects (Object_is : R → R → bool) sel sub options :
  respects I Q (Closure.subscribe (T:=T) (Env:=Env) Object_is sel sub options).
Proof.
  intros w Hw. unfold Closure.subscribe. apply post_get. cbv zeta.
  apply post_bind.
  - destruct (default false (options ≫= fireImmediately)); [|done].
    apply closure_call_subscriber_respects; [|done].
    intros ev Hev. by apply (Q_fresh w).
  - intros [] _.
    set (w1 := after _).
    assert (I w1 ∧ Closure.fresh w1.1 = Closure.fresh w.1 ∧
            Closure.current w1.1 = Closure.current w.1) as (Hw1 & Hf & Hc).
    { subst w1. destruct (default false (options ≫= fireImmediately)); [|done].
      split.
      - apply closure_call_subscriber_respects; [|done].
        intros ev Hev. by apply (Q_fresh w).
      - by destruct (closure_core_keeps _ _
             (closure_call_subscriber_core (Closure.fresh w.1) sub
                (sel (Closure.current w.1)) w)) as (-> & _ & _ & ->). }
    clearbody w1. unfold Closure.on_store.
    apply post_modify, post_get, post_modify. cbn.
    split; [|done]. rewrite <- Hf, <- Hc. apply (I_alloc w1). done.
Qed.

Lemma closure_step_respects (Object_is : R → R → bool) (op : StoreOp T R Env) :
  respects I Q (Closure.step Object_is op).
Proof.
  destruct op as [m | | | P fn payload | sel sub options | id]; cbn.
  - apply respects_bind; [apply closure_mutate_respects|by intros ? ? ?].
  - by intros w Hw.
  - by intros w Hw.
  - intros w Hw. unfold Closure.effect. apply post_get.
    by destruct (fn _ _).
  - apply respects_bind; [apply closure_subscribe_respects|by intros ? ? ?].
  - apply closure_unsubscribe_respects.
Qed.

Lemma closure_script_respects (Object_is : R → R → bool) (ops : list (StoreOp T R Env)) :
  respects I Q (script (Closure.step Object_is <$> ops)).
Proof.
  apply respects_script. intros m (op & -> & _)%list_elem_of_fmap.
  apply closure_step_respects.
Qed.

End ClosureInvariant.

Section ImplInvariant.
Context {T R Env : Type}.
Abbreviation iworld := (@Impl.world T R Env).
Variable I : iworld → Prop.
Variable Q : event R → Prop.
Hypothesis I_env : ∀ s e e', I (s, e) → I (s, e').
Hypothesis I_remove : ∀ (w : iworld) ls',
  I w → ls' `sublist_of` Impl.listeners w.1 → I (Impl.set_listeners ls' w.1, w.2).
Hypothesis I_prev : ∀ (w : iworld) id l v,
  I w → Impl.closures w.1 !! id = Some l →
  I (Impl.set_closure id (with_prev v l) w.1, w.2).
Hypothesis I_commit : ∀ (w : iworld) v, I w → I (Impl.committed v w).
Hypothesis I_alloc : ∀ (w : iworld) sel eq sub,
  I w →
  I (Impl.set_listeners (Impl.set_add (Impl.fresh w.1) (Impl.listeners w.1))
       (Impl.alloc_closure
          {| selector := sel; equality := eq; prev := sel (Impl.current w.1);
             subscriber := sub |} w.1), w.2).
Hypothesis Q_listener : ∀ (w : iworld) ev,
  I w → listener_of ev ∈ Impl.listeners w.1 → Q ev.
Hypothesis Q_fresh : ∀ (w : iworld) ev,
  I w → listener_of ev = Impl.fresh w.1 → Q ev.

Lemma impl_unsubscribe_respects id :
  respects I Q (Impl.unsubscribe (T:=T) (R:=R) (Env:=Env) id).
Proof.
  intros w Hw. unfold Impl.unsubscribe. apply post_get.
  destruct (decide (id ∈ Impl.listeners w.1)); [|done].
  split; [|done]. apply I_remove; [done|]. apply sublist_filter.
Qed.

Lemma impl_call_subscriber_respects id sub v :
  (∀ ev, listener_of ev = id → Q ev) →
  respects I Q (Impl.call_subscriber (T:=T) (R:=R) (Env:=Env) id sub v).
Proof.
  intros Hq w Hw. unfold Impl.call_subscriber.
  apply post_tell; [repeat constructor; by apply Hq|].
  apply post_get. destruct (sub v w.2) as [env' handles].
  apply post_modify.
  apply respects_for_each; [intros x _; apply impl_unsubscribe_respects|].
  destruct w. by eapply I_env.
Qed.

Lemma impl_notify_respects id :
  (∀ ev, listener_of ev = id → Q ev) →
  respects I Q (Impl.notify (T:=T) (R:=R) (Env:=Env) id).
Proof.
  intros Hq w Hw. unfold Impl.notify.
  apply post_tell; [repeat constructor; by apply Hq|].
  apply post_get.
  destruct (Impl.closures w.1 !! id) as [l|] eqn:Hl; [|done].
  cbv zeta.
  destruct (equality l (prev l) (selector l (Impl.current w.1))); [done|].
  unfold Impl.on_store. apply post_modify.
  apply impl_call_subscriber_respects; [done|]. by apply I_prev.
Qed.

Lemma impl_notifyListeners_respects :
  respects I Q (Impl.notifyListeners (T:=T) (R:=R) (Env:=Env)).
Proof.
  intros w Hw. unfold Impl.notifyListeners. apply post_get.
  apply respects_for_each; [|done]. intros id Hid.
  apply impl_notify_respects. intros ev Hev. apply (Q_listener w); [done|].
  by rewrite Hev.
Qed.

Lemma impl_mutate_respects (m : Mutation T) :
  respects I Q (Impl.mutate (R:=R) (Env:=Env) m).
Proof.
  intros w Hw. rewrite impl_mutate_spec.
  destruct (user_completion m (Impl.current w.1)) as [next|e]; [|done].
  apply (impl_notifyListeners_respects (Impl.committed next w)).
  by apply I_commit.
Qed.

Lemma impl_subscribe_respects (Object_is : R → R → bool) sel sub options :
  respects I Q (Impl.subscribe (T:=T) (Env:=Env) Object_is sel sub options).
Proof.
  intros w Hw. unfold Impl.subscribe. apply post_get. cbv zeta.
  apply post_bind.
  - destruct (default false (options ≫= fireImmediately)); [|done].
    apply impl_call_subscriber_respects; [|done].
    intros ev Hev. by apply (Q_fresh w).
  - intros [] _.
    set (w1 := after _).
    assert (I w1 ∧ Impl.fresh w1.1 = Impl.fresh w.1 ∧
            Impl.current w1.1 = Impl.current w.1) as (Hw1 & Hf & Hc).
    { subst w1. destruct (default false (options ≫= fireImmediately)); [|done].
      split.
      - apply impl_call_subscriber_respects; [|done].
        intros ev Hev. by apply (Q_fresh w).
      - by destruct (impl_core_keeps _ _
             (impl_call_subscriber_core (Impl.fresh w.1) sub
                (sel (Impl.current w.1)) w)) as (-> & _ & _ & ->). }
    clearbody w1. unfold Impl.on_store.
    apply post_modify, post_get, post_modify. cbn.
    split; [|done]. rewrite <- Hf, <- Hc. apply (I_alloc w1). done.
Qed.

Lemma impl_step_respects (Object_is : R → R → bool) (op : StoreOp T R Env) :
  respects I Q (Impl.step Object_is op).
Proof.
  destruct op as [m | | | P fn payload | sel sub options | id]; cbn.
  - apply respects_bind; [apply impl_mutate_respects|by intros ? ? ?].
  - by intros w Hw.
  - by intros w Hw.
  - intros w Hw. unfold Impl.effect. apply post_get.
    by destruct (fn _ _).
  - apply respects_bind; [apply impl_subscribe_respects|by intros ? ? ?].
  - apply impl_unsubscribe_respects.
Qed.

Lemma impl_script_respects (Object_is : R → R → bool) (ops : list (StoreOp T R Env)) :
  respects I Q (script (Impl.step Object_is <$> ops)).
Proof.
  apply respects_script. intros m (op & -> & _)%list_elem_of_fmap.
  apply impl_step_respects.
Qed.

End ImplInvariant.

Lemma filter_all {A} (P : A → Prop) `{∀ x, Decision (P x)} (l : list A) :
  (∀ x, x ∈ l → P x) → filter P l = l.
Proof.
  induction l as [|x l IH]; intros Hl; [done|].
  rewrite filter_cons_True by (apply Hl; left). f_equal. apply IH.
  intros y Hy. apply Hl. by right.
Qed.

Lemma indexOf_splice (l : list nat) (x : nat) :
  NoDup l →
  match indexOf l x with Some idx => delete idx l | None => l end
  = filter (λ y, y ≠ x) l.
Proof.
  induction l as [|y l IH]; intros Hnd; [done|].
  apply NoDup_cons in Hnd as [Hy Hnd]. cbn [indexOf].
  destruct (decide (y = x)) as [->|Hne].
  - rewrite filter_cons_False by naive_solver. cbn.
    symmetry. apply filter_all. intros z Hz ->. done.
  - rewrite filter_cons_True by done. rewrite <- (IH Hnd).
    by destruct (indexOf l x).
Qed.

Lemma trace_silent {R} (id : nat) (tr : list (event R)) :
  Forall (λ ev, listener_of ev ≠ id) tr →
  (id ∉ notified tr) ∧ (id ∉ (fired tr).*1).
Proof.
  induction 1 as [|ev tr Hev _ [IH1 IH2]]; [split; apply not_elem_of_nil|].
  unfold notified, fired. destruct ev as [j|j v]; cbn in *.
  - split; [|done]. apply not_elem_of_cons. done.
  - split; [done|]. apply not_elem_of_cons. done.
Qed.

Section WellFormed.
Context {T R Env : Type}.

Lemma closure_wf_step (Object_is : R → R → bool) (op : StoreOp T R Env) :
  respects (@closure_wf T R Env) (λ _, True) (Closure.step Object_is op).
Proof.
  apply closure_step_respects; unfold closure_wf; cbn.
  - done.
  - intros w ls' (Hnd & Hc & Hf) Hsub. split_and!; [|intros id Hid; apply Hc|done].
    + by eapply sublist_NoDup.
    + by eapply elem_of_sublist.
  - intros w id l v (Hnd & Hc & Hf) Hl. split_and!; [done|..].
    + intros j Hj. apply lookup_insert_is_Some. destruct (decide (id = j)); auto.
    + intros j [Hj|[_ Hj]]%lookup_insert_is_Some; [subst j|]; auto.
  - done.
  - intros w sel eq sub (Hnd & Hc & Hf).
    assert (Closure.fresh w.1 ∉ Closure.listeners w.1) as Hfr.
    { intros Hin. specialize (Hf _ (Hc _ Hin)). lia. }
    split_and!.
    + apply NoDup_app. split_and!; [done| |apply NoDup_singleton].
      intros x Hx ->%list_elem_of_singleton. done.
    + intros j Hj. apply lookup_insert_is_Some.
      apply elem_of_app in Hj as [Hj| ->%list_elem_of_singleton]; [|by left].
      destruct (decide (Closure.fresh w.1 = j)); auto.
    + intros j [<-|[_ Hj]]%lookup_insert_is_Some; [lia|]. specialize (Hf _ Hj). lia.
  - done.
  - done.
Qed.

Lemma closure_wf_respects (Object_is : R → R → bool) (ops : list (StoreOp T R Env)) :
  respects (@closure_wf T R Env) (λ _, True) (script (Closure.step Object_is <$> ops)).
Proof.
  apply respects_script. intros m (op & -> & _)%list_elem_of_fmap.
  apply closure_wf_step.
Qed.

Lemma closure_reach_wf (Object_is : R → R → bool) (ops : list (StoreOp T R Env))
    (initial : T) (env : Env) :
  closure_wf (closure_reach Object_is ops initial env).
Proof.
  apply closure_wf_respects. unfold closure_wf; cbn. split_and!.
  - apply NoDup_nil_2.
  - intros id Hid. by apply elem_of_nil in Hid.
  - intros id [l Hl]. by rewrite lookup_empty in Hl.
Qed.

Lemma impl_wf_step (Object_is : R → R → bool) (op : StoreOp T R Env) :
  respects (@impl_wf T R Env) (λ _, True) (Impl.step Object_is op).
Proof.
  apply impl_step_respects; unfold impl_wf; cbn.
  - done.
  - intros w ls' (Hnd & Hc & Hf) Hsub. split_and!; [|intros id Hid; apply Hc|done].
    + by eapply sublist_NoDup.
    + by eapply elem_of_sublist.
  - intros w id l v (Hnd & Hc & Hf) Hl. split_and!; [done|..].
    + intros j Hj. apply lookup_insert_is_Some. destruct (decide (id = j)); auto.
    + intros j [Hj|[_ Hj]]%lookup_insert_is_Some; [subst j|]; auto.
  - done.
  - intros w sel eq sub (Hnd & Hc & Hf).
    assert (Impl.fresh w.1 ∉ Impl.listeners w.1) as Hfr.
    { intros Hin. specialize (Hf _ (Hc _ Hin)). lia. }
    unfold Impl.set_add. rewrite decide_False by done.
    split_and!.
    + apply NoDup_app. split_and!; [done| |apply NoDup_singleton].
      intros x Hx ->%list_elem_of_singleton. done.
    + intros j Hj. apply lookup_insert_is_Some.
      apply elem_of_app in Hj as [Hj| ->%list_elem_of_singleton]; [|by left].
      destruct (decide (Impl.fresh w.1 = j)); auto.
    + intros j [<-|[_ Hj]]%lookup_insert_is_Some; [lia|]. specialize (Hf _ Hj). lia.
  - done.
  - done.
Qed.

Lemma impl_wf_respects (Object_is : R → R → bool) (ops : list (StoreOp T R Env)) :
  respects (@impl_wf T R Env) (λ _, True) (script (Impl.step Object_is <$> ops)).
Proof.
  apply respects_script. intros m (op & -> & _)%list_elem_of_fmap.
  apply impl_wf_step.
Qed.

Lemma impl_reach_wf (Object_is : R → R → bool) (ops : list (StoreOp T R Env))
    (initial : T) (env : Env) :
  impl_wf (impl_reach Object_is ops initial env).
Proof.
  apply impl_wf_respects. unfold impl_wf; cbn. split_and!.
  - apply NoDup_nil_2.
  - intros id Hid. by apply elem_of_nil in Hid.
  - intros id [l Hl]. by rewrite lookup_empty in Hl.
Qed.

Lemma closure_gone_respects (Object_is : R → R → bool) (id : nat)
    (ops : list (StoreOp T R Env)) :
  respects (@closure_gone T R Env id) (λ ev, listener_of ev ≠ id)
    (script (Closure.step Object_is <$> ops)).
Proof.
  apply closure_script_respects; unfold closure_gone; cbn.
  - done.
  - intros w ls' [Hid Hf] Hsub. split; [|done]. intros Hin. apply Hid.
    by eapply elem_of_sublist.
  - done.
  - done.
  - intros w sel eq sub [Hid Hf]. split; [|lia].
    intros [?| ->%list_elem_of_singleton]%elem_of_app; [done|lia].
  - intros w ev [Hid Hf] Hin Heq. by rewrite Heq in Hin.
  - intros w ev [Hid Hf] Heq Heq'. lia.
Qed.

Lemma impl_gone_respects (Object_is : R → R → bool) (id : nat)
    (ops : list (StoreOp T R Env)) :
  respects (@impl_gone T R Env id) (λ ev, listener_of ev ≠ id)
    (script (Impl.step Object_is <$> ops)).
Proof.
  apply impl_script_respects; unfold impl_gone; cbn.
  - done.
  - intros w ls' [Hid Hf] Hsub. split; [|done]. intros Hin. apply Hid.
    by eapply elem_of_sublist.
  - done.
  - done.
  - intros w sel eq sub [Hid Hf]. split; [|lia]. unfold Impl.set_add.
    destruct (decide _); [done|].
    intros [?| ->%list_elem_of_singleton]%elem_of_app; [done|lia].
  - intros w ev [Hid Hf] Hin Heq. by rewrite Heq in Hin.
  - intros w ev [Hid Hf] Heq Heq'. lia.
Qed.

(** The unsubscribe handle of the closure based store removes its
    listener and nothing else. *)
Lemma closure_unsubscribe_spec id (w : @Closure.world T R Env) :
  NoDup (Closure.listeners w.1) →
  Closure.unsubscribe (R:=R) id w =
    Run (Normal tt)
        (Closure.set_listeners (filter (λ x, x ≠ id) (Closure.listeners w.1)) w.1, w.2) [].
Proof.
  intros Hnd. unfold Closure.unsubscribe, bind, get; cbn.
  rewrite <- (indexOf_splice _ id Hnd).
  destruct (indexOf (Closure.listeners w.1) id); cbn; [done|].
  by destruct w as [[] ?].
Qed.

Lemma impl_unsubscribe_spec id (w : @Impl.world T R Env) :
  Impl.unsubscribe (R:=R) id w =
    Run (Normal tt)
        (Impl.set_listeners (filter (λ x, x ≠ id) (Impl.listeners w.1)) w.1, w.2) [].
Proof.
  unfold Impl.unsubscribe, bind, get; cbn.
  destruct (decide (id ∈ Impl.listeners w.1)) as [Hin|Hin]; cbn; [done|].
  rewrite filter_all; [by destruct w as [[] ?]|].
  intros x Hx ->. done.
Qed.

(** X1. In a state that a store has reached, calling the unsubscribe
    handle of a listener removes that listener and no other from the
    registered ones, in their order, and calling the handle again
    changes nothing.  A listener that is not registered in a state that
    a store has reached, because the program has called its handle or
    because a subscriber has called it during an earlier call, is not
    notified and its subscriber is not called, whatever calls follow,
    and it stays unregistered; in both listings.  (The pass during which
    a subscriber calls the handle is another matter: [StoreImpl] goes on
    with the listeners it has started with, see C5.) *)
Theorem unsubscribed_listener_is_never_called
    (Object_is : R → R → bool) (pre ops : list (StoreOp T R Env))
    (initial : T) (env : Env) (id : nat) :
  let cw := closure_reach Object_is pre initial env in
  let iw := impl_reach Object_is pre initial env in
  (id < Closure.fresh cw.1)%nat →
  (id < Impl.fresh iw.1)%nat →
  (let cw' := after (Closure.unsubscribe (R:=R) id cw) in
   let r := script (Closure.step Object_is <$> ops) cw' in
   Closure.listeners cw'.1 = filter (λ x, x ≠ id) (Closure.listeners cw.1) ∧
   Closure.unsubscribe (R:=R) id cw' = Run (Normal tt) cw' [] ∧
   (id ∉ notified (trace r)) ∧ (id ∉ (fired (trace r)).*1) ∧
   (id ∉ Closure.listeners (after r).1)) ∧
  (let iw' := after (Impl.unsubscribe (R:=R) id iw) in
   let r := script (Impl.step Object_is <$> ops) iw' in
   Impl.listeners iw'.1 = filter (λ x, x ≠ id) (Impl.listeners iw.1) ∧
   Impl.unsubscribe (R:=R) id iw' = Run (Normal tt) iw' [] ∧
   (id ∉ notified (trace r)) ∧ (id ∉ (fired (trace r)).*1) ∧
   (id ∉ Impl.listeners (after r).1)) ∧
  (id ∉ Closure.listeners cw.1 →
   let r := script (Closure.step Object_is <$> ops) cw in
   (id ∉ notified (trace r)) ∧ (id ∉ (fired (trace r)).*1) ∧
   (id ∉ Closure.listeners (after r).1)) ∧
  (id ∉ Impl.listeners iw.1 →
   let r := script (Impl.step Object_is <$> ops) iw in
   (id ∉ notified (trace r)) ∧ (id ∉ (fired (trace r)).*1) ∧
   (id ∉ Impl.listeners (after r).1)).
Proof.
  intros cw iw Hc Hi. split_and!.
  - destruct (closure_reach_wf Object_is pre initial env) as (Hnd & _ & _).
    fold cw in Hnd. cbv zeta. rewrite (closure_unsubscribe_spec id cw Hnd). cbn [after].
    set (cw' := (Closure.set_listeners _ _, _)).
    assert (closure_gone id cw') as Hgone.
    { split; [|done]. cbn. intros [? _]%list_elem_of_filter. done. }
    destruct (closure_gone_respects Object_is id ops cw' Hgone) as [[Hl _] Htr].
    apply trace_silent in Htr as [Hn Hf].
    split_and!; [done| |done..].
    rewrite closure_unsubscribe_spec by (cbn; by apply NoDup_filter).
    cbn. by rewrite list_filter_filter_r.
  - cbv zeta. rewrite (impl_unsubscribe_spec id iw). cbn [after].
    set (iw' := (Impl.set_listeners _ _, _)).
    assert (impl_gone id iw') as Hgone.
    { split; [|done]. cbn. intros [? _]%list_elem_of_filter. done. }
    destruct (impl_gone_respects Object_is id ops iw' Hgone) as [[Hl _] Htr].
    apply trace_silent in Htr as [Hn Hf].
    split_and!; [done| |done..].
    rewrite impl_unsubscribe_spec.
    cbn. by rewrite list_filter_filter_r.
  - intros Hout. cbv zeta.
    destruct (closure_gone_respects Object_is id ops cw (conj Hout Hc)) as [[Hl _] Htr].
    by apply trace_silent in Htr as [Hn Hf].
  - intros Hout. cbv zeta.
    destruct (impl_gone_respects Object_is id ops iw (conj Hout Hi)) as [[Hl _] Htr].
    by apply trace_silent in Htr as [Hn Hf].
Qed.

End WellFormed.

Section Compose.
Context {T R Env : Type}.

Lemma closure_updates_fold (calls : list (ApplyCall T)) (v final : T)
    (w : @Closure.world T R Env) :
  fold_calls calls v = Normal final → Closure.current w.1 = v →
  let r := script (Closure.mutate (R:=R) <$> (MUpdate <$> calls)) w in
  Closure.current (after r).1 = final ∧
  Closure.version (after r).1 = Closure.version w.1 + Z.of_nat (length calls).
Proof.
  revert v w. induction calls as [|c calls IH]; intros v w Hf Hv; cbv zeta.
  - cbn in *. split; [congruence|lia].
  - cbn [fold_calls] in Hf. rewrite !fmap_cons, script_after.
    destruct (call_reducer c v (call_payload c)) as [v'|e] eqn:Hc; [|done].
    destruct (closure_mutate_normal (R:=R) (MUpdate c) v' w) as (_ & Hcur & Hver).
    { cbn. by rewrite Hv. }
    destruct (IH v' _ Hf Hcur) as [-> ->]. rewrite Hver. cbn [length]. split; [done|lia].
Qed.

Lemma impl_updates_fold (calls : list (ApplyCall T)) (v final : T)
    (w : @Impl.world T R Env) :
  fold_calls calls v = Normal final → Impl.current w.1 = v →
  let r := script (Impl.mutate (R:=R) <$> (MUpdate <$> calls)) w in
  Impl.current (after r).1 = final ∧
  Impl.version (after r).1 = Impl.version w.1 + Z.of_nat (length calls).
Proof.
  revert v w. induction calls as [|c calls IH]; intros v w Hf Hv; cbv zeta.
  - cbn in *. split; [congruence|lia].
  - cbn [fold_calls] in Hf. rewrite !fmap_cons, script_after.
    destruct (call_reducer c v (call_payload c)) as [v'|e] eqn:Hc; [|done].
    destruct (impl_mutate_normal (R:=R) (MUpdate c) v' w) as (_ & Hcur & Hver).
    { cbn. by rewrite Hv. }
    destruct (IH v' _ Hf Hcur) as [-> ->]. rewrite Hver. cbn [length]. split; [done|lia].
Qed.

(** X5. When the calls [apply(reducer_1, p_1)], ..., [apply(reducer_N, p_N)]
    all return, one [batch] that makes them leaves the value that the
    same calls made one after the other as [update]s leave, their left
    fold; the batch adds 1 to [version], the updates N; in both
    listings. *)
Theorem batch_agrees_with_sequential_updates
    (calls : list (ApplyCall T)) (v final : T) :
  fold_calls calls v = Normal final →
  (∀ cw : @Closure.world T R Env, Closure.current cw.1 = v →
     let rb := Closure.mutate (R:=R) (MBatch (callback_of calls)) cw in
     let rs := script (Closure.mutate (R:=R) <$> (MUpdate <$> calls)) cw in
     outcome rb = Normal final ∧
     Closure.current (after rb).1 = final ∧
     Closure.current (after rs).1 = final ∧
     Closure.version (after rb).1 = Closure.version cw.1 + 1 ∧
     Closure.version (after rs).1 = Closure.version cw.1 + Z.of_nat (length calls)) ∧
  (∀ iw : @Impl.world T R Env, Impl.current iw.1 = v →
     let rb := Impl.mutate (R:=R) (MBatch (callback_of calls)) iw in
     let rs := script (Impl.mutate (R:=R) <$> (MUpdate <$> calls)) iw in
     outcome rb = Normal final ∧
     Impl.current (after rb).1 = final ∧
     Impl.current (after rs).1 = final ∧
     Impl.version (after rb).1 = Impl.version iw.1 + 1 ∧
     Impl.version (after rs).1 = Impl.version iw.1 + Z.of_nat (length calls)).
Proof.
  intros Hf.
  assert (user_completion (MBatch (callback_of calls)) v = Normal final) as Hb.
  { cbn. by destruct (callback_of_calls calls v final Hf) as [_ ->]. }
  split.
  - intros cw Hv. cbv zeta. subst v.
    destruct (closure_mutate_normal (R:=R) _ final cw Hb) as (Ho & Hc & Hver).
    destruct (closure_updates_fold calls _ final cw Hf eq_refl) as [Hc' Hver'].
    done.
  - intros iw Hv. cbv zeta. subst v.
    destruct (impl_mutate_normal (R:=R) _ final iw Hb) as (Ho & Hc & Hver).
    destruct (impl_updates_fold calls _ final iw Hf eq_refl) as [Hc' Hver'].
    done.
Qed.

End Compose.

Section Subscribe.
Context {T R Env : Type}.

Abbreviation closure_core :=
  (λ w : @Closure.world T R Env,
     (Closure.current w.1, Closure.version w.1, Closure.closures w.1, Closure.fresh w.1)).
Abbreviation impl_core :=
  (λ w : @Impl.world T R Env,
     (Impl.current w.1, Impl.version w.1, Impl.closures w.1, Impl.fresh w.1)).

Lemma closure_call_subscriber_sublist id sub v (w : @Closure.world T R Env) :
  Closure.listeners (after (Closure.call_subscriber (R:=R) id sub v w)).1
    `sublist_of` Closure.listeners w.1.
Proof.
  refine (proj1 (closure_call_subscriber_respects
            (λ w', Closure.listeners w'.1 `sublist_of` Closure.listeners w.1) (λ _, True)
            _ _ id sub v _ w _)); cbn; try done.
  intros w' ls' Hw' Hls. by etrans.
Qed.

Lemma impl_call_subscriber_sublist id sub v (w : @Impl.world T R Env) :
  Impl.listeners (after (Impl.call_subscriber (R:=R) id sub v w)).1
    `sublist_of` Impl.listeners w.1.
Proof.
  refine (proj1 (impl_call_subscriber_respects
            (λ w', Impl.listeners w'.1 `sublist_of` Impl.listeners w.1) (λ _, True)
            _ _ id sub v _ w _)); cbn; try done.
  intros w' ls' Hw' Hls. by etrans.
Qed.

Lemma closure_subscribe_listeners (Object_is : R → R → bool) sel sub options
    (w : @Closure.world T R Env) :
  let r := Closure.subscribe Object_is sel sub options w in
  let fire := default false (options ≫= fireImmediately) in
  trace r = (if fire then [Fired (Closure.fresh w.1) (sel (Closure.current w.1))] else []) ∧
  Closure.fresh (after r).1 = S (Closure.fresh w.1) ∧
  ∃ ls, Closure.listeners (after r).1 = ls ++ [Closure.fresh w.1] ∧
        ls `sublist_of` Closure.listeners w.1 ∧
        (fire = false → ls = Closure.listeners w.1 ∧ (after r).2 = w.2).
Proof.
  cbv zeta. unfold Closure.subscribe. unfold bind at 1. cbn.
  set (first := if default false (options ≫= fireImmediately)
                then Closure.call_subscriber (Closure.fresh w.1) sub (sel (Closure.current w.1))
                else ret tt).
  assert (outcome (first w) = Normal tt ∧ keeps closure_core w (after (first w)) ∧
          trace (first w) =
            (if default false (options ≫= fireImmediately)
             then [Fired (Closure.fresh w.1) (sel (Closure.current w.1))] else []) ∧
          Closure.listeners (after (first w)).1 `sublist_of` Closure.listeners w.1 ∧
          (default false (options ≫= fireImmediately) = false → after (first w) = w))
    as (Hout & Hcore & Htr & Hsub & Hsame).
  { subst first. destruct (default false (options ≫= fireImmediately)).
    - split_and!.
      + apply returns_unit, closure_call_subscriber_returns.
      + apply closure_call_subscriber_core.
      + by rewrite closure_call_subscriber_trace.
      + apply closure_call_subscriber_sublist.
      + done.
    - done. }
  rewrite (bind_normal _ _ _ _ Hout).
  apply closure_core_keeps in Hcore as (Hcur & Hver & _ & Hf).
  revert Hcur Hver Hf Htr Hsub Hsame. generalize (after (first w)) (trace (first w)).
  intros w1 tr1 Hcur Hver Hf Htr Hsub Hsame.
  unfold bind, Closure.on_store, modify, get, ret. cbn. rewrite Hf.
  split_and!; [by rewrite Htr, app_nil_r | done |].
  exists (Closure.listeners w1.1). split_and!; [done..|].
  intros Hfire. by rewrite (Hsame Hfire).
Qed.

Lemma impl_subscribe_listeners (Object_is : R → R → bool) sel sub options
    (w : @Impl.world T R Env) :
  Impl.fresh w.1 ∉ Impl.listeners w.1 →
  let r := Impl.subscribe Object_is sel sub options w in
  let fire := default false (options ≫= fireImmediately) in
  trace r = (if fire then [Fired (Impl.fresh w.1) (sel (Impl.current w.1))] else []) ∧
  Impl.fresh (after r).1 = S (Impl.fresh w.1) ∧
  ∃ ls, Impl.listeners (after r).1 = ls ++ [Impl.fresh w.1] ∧
        ls `sublist_of` Impl.listeners w.1 ∧
        (fire = false → ls = Impl.listeners w.1 ∧ (after r).2 = w.2).
Proof.
  intros Hfresh. cbv zeta. unfold Impl.subscribe. unfold bind at 1. cbn.
  set (first := if default false (options ≫= fireImmediately)
                then Impl.call_subscriber (Impl.fresh w.1) sub (sel (Impl.current w.1))
                else ret tt).
  assert (outcome (first w) = Normal tt ∧ keeps impl_core w (after (first w)) ∧
          trace (first w) =
            (if default false (options ≫= fireImmediately)
             then [Fired (Impl.fresh w.1) (sel (Impl.current w.1))] else []) ∧
          Impl.listeners (after (first w)).1 `sublist_of` Impl.listeners w.1 ∧
          (default false (options ≫= fireImmediately) = false → after (first w) = w))
    as (Hout & Hcore & Htr & Hsub & Hsame).
  { subst first. destruct (default false (options ≫= fireImmediately)).
    - split_and!.
      + apply returns_unit, impl_call_subscriber_returns.
      + apply impl_call_subscriber_core.
      + by rewrite impl_call_subscriber_trace.
      + apply impl_call_subscriber_sublist.
      + done.
    - done. }
  rewrite (bind_normal _ _ _ _ Hout).
  apply impl_core_keeps in Hcore as (Hcur & Hver & _ & Hf).
  revert Hcur Hver Hf Htr Hsub Hsame. generalize (after (first w)) (trace (first w)).
  intros w1 tr1 Hcur Hver Hf Htr Hsub Hsame.
  unfold bind, Impl.on_store, modify, get, ret. cbn. rewrite Hf.
  split_and!; [by rewrite Htr, app_nil_r | done |].
  exists (Impl.listeners w1.1). split_and!; [|done|].
  - unfold Impl.set_add. rewrite decide_False; [done|].
    intros Hin. apply Hfresh. by eapply elem_of_sublist.
  - intros Hfire. by rewrite (Hsame Hfire).
Qed.

End Subscribe.

Section ClosurePass.
Context {T R Env : Type}.
Implicit Types w : @Closure.world T R Env.

Lemma closure_notify_run id w :
  (∀ l, Closure.closures w.1 !! id = Some l → calls_no_handle l) →
  Closure.notify (R:=R) id w =
    match Closure.closures w.1 !! id with
    | None => Run (Normal tt) w [Notified id]
    | Some l =>
        let next := selector l (Closure.current w.1) in
        if equality l (prev l) next then Run (Normal tt) w [Notified id]
        else Run (Normal tt)
               (Closure.set_closure id (with_prev next l) w.1, (subscriber l next w.2).1)
               [Notified id; Fired id next]
    end.
Proof.
  intros Hq. unfold Closure.notify.
  unfold bind at 1. cbn. unfold bind at 1. cbn.
  destruct (Closure.closures w.1 !! id) as [l|] eqn:Hl; [|done].
  specialize (Hq l eq_refl).
  destruct (equality l (prev l) (selector l (Closure.current w.1))); [done|].
  unfold bind, Closure.on_store, modify, Closure.call_subscriber, tell, get. cbn.
  pose proof (Hq (selector l (Closure.current w.1)) w.2) as Hh.
  destruct (subscriber l (selector l (Closure.current w.1)) w.2) as [env' handles].
  cbn in Hh. subst handles. done.
Qed.

Lemma closure_notify_quiet id w :
  (∀ l, Closure.closures w.1 !! id = Some l → calls_no_handle l) →
  let r := Closure.notify (R:=R) id w in
  outcome r = Normal tt ∧
  Closure.listeners (after r).1 = Closure.listeners w.1 ∧
  Closure.current (after r).1 = Closure.current w.1 ∧
  (∀ j, j ≠ id → Closure.closures (after r).1 !! j = Closure.closures w.1 !! j) ∧
  (∀ l, Closure.closures w.1 !! id = Some l →
        ∃ l', Closure.closures (after r).1 !! id = Some l' ∧ subscriber l' = subscriber l) ∧
  notified (trace r) = [id] ∧
  fired (trace r) = option_list (closure_selection_change w id).
Proof.
  intros Hq. cbv zeta. rewrite (closure_notify_run id w Hq).
  unfold closure_selection_change.
  destruct (Closure.closures w.1 !! id) as [l|] eqn:Hl; cbn; [|done].
  destruct (equality l (prev l) (selector l (Closure.current w.1))); cbn.
  { split_and!; try done. intros l' [= <-]. by exists l. }
  split_and!; try done.
  - intros j Hj. by rewrite lookup_insert_ne.
  - intros l' [= <-]. eexists. split; [apply lookup_insert_eq|done].
Qed.

Lemma NoDup_lookup_drop {A} (l : list A) (i : nat) (x : A) :
  NoDup l → l !! i = Some x → x ∉ drop (S i) l.
Proof.
  intros Hnd Hi. rewrite <- (take_drop_middle l i x Hi) in Hnd.
  apply NoDup_app in Hnd as (_ & _ & Hnd). by apply NoDup_cons in Hnd as [? _].
Qed.

Lemma closure_selection_change_ext w w' (ids : list nat) :
  Closure.current w'.1 = Closure.current w.1 →
  (∀ j, j ∈ ids → Closure.closures w'.1 !! j = Closure.closures w.1 !! j) →
  omap (closure_selection_change w') ids = omap (closure_selection_change w) ids.
Proof.
  intros Hcur. induction ids as [|j js IH]; intros Hcl; [done|].
  cbn [omap list_omap]. rewrite IH by (intros k Hk; apply Hcl; by right).
  unfold closure_selection_change at 1 3. rewrite Hcur, (Hcl j) by left. done.
Qed.

Lemma closure_iterate_quiet (fuel i : nat) w :
  NoDup (Closure.listeners w.1) →
  (∀ id l, id ∈ Closure.listeners w.1 → Closure.closures w.1 !! id = Some l →
           calls_no_handle l) →
  (length (Closure.listeners w.1) < i + fuel)%nat →
  let r := Closure.iterate (R:=R) fuel i w in
  notified (trace r) = drop i (Closure.listeners w.1) ∧
  fired (trace r) = omap (closure_selection_change w) (drop i (Closure.listeners w.1)) ∧
  Closure.listeners (after r).1 = Closure.listeners w.1.
Proof.
  revert i w. induction fuel as [|fuel IH]; intros i w Hnd Hq Hlen; cbv zeta.
  { rewrite drop_ge by lia. done. }
  destruct (Closure.listeners w.1 !! i) as [id|] eqn:Hi.
  2:{ assert (Closure.iterate (R:=R) (S fuel) i w = Run (Normal tt) w []) as ->.
      { unfold Closure.iterate; fold (Closure.iterate (T:=T) (R:=R) (Env:=Env)).
        unfold bind at 1. cbn. by rewrite Hi. }
      apply lookup_ge_None in Hi. rewrite drop_ge by lia. done. }
  assert (Closure.iterate (R:=R) (S fuel) i w
          = bind (Closure.notify id) (λ _, Closure.iterate fuel (S i)) w) as ->.
  { unfold Closure.iterate; fold (Closure.iterate (T:=T) (R:=R) (Env:=Env)).
    unfold bind at 1. cbn [get outcome after trace app]. rewrite Hi.
    by destruct (bind _ _ w). }
  pose proof (list_elem_of_lookup_2 _ _ _ Hi) as Hin.
  destruct (closure_notify_quiet id w (λ l, Hq id l Hin))
    as (Hout & Hls & Hcur & Hother & Hsame & Hn & Hf).
  rewrite !(bind_normal _ _ _ _ Hout). cbn [trace after outcome].
  destruct (IH (S i) (after (Closure.notify (R:=R) id w))) as (IHn & IHf & IHl).
  { by rewrite Hls. }
  { rewrite Hls. intros j l Hj Hl. destruct (decide (j = id)) as [->|Hne].
    - destruct (Closure.closures w.1 !! id) as [l0|] eqn:Hl0.
      + destruct (Hsame l0 eq_refl) as (l' & Hl' & Hsub).
        rewrite Hl in Hl'. injection Hl' as ->.
        intros v env. rewrite Hsub. by apply (Hq id l0).
      + rewrite (closure_notify_run id w (λ l, Hq id l Hin)), Hl0 in Hl. cbn in Hl.
        by rewrite Hl0 in Hl.
    - rewrite (Hother j Hne) in Hl. by apply (Hq j l). }
  { rewrite Hls. lia. }
  rewrite Hls in *. rewrite (drop_S _ _ _ Hi).
  unfold notified, fired in *. rewrite !omap_app, Hn, Hf, IHn, IHf.
  split_and!; [done| |done].
  cbn [omap list_omap].
  assert (omap (closure_selection_change (after (Closure.notify (R:=R) id w)))
            (drop (S i) (Closure.listeners w.1))
          = omap (closure_selection_change w) (drop (S i) (Closure.listeners w.1))) as ->.
  { apply closure_selection_change_ext; [done|].
    intros j Hj. apply Hother. intros ->.
    by apply (NoDup_lookup_drop _ _ _ Hnd Hi). }
  by destruct (closure_selection_change w id).
Qed.

Lemma closure_selection_change_fst w j (c : nat * R) :
  closure_selection_change w j = Some c → c.1 = j.
Proof.
  unfold closure_selection_change. destruct (Closure.closures w.1 !! j) as [l|]; [|done].
  cbn. destruct (equality _ _ _); [done|]. by intros [= <-].
Qed.

Lemma calls_of_closure_selection_change w id (ids : list nat) :
  NoDup ids → id ∈ ids →
  calls_of id (omap (closure_selection_change w) ids)
  = (option_list (closure_selection_change w id)).*2.
Proof.
  assert (∀ ids, id ∉ ids → calls_of id (omap (closure_selection_change w) ids) = []) as Hno.
  { clear. induction ids as [|j ids IH]; intros Hid; [done|].
    apply not_elem_of_cons in Hid as [Hj Hid]. cbn [omap list_omap].
    destruct (closure_selection_change w j) as [c|] eqn:Hc; [|by apply IH].
    apply closure_selection_change_fst in Hc.
    unfold calls_of. rewrite filter_cons_False by congruence. by apply IH. }
  induction ids as [|j ids IH]; intros Hnd Hin; [by apply elem_of_nil in Hin|].
  apply NoDup_cons in Hnd as [Hj Hnd]. cbn [omap list_omap].
  destruct (decide (id = j)) as [->|Hne].
  - destruct (closure_selection_change w j) as [c|] eqn:Hc; [|by apply Hno].
    apply closure_selection_change_fst in Hc.
    unfold calls_of. rewrite filter_cons_True by done. cbn. f_equal. by apply Hno.
  - apply elem_of_cons in Hin as [?|Hin]; [done|].
    destruct (closure_selection_change w j) as [c|] eqn:Hc; [|by apply IH].
    apply closure_selection_change_fst in Hc.
    unfold calls_of. rewrite filter_cons_False by congruence. by apply IH.
Qed.

(** X3. When no subscriber of a registered listener calls an
    unsubscribe handle, a successful mutation of the closure based store
    calls every listener that was registered before it, in registration
    order and none twice; it calls the subscriber of such a listener
    exactly when its equality is false of [prev] and the new selection,
    once, with the new selection; and the listeners that were registered
    before it are still registered after it. *)
Theorem closure_pass_complete_without_unsubscribe (m : Mutation T) (next : T) w :
  NoDup (Closure.listeners w.1) →
  (∀ id l, id ∈ Closure.listeners w.1 → Closure.closures w.1 !! id = Some l →
           calls_no_handle l) →
  user_completion m (Closure.current w.1) = Normal next →
  let r := Closure.mutate (R:=R) m w in
  Closure.listeners w.1 `sublist_of` notified (trace r) ∧
  NoDup (notified (trace r)) ∧
  (∀ id, id ∈ Closure.listeners w.1 →
     calls_of id (fired (trace r))
     = (option_list (closure_selection_change (Closure.committed next w) id)).*2) ∧
  Closure.listeners w.1 `sublist_of` Closure.listeners (after r).1.
Proof.
  intros Hnd Hq Hm. cbv zeta. rewrite closure_mutate_spec, Hm. cbn [trace after].
  unfold Closure.notifyListeners. rewrite bind_get.
  set (r := Closure.iterate _ 0 _).
  assert (notified (trace r) = Closure.listeners w.1 ∧
          fired (trace r)
            = omap (closure_selection_change (Closure.committed next w))
                (Closure.listeners w.1) ∧
          Closure.listeners (after r).1 = Closure.listeners w.1) as (Hn & Hf & Hl).
  { apply (closure_iterate_quiet (S (length (Closure.listeners w.1))) 0
             (Closure.committed next w)); [done..|cbn; lia]. }
  cbn [app]. rewrite Hn, Hf, Hl. split_and!; [done|done| |done].
  intros id Hid. by apply calls_of_closure_selection_change.
Qed.

End ClosurePass.

Lemma sublist_drop_mono {A} (l1 l2 : list A) (n : nat) :
  l1 `sublist_of` l2 → drop n l1 `sublist_of` drop n l2.
Proof.
  intros Hsub. revert n. induction Hsub as [|x l1 l2 Hsub IH|x l1 l2 Hsub IH]; intros n.
  - by rewrite drop_nil.
  - destruct n as [|n]; cbn; [by constructor|]. apply IH.
  - destruct n as [|n]; cbn; [by constructor|].
    etrans; [|apply IH]. clear. revert n. induction l1 as [|y l1 IHl]; intros n.
    + by rewrite !drop_nil.
    + destruct n as [|n]; cbn; [by constructor|]. apply IHl.
Qed.

Section ClosureOnce.
Context {T R Env : Type}.
Implicit Types w : @Closure.world T R Env.

Lemma closure_notify_trace id w :
  trace (Closure.notify (R:=R) id w) = [Notified id] ∨
  ∃ v, trace (Closure.notify (R:=R) id w) = [Notified id; Fired id v].
Proof.
  unfold Closure.notify. unfold bind at 1 2. cbn. unfold bind at 1 2. cbn.
  destruct (Closure.closures w.1 !! id) as [l|]; [|by left].
  destruct (equality l (prev l) (selector l (Closure.current w.1))); [by left|].
  right. eexists. unfold bind, Closure.on_store, modify. cbn.
  by rewrite closure_call_subscriber_trace.
Qed.

Lemma closure_notify_sublist id w :
  Closure.listeners (after (Closure.notify (R:=R) id w)).1 `sublist_of` Closure.listeners w.1.
Proof.
  refine (proj1 (closure_notify_respects
            (λ w', Closure.listeners w'.1 `sublist_of` Closure.listeners w.1) (λ _, True)
            _ _ _ id _ w _)); cbn; try done.
  intros w' ls' Hw' Hls. by etrans.
Qed.

Lemma closure_iterate_sublist (fuel i : nat) w :
  notified (trace (Closure.iterate (R:=R) fuel i w))
    `sublist_of` drop i (Closure.listeners w.1) ∧
  (fired (trace (Closure.iterate (R:=R) fuel i w))).*1
    `sublist_of` notified (trace (Closure.iterate (R:=R) fuel i w)) ∧
  Closure.listeners (after (Closure.iterate (R:=R) fuel i w)).1
    `sublist_of` Closure.listeners w.1.
Proof.
  revert i w. induction fuel as [|fuel IH]; intros i w.
  { split_and!; [apply sublist_nil_l|done|done]. }
  destruct (Closure.listeners w.1 !! i) as [id|] eqn:Hi.
  2:{ assert (Closure.iterate (R:=R) (S fuel) i w = Run (Normal tt) w []) as ->.
      { unfold Closure.iterate; fold (Closure.iterate (T:=T) (R:=R) (Env:=Env)).
        unfold bind at 1. cbn. by rewrite Hi. }
      split_and!; [apply sublist_nil_l|done|done]. }
  assert (Closure.iterate (R:=R) (S fuel) i w
          = bind (Closure.notify id) (λ _, Closure.iterate fuel (S i)) w) as ->.
  { unfold Closure.iterate; fold (Closure.iterate (T:=T) (R:=R) (Env:=Env)).
    unfold bind at 1. cbn [get outcome after trace app]. rewrite Hi.
    by destruct (bind _ _ w). }
  rewrite (bind_normal _ _ _ _ (returns_unit _ _ (closure_notify_returns id))).
  cbn [trace after].
  destruct (IH (S i) (after (Closure.notify (R:=R) id w))) as (IHn & IHf & IHl).
  pose proof (closure_notify_sublist id w) as Hsub.
  assert (notified (trace (Closure.notify (R:=R) id w)) = [id] ∧
          (fired (trace (Closure.notify (R:=R) id w))).*1 `sublist_of` [id]) as [Hn Hf].
  { destruct (closure_notify_trace id w) as [->|[v ->]]; cbn; [|done].
    split; [done|apply sublist_nil_l]. }
  unfold notified, fired in *. rewrite !omap_app, fmap_app, Hn.
  split_and!; [| |by etrans].
  - rewrite (drop_S _ _ _ Hi). cbn [app]. constructor.
    etrans; [apply IHn|]. by apply sublist_drop_mono.
  - by apply sublist_app.
Qed.

(** X18. In any state that the closure based store has reached, a
    mutation calls no listener twice, and calls the listeners that were
    registered before it in registration order, whatever unsubscribe
    handles the subscribers call. *)
Theorem closure_pass_calls_registered_listeners_at_most_once
    (Object_is : R → R → bool) (pre : list (StoreOp T R Env)) (initial : T) (env : Env)
    (m : Mutation T) :
  let w := closure_reach Object_is pre initial env in
  let r := Closure.mutate (R:=R) m w in
  NoDup (notified (trace r)) ∧
  filter (λ id, id ∈ Closure.listeners w.1) (notified (trace r))
    `sublist_of` Closure.listeners w.1.
Proof.
  intros w r.
  destruct (closure_reach_wf Object_is pre initial env) as (Hnd & _). fold w in Hnd.
  assert (notified (trace r) `sublist_of` Closure.listeners w.1) as Hn.
  { subst r. rewrite closure_mutate_spec.
    destruct (user_completion m (Closure.current w.1)) as [next|e]; cbn [trace after].
    - unfold Closure.notifyListeners. rewrite bind_get.
      apply (closure_iterate_sublist _ 0 (Closure.committed next w)).
    - apply sublist_nil_l. }
  split; [by eapply sublist_NoDup|].
  etrans; [apply sublist_filter|done].
Qed.

End ClosureOnce.

(** ** The batch and its notification pass *)

Section ClosurePassShape.
Context {T R Env : Type}.
Implicit Types w : @Closure.world T R Env.

(** A pass of the closure based store starts with the first listener of
    the array. *)
Lemma closure_pass_head w id ids :
  Closure.listeners w.1 = id :: ids →
  ∃ tr, trace (Closure.notifyListeners (R:=R) w) = Notified id :: tr.
Proof.
  intros Hl. unfold Closure.notifyListeners. rewrite bind_get.
  assert (Closure.iterate (R:=R) (S (length (Closure.listeners w.1))) 0 w
          = bind (Closure.notify id) (λ _, Closure.iterate (length (Closure.listeners w.1)) 1) w)
    as ->.
  { unfold Closure.iterate; fold (Closure.iterate (T:=T) (R:=R) (Env:=Env)).
    unfold bind at 1. cbn [get outcome after trace app]. rewrite Hl. cbn [lookup list_lookup].
    by destruct (bind _ _ w). }
  rewrite (bind_normal _ _ _ _ (returns_unit _ _ (closure_notify_returns id))).
  cbn [trace]. destruct (closure_notify_trace id w) as [->|[v ->]]; eauto.
Qed.

(** It calls no listener twice, and none that was not registered. *)
Lemma closure_pass_once w :
  NoDup (Closure.listeners w.1) →
  notified (trace (Closure.notifyListeners (R:=R) w)) `sublist_of` Closure.listeners w.1 ∧
  NoDup (notified (trace (Closure.notifyListeners (R:=R) w))).
Proof.
  intros Hnd. unfold Closure.notifyListeners. rewrite bind_get.
  destruct (closure_iterate_sublist (S (length (Closure.listeners w.1))) 0 w) as (Hn & _).
  split; [done|]. by eapply sublist_NoDup.
Qed.

(** When no subscriber calls an unsubscribe handle, it calls every
    listener. *)
Lemma closure_pass_quiet w :
  NoDup (Closure.listeners w.1) →
  (∀ id l, id ∈ Closure.listeners w.1 → Closure.closures w.1 !! id = Some l →
           calls_no_handle l) →
  let r := Closure.notifyListeners (R:=R) w in
  notified (trace r) = Closure.listeners w.1 ∧
  fired (trace r) = omap (closure_selection_change w) (Closure.listeners w.1) ∧
  Closure.listeners (after r).1 = Closure.listeners w.1.
Proof.
  intros Hnd Hq. cbv zeta. unfold Closure.notifyListeners. rewrite bind_get.
  apply (closure_iterate_quiet (S (length (Closure.listeners w.1))) 0 w); [done..|lia].
Qed.

End ClosurePassShape.

Section BatchClaim.
Context {T R Env : Type}.
Implicit Types cw : @Closure.world T R Env.
Implicit Types iw : @Impl.world T R Env.

(** C2. A batch callback that returns normally after making the calls
    [apply(reducer_1, p_1)], ..., [apply(reducer_N, p_N)] sets the value
    to their left fold over the value before, increments [version] by
    exactly 1 and runs exactly one notification pass, over the state
    holding the folded value, whatever N.  In the closure based store
    that pass calls the first registered listener first and no listener
    twice, and it calls every registered listener, in registration
    order, when no subscriber calls an unsubscribe handle; in
    [StoreImpl] it calls each registered listener once.  (The listeners
    of a state that a store has reached are distinct.) *)
Theorem batch_publishes_fold_once
    (apply : BatchCallback T) (v final : T) :
  (run_callback apply v).1 = Normal tt →
  fold_calls (callback_calls apply v) v = Normal final →
  (∀ cw, Closure.current cw.1 = v →
     let r := Closure.batch (R:=R) apply cw in
     let pass := Closure.notifyListeners (R:=R) (Closure.committed final cw) in
     outcome r = Normal final ∧
     Closure.current (after r).1 = final ∧
     Closure.version (after r).1 = Closure.version cw.1 + 1 ∧
     after r = after pass ∧ trace r = trace pass ∧
     (∀ id ids, Closure.listeners cw.1 = id :: ids → ∃ tr, trace r = Notified id :: tr) ∧
     (NoDup (Closure.listeners cw.1) → NoDup (notified (trace r))) ∧
     (NoDup (Closure.listeners cw.1) →
      (∀ id l, id ∈ Closure.listeners cw.1 → Closure.closures cw.1 !! id = Some l →
               calls_no_handle l) →
      Closure.listeners cw.1 `sublist_of` notified (trace r))) ∧
  (∀ iw, Impl.current iw.1 = v →
     let r := Impl.batch (R:=R) apply iw in
     let pass := Impl.notifyListeners (R:=R) (Impl.committed final iw) in
     outcome r = Normal final ∧
     Impl.current (after r).1 = final ∧
     Impl.version (after r).1 = Impl.version iw.1 + 1 ∧
     after r = after pass ∧ trace r = trace pass ∧
     notified (trace r) = Impl.listeners iw.1).
Proof.
  intros Hret Hfold.
  assert (user_completion (MBatch apply) v = Normal final) as Hm.
  { cbn. pose proof (run_callback_fold apply v final Hfold) as Hn.
    destruct (run_callback apply v) as [c next]. cbn in *. by subst. }
  split.
  - intros cw <-. cbv zeta.
    change (Closure.batch apply cw) with (Closure.mutate (R:=R) (MBatch apply) cw).
    destruct (closure_mutate_normal (R:=R) (MBatch apply) final cw Hm) as (Ho & Hc & Hv).
    pose proof (closure_mutate_spec (R:=R) (MBatch apply) cw) as Hs.
    rewrite Hm in Hs.
    assert (trace (Closure.mutate (R:=R) (MBatch apply) cw)
            = trace (Closure.notifyListeners (R:=R) (Closure.committed final cw))) as Htr
      by (by rewrite Hs).
    split_and!; [done..| by rewrite Hs | done | | |].
    + intros id ids Hl. rewrite Htr.
      by apply (closure_pass_head (Closure.committed final cw) id ids).
    + intros Hnd. rewrite Htr.
      by apply (closure_pass_once (Closure.committed final cw)).
    + intros Hnd Hq. rewrite Htr.
      destruct (closure_pass_quiet (Closure.committed final cw) Hnd Hq) as (-> & _).
      done.
  - intros iw <-. cbv zeta.
    change (Impl.batch apply iw) with (Impl.mutate (R:=R) (MBatch apply) iw).
    destruct (impl_mutate_normal (R:=R) (MBatch apply) final iw Hm) as (Ho & Hc & Hv).
    pose proof (impl_mutate_spec (R:=R) (MBatch apply) iw) as Hs.
    rewrite Hm in Hs.
    split_and!; [done..| by rewrite Hs | by rewrite Hs |].
    rewrite Hs. cbn. apply (impl_pass_snapshot (Impl.committed final iw)).
Qed.

End BatchClaim.

Lemma batch_witness :
  let apply := callback_of [Counter.add_call 1; Counter.add_call 2] in
  let final := Counter.Build_CounterState 3 "init" in
  (run_callback apply Counter.init).1 = Normal tt ∧
  fold_calls (callback_calls apply Counter.init) Counter.init = Normal final ∧
  (let r := Closure.batch (R:=Z) apply Example.closure_two_recorders in
   outcome r = Normal final ∧
   Closure.version (after r).1 = 1 ∧
   NoDup (notified (trace r)) ∧
   [0%nat; 1%nat] `sublist_of` notified (trace r) ∧
   trace r = [Notified 0%nat; Fired 0%nat 3; Notified 1%nat; Fired 1%nat 3]) ∧
  (let r := Closure.batch (R:=Z) apply Counter.closure_two_listeners in
   outcome r = Normal final ∧
   Closure.version (after r).1 = 1 ∧
   (∃ tr, trace r = Notified 0%nat :: tr) ∧
   trace r = [Notified 0%nat; Fired 0%nat 3]) ∧
  (let r := Impl.batch (R:=Z) apply Counter.impl_two_listeners in
   outcome r = Normal final ∧
   Impl.version (after r).1 = 1 ∧
   notified (trace r) = [0%nat; 1%nat] ∧
   trace r = [Notified 0%nat; Fired 0%nat 3; Notified 1%nat; Fired 1%nat 3]).
Proof.
  cbv zeta. split; [reflexivity|]. split; [reflexivity|].
  destruct (batch_publishes_fold_once (R:=Z) (Env:=list Z)
              (callback_of [Counter.add_call 1; Counter.add_call 2])
              Counter.init (Counter.Build_CounterState 3 "init")
              eq_refl eq_refl) as [Hc Hi].
  assert (NoDup [0%nat; 1%nat]) as Hnd
    by (apply (bool_decide_unpack _); vm_compute; exact I).
  split; [|split].
  - destruct (Hc Example.closure_two_recorders eq_refl)
      as (Ho & _ & Hv & _ & _ & _ & Honce & Hall).
    split_and!; [exact Ho | exact Hv | exact (Honce Hnd) | | vm_compute; reflexivity].
    apply (Hall Hnd). intros id l Hid Hl v env.
    apply elem_of_cons in Hid as [->|Hid]; [by injection Hl as <-|].
    apply list_elem_of_singleton in Hid as ->. by injection Hl as <-.
  - destruct (Hc Counter.closure_two_listeners eq_refl)
      as (Ho & _ & Hv & _ & _ & Hhead & _).
    split_and!; [exact Ho | exact Hv | exact (Hhead 0%nat [1%nat] eq_refl)
                 | vm_compute; reflexivity].
  - destruct (Hi Counter.impl_two_listeners eq_refl) as (Ho & _ & Hv & _ & _ & Hn).
    split_and!; [exact Ho | exact Hv | exact Hn | vm_compute; reflexivity].
Defined.


Section Synced.
Context {T R Env : Type}.
Implicit Types w : @Impl.world T R Env.

Lemma impl_notify_closure_ne id w j :
  j ≠ id →
  Impl.closures (after (Impl.notify (R:=R) id w)).1 !! j = Impl.closures w.1 !! j.
Proof.
  intros Hj. unfold Impl.notify. unfold bind at 1. cbn. unfold bind at 1. cbn.
  destruct (Impl.closures w.1 !! id) as [l|]; [|done].
  destruct (equality l (prev l) (selector l (Impl.current w.1))); [done|].
  destruct (impl_core_keeps _ _
              (impl_call_subscriber_core id (subscriber l) (selector l (Impl.current w.1))
                 (Impl.set_closure id (with_prev (selector l (Impl.current w.1)) l) w.1, w.2)))
    as (_ & _ & Hc & _).
  cbn [after]. rewrite Hc. cbn. by rewrite lookup_insert_ne.
Qed.

Lemma impl_for_each_current (ids : list nat) w :
  Impl.current (after (for_each (Impl.notify (R:=R)) ids w)).1 = Impl.current w.1.
Proof.
  by destruct (preserves_for_each Impl.frame (Impl.notify (T:=T) (R:=R) (Env:=Env)) ids
                 impl_notify_frame w) as (-> & _).
Qed.

Lemma impl_for_each_closure_ne (ids : list nat) w j :
  j ∉ ids →
  Impl.closures (after (for_each (Impl.notify (R:=R)) ids w)).1 !! j
  = Impl.closures w.1 !! j.
Proof.
  revert w. induction ids as [|id ids IH]; intros w Hj; [done|].
  apply not_elem_of_cons in Hj as [Hne Hj].
  rewrite for_each_cons_normal by apply returns_unit, impl_notify_returns.
  cbn [after]. rewrite IH by done. by apply impl_notify_closure_ne.
Qed.

(** After a pass, the listener's [prev] is the selection of the value,
    or a value that its equality takes for it. *)
Lemma impl_for_each_closure (ids : list nat) w id l :
  NoDup ids → id ∈ ids → Impl.closures w.1 !! id = Some l →
  Impl.closures (after (for_each (Impl.notify (R:=R)) ids w)).1 !! id
  = Some (if equality l (prev l) (selector l (Impl.current w.1)) then l
          else with_prev (selector l (Impl.current w.1)) l).
Proof.
  revert w. induction ids as [|j ids IH]; intros w Hnd Hin Hl.
  { by apply elem_of_nil in Hin. }
  apply NoDup_cons in Hnd as [Hj Hnd].
  rewrite for_each_cons_normal by apply returns_unit, impl_notify_returns.
  cbn [after]. destruct (decide (id = j)) as [->|Hne].
  - rewrite impl_for_each_closure_ne by done.
    by destruct (impl_notify_spec j l w Hl) as (_ & _ & ->).
  - apply elem_of_cons in Hin as [?|Hin]; [done|].
    rewrite IH; [|done|done|by rewrite impl_notify_closure_ne].
    by destruct (impl_notify_frame j w) as (-> & _).
Qed.

Lemma impl_pass_sublist w :
  Impl.listeners (after (Impl.notifyListeners (R:=R) w)).1 `sublist_of` Impl.listeners w.1.
Proof.
  refine (proj1 (impl_notifyListeners_respects
            (λ w', Impl.listeners w'.1 `sublist_of` Impl.listeners w.1) (λ _, True)
            _ _ _ _ w _)); cbn; try done.
  intros w' ls' Hw' Hls. by etrans.
Qed.

Lemma impl_mutate_synced (m : Mutation T) w :
  impl_wf w → impl_synced w → impl_synced (after (Impl.mutate (R:=R) m w)).
Proof.
  intros (Hnd & Hcl & _) Hs. rewrite impl_mutate_spec.
  destruct (user_completion m (Impl.current w.1)) as [next|e]; [|done].
  cbn [after]. intros id l' Hin Hl' Heq.
  pose proof (elem_of_sublist _ _ _ Hin (impl_pass_sublist (Impl.committed next w))) as Hin0.
  cbn in Hin0. destruct (Hcl id Hin0) as [l Hl].
  revert Hl'.
  change (after (Impl.notifyListeners (R:=R) (Impl.committed next w)))
    with (after (for_each (Impl.notify (R:=R)) (Impl.listeners w.1)
                   (Impl.committed next w))).
  rewrite impl_for_each_current.
  rewrite (impl_for_each_closure _ (Impl.committed next w) id l Hnd Hin0 Hl).
  cbn. destruct (equality l (prev l) (selector l next)) eqn:He; intros [= <-].
  - by apply Heq.
  - done.
Qed.

Lemma impl_synced_step (Object_is : R → R → bool) (op : StoreOp T R Env) w :
  impl_wf w → impl_synced w → impl_synced (after (Impl.step Object_is op w)).
Proof.
  intros Hwf Hs.
  assert (∀ (w : @Impl.world T R Env) ls',
            impl_synced w → ls' `sublist_of` Impl.listeners w.1 →
            impl_synced (Impl.set_listeners ls' w.1, w.2)) as Hrem.
  { intros w0 ls' Hw0 Hsub id l Hin. apply Hw0. by eapply elem_of_sublist. }
  destruct op as [m | | | P fn payload | sel sub options | id]; cbn.
  - unfold bind. pose proof (impl_mutate_synced m w Hwf Hs) as Hm.
    by destruct (outcome (Impl.mutate m w)).
  - done.
  - done.
  - unfold Impl.effect, bind; cbn. by destruct (fn _ _).
  - unfold bind.
    destruct (impl_subscribe_spec Object_is sel sub options w) as (-> & _).
    cbn [after]. 
    refine (proj1 (impl_subscribe_respects (@impl_synced T R Env) (λ _, True)
              _ Hrem _ _ Object_is sel sub options w Hs)); try done.
    intros w0 sel0 eq0 sub0 Hw0 id l. cbn.
    destruct (decide (id = Impl.fresh w0.1)) as [->|Hne].
    + rewrite lookup_insert_eq. by intros _ [= <-].
    + rewrite lookup_insert_ne by done. intros Hin. apply Hw0.
      unfold Impl.set_add in Hin. destruct (decide _); [done|].
      by apply elem_of_app in Hin as [?| ?%list_elem_of_singleton].
  - by refine (proj1 (impl_unsubscribe_respects (@impl_synced T R Env) (λ _, True)
              Hrem id w Hs)).
Qed.

Lemma impl_reach_synced (Object_is : R → R → bool) (ops : list (StoreOp T R Env))
    (initial : T) (env : Env) :
  impl_synced (impl_reach Object_is ops initial env).
Proof.
  unfold impl_reach.
  enough (∀ w, impl_wf w → impl_synced w →
               impl_synced (after (script (Impl.step Object_is <$> ops) w))) as H.
  { apply H.
    - unfold impl_wf; cbn. split_and!; [apply NoDup_nil_2| |].
      + intros id Hid. by apply elem_of_nil in Hid.
      + intros id [l Hl]. by rewrite lookup_empty in Hl.
    - intros id l Hin. by apply elem_of_nil in Hin. }
  induction ops as [|op ops IH]; intros w Hwf Hs; [done|].
  rewrite fmap_cons, script_after. apply IH.
  - by apply impl_wf_step.
  - by apply impl_synced_step.
Qed.

Lemma impl_selection_change_fst w j (c : nat * R) :
  Impl.selection_change w j = Some c → c.1 = j.
Proof.
  unfold Impl.selection_change. destruct (Impl.closures w.1 !! j) as [l|]; [|done].
  cbn. destruct (equality _ _ _); [done|]. by intros [= <-].
Qed.

Lemma calls_of_selection_change w id (ids : list nat) :
  NoDup ids → id ∈ ids →
  calls_of id (omap (Impl.selection_change w) ids)
  = (option_list (Impl.selection_change w id)).*2.
Proof.
  assert (∀ ids, id ∉ ids → calls_of id (omap (Impl.selection_change w) ids) = []) as Hno.
  { clear. induction ids as [|j ids IH]; intros Hid; [done|].
    apply not_elem_of_cons in Hid as [Hj Hid]. cbn [omap list_omap].
    destruct (Impl.selection_change w j) as [c|] eqn:Hc; [|by apply IH].
    apply impl_selection_change_fst in Hc.
    unfold calls_of. rewrite filter_cons_False by congruence. by apply IH. }
  induction ids as [|j ids IH]; intros Hnd Hin; [by apply elem_of_nil in Hin|].
  apply NoDup_cons in Hnd as [Hj Hnd]. cbn [omap list_omap].
  destruct (decide (id = j)) as [->|Hne].
  - destruct (Impl.selection_change w j) as [c|] eqn:Hc; [|by apply Hno].
    apply impl_selection_change_fst in Hc.
    unfold calls_of. rewrite filter_cons_True by done. cbn. f_equal. by apply Hno.
  - apply elem_of_cons in Hin as [?|Hin]; [done|].
    destruct (Impl.selection_change w j) as [c|] eqn:Hc; [|by apply IH].
    apply impl_selection_change_fst in Hc.
    unfold calls_of. rewrite filter_cons_False by congruence. by apply IH.
Qed.

(** X4. In a state that a [StoreImpl] has reached, a successful
    mutation calls the subscriber of a registered listener whose equality
    holds of identical values only (as the default [Object.is] does)
    exactly when the equality is false of the selection of the old value
    and the selection of the new one; it calls it once, with the
    selection of the new value. *)
Theorem impl_subscriber_fires_iff_selection_changes
    (Object_is : R → R → bool) (pre : list (StoreOp T R Env)) (initial : T) (env : Env)
    (m : Mutation T) (next : T) (id : nat) (l : Listener T R Env) :
  let w := impl_reach Object_is pre initial env in
  id ∈ Impl.listeners w.1 →
  Impl.closures w.1 !! id = Some l →
  identifies (equality l) →
  user_completion m (Impl.current w.1) = Normal next →
  calls_of id (fired (trace (Impl.mutate (R:=R) m w)))
  = (if equality l (selector l (Impl.current w.1)) (selector l next) then []
     else [selector l next]).
Proof.
  intros w Hin Hl Heq Hm.
  destruct (impl_reach_wf Object_is pre initial env) as (Hnd & _).
  pose proof (impl_reach_synced Object_is pre initial env id l Hin Hl Heq) as Hprev.
  fold w in Hnd, Hprev.
  rewrite impl_mutate_spec, Hm. cbn [trace].
  rewrite (impl_pass_fired (Impl.committed next w)) by done.
  cbn [Impl.committed Impl.listeners Impl.bump_version Impl.set_current fst].
  rewrite calls_of_selection_change by done.
  unfold Impl.selection_change. cbn. rewrite Hl. cbn. rewrite Hprev.
  by destruct (equality l _ _).
Qed.

End Synced.

Section SubscribeTheorems.
Context {T R Env : Type}.

(** X2. In a state that a store has reached, [subscribe] returns the
    handle of a listener that was not registered before, leaves value and
    version alone, notifies no listener, and calls the new subscriber
    exactly once, with the selection of the present value, when
    [fireImmediately] is set and not at all otherwise; the new listener
    is registered after those that remain, and without [fireImmediately]
    the listeners before it and the rest of the program are as they
    were; in both listings. *)
Theorem subscribe_registers_last_and_fires_on_request
    (Object_is : R → R → bool) (pre : list (StoreOp T R Env)) (initial : T) (env : Env)
    (sel : Selector T R) (sub : Subscriber R Env) (options : option (SubscribeOptions R)) :
  let cw := closure_reach Object_is pre initial env in
  let iw := impl_reach Object_is pre initial env in
  let fire := default false (options ≫= fireImmediately) in
  (let r := Closure.subscribe Object_is sel sub options cw in
   let id := Closure.fresh cw.1 in
   outcome r = Normal id ∧
   (id ∉ Closure.listeners cw.1) ∧
   trace r = (if fire then [Fired id (sel (Closure.current cw.1))] else []) ∧
   Closure.current (after r).1 = Closure.current cw.1 ∧
   Closure.version (after r).1 = Closure.version cw.1 ∧
   ∃ ls, Closure.listeners (after r).1 = ls ++ [id] ∧
         ls `sublist_of` Closure.listeners cw.1 ∧
         (fire = false → ls = Closure.listeners cw.1 ∧ (after r).2 = cw.2)) ∧
  (let r := Impl.subscribe Object_is sel sub options iw in
   let id := Impl.fresh iw.1 in
   outcome r = Normal id ∧
   (id ∉ Impl.listeners iw.1) ∧
   trace r = (if fire then [Fired id (sel (Impl.current iw.1))] else []) ∧
   Impl.current (after r).1 = Impl.current iw.1 ∧
   Impl.version (after r).1 = Impl.version iw.1 ∧
   ∃ ls, Impl.listeners (after r).1 = ls ++ [id] ∧
         ls `sublist_of` Impl.listeners iw.1 ∧
         (fire = false → ls = Impl.listeners iw.1 ∧ (after r).2 = iw.2)).
Proof.
  intros cw iw fire. split; cbv zeta.
  - destruct (closure_reach_wf Object_is pre initial env) as (_ & Hc & Hf). fold cw in Hc, Hf.
    destruct (closure_subscribe_spec Object_is sel sub options cw) as (Ho & _ & _ & Hcur & Hver).
    destruct (closure_subscribe_listeners Object_is sel sub options cw) as (Htr & _ & Hls).
    split_and!; try done.
    intros Hin. specialize (Hf _ (Hc _ Hin)). lia.
  - destruct (impl_reach_wf Object_is pre initial env) as (_ & Hc & Hf). fold iw in Hc, Hf.
    assert (Impl.fresh iw.1 ∉ Impl.listeners iw.1) as Hfr.
    { intros Hin. specialize (Hf _ (Hc _ Hin)). lia. }
    destruct (impl_subscribe_spec Object_is sel sub options iw) as (Ho & _ & _ & Hcur & Hver).
    destruct (impl_subscribe_listeners Object_is sel sub options iw Hfr) as (Htr & _ & Hls).
    split_and!; done.
Qed.

(** X6. A subscriber registered through [derive(store, selector)] in a
    state that the store has reached is called by the next successful
    mutation exactly when its equality ([options.eq], or [Object.is]) is
    false of what [read()] of the derived view returns before and after
    the mutation; it is then called once, with what [read()] returns
    after.  [read()] is the selector applied to the store's value. *)
Theorem derived_subscriber_fires_iff_read_changes
    (Object_is : R → R → bool) (pre : list (StoreOp T R Env)) (initial : T) (env : Env)
    (sel : Selector T R) (sub : Subscriber R Env) (options : option (SubscribeOptions R))
    (m : Mutation T) (next : T) :
  let w := impl_reach Object_is pre initial env in
  let s := Derive.subscribe Object_is sel sub options w in
  let r := Impl.mutate (R:=R) m (after s) in
  let eq := default Object_is (options ≫= opt_eq) in
  user_completion m (Impl.current w.1) = Normal next →
  outcome s = Normal (Impl.fresh w.1) ∧
  outcome (Derive.read sel (after s)) = Normal (sel (Impl.current w.1)) ∧
  outcome (Derive.read sel (after r)) = Normal (sel next) ∧
  calls_of (Impl.fresh w.1) (fired (trace r))
    = (if eq (sel (Impl.current w.1)) (sel next) then [] else [sel next]).
Proof.
  intros w s r eq Hm. subst s r. unfold Derive.subscribe.
  pose proof (impl_wf_step Object_is (OpSubscribe sel sub options) w
                (impl_reach_wf Object_is pre initial env)) as [Hwf _].
  destruct (impl_reach_wf Object_is pre initial env) as (_ & Hc & Hf). fold w in Hc, Hf.
  assert (Impl.fresh w.1 ∉ Impl.listeners w.1) as Hfr.
  { intros Hin. specialize (Hf _ (Hc _ Hin)). lia. }
  destruct (impl_subscribe_spec Object_is sel sub options w) as (Ho & Hcl & _ & Hcur & Hver).
  destruct (impl_subscribe_listeners Object_is sel sub options w Hfr)
    as (_ & _ & ls & Hls & _).
  revert Hwf. cbn [Impl.step]. unfold bind at 1. rewrite Ho. cbn [after outcome].
  set (w1 := after (Impl.subscribe Object_is sel sub options w)) in *.
  intros (Hnd & _).
  assert (user_completion m (Impl.current w1.1) = Normal next) as Hm1 by by rewrite Hcur.
  destruct (impl_mutate_normal (R:=R) m next w1 Hm1) as (_ & Hnext & _).
  split_and!; [done| | |].
  - unfold Derive.read, Impl.snapshot, bind, get, ret. cbn. by rewrite Hcur.
  - unfold Derive.read, Impl.snapshot, bind, get, ret. cbn. by rewrite Hnext.
  - rewrite impl_mutate_spec, Hm1. cbn [trace].
    rewrite (impl_pass_fired (Impl.committed next w1)) by done.
    cbn [Impl.committed Impl.listeners Impl.bump_version Impl.set_current fst].
    rewrite calls_of_selection_change;
      [|done|rewrite Hls; apply elem_of_app; right; by apply list_elem_of_singleton].
    unfold Impl.selection_change. cbn. rewrite Hcl. cbn. subst eq.
    assert (∀ b : bool,
              (option_list (if b then None else Some (Impl.fresh w.1, sel next))).*2
              = (if b then [] else [sel next])) as Hb by (by intros []).
    apply Hb.
Qed.

End SubscribeTheorems.

(** ** Serialization and hydration *)

Section SerializeFacts.
Import Serialize.
Context (JSON_parse : string → completion json) (JSON_stringify : json → string).

(** The loop runs the migrations of the versions from the payload's up
    to the serializer's, in ascending order; the fuel is never used up. *)
Lemma migrate_is_chain (version : Z) (steps : gmap Z Migration) (fuel : nat)
    (currVersion : Z) (data : json) :
  fuel = Z.to_nat (version - currVersion) →
  migrate version steps fuel currVersion data
  = migrate_chain steps (seqZ currVersion (version - currVersion)) data.
Proof.
  revert currVersion data. induction fuel as [|fuel IH]; intros curr data Hfuel.
  - cbn [migrate]. destruct (decide (curr < version)); [lia|].
    by rewrite seqZ_nil by lia.
  - cbn [migrate]. destruct (decide (curr < version)); [|lia].
    rewrite seqZ_cons by lia. cbn [migrate_chain].
    destruct (steps !! curr) as [step|]; [|done].
    destruct (step data) as [d|e]; [|done]. cbn.
    rewrite IH by lia. do 2 f_equal; lia.
Qed.

Lemma envelope_versioned (version : Z) (snapshot : json) :
  isVersioned (envelope version snapshot) = true ∧
  payload_v (envelope version snapshot) = version ∧
  payload_data (envelope version snapshot) = snapshot.
Proof. done. Qed.

(** X7. [decode] throws what [JSON.parse] throws, [Invalid payload] when
    the parsed value is not an object with a numeric [v] and a [data],
    and [Future version] when [v] exceeds the serializer's version.
    Otherwise it applies the migrations registered for the versions [v],
    [v + 1], ..., [version - 1], in that order, each to the result of the
    one before, throws [Missing migration] at the first version that has
    none, and returns the migrated data when [validate] accepts it,
    throwing [Validation failed] when it does not; the loop always ends.
    So [decode] never returns a value that [validate] rejects. *)
Theorem decode_migrates_in_order_and_validates
    (version : Z) (options : SerializerOptions) (raw : string) :
  let s := createSerializer JSON_parse JSON_stringify version options in
  decode s raw =
    and_then (JSON_parse raw) (λ p,
      if negb (isVersioned p) then Throws "Invalid payload"
      else if decide (payload_v p > version) then Throws "Future version"
      else
        and_then
          (migrate_chain (default ∅ (migrations options))
             (seqZ (payload_v p) (version - payload_v p)) (payload_data p))
          (λ d, if validate options d then Normal d else Throws "Validation failed")) ∧
  (∀ d, decode s raw = Normal d → validate options d = true).
Proof.
  cbv zeta. cbn [decode createSerializer].
  assert (∀ A (c : completion A) (k k' : A → completion json),
            (∀ a, k a = k' a) → and_then c k = and_then c k') as Hext.
  { intros A [a|e] k k' Hk; [apply Hk|done]. }
  split.
  - apply Hext. intros p. destruct (negb (isVersioned p)); [done|].
    destruct (decide (payload_v p > version)); [done|].
    rewrite migrate_is_chain by done. apply Hext. intros d.
    by destruct (validate options d).
  - intros d. destruct (JSON_parse raw) as [p|e]; [|done]. cbn.
    destruct (negb (isVersioned p)); [done|].
    destruct (decide (payload_v p > version)); [done|].
    destruct (migrate _ _ _ _ _) as [d'|e]; [|done]. cbn.
    destruct (validate options d') eqn:Hv; [|done]. cbn. by intros [= <-].
Qed.

(** A text that [JSON.parse] reads as the envelope of a valid snapshot at
    the serializer's version decodes to that snapshot. *)
Lemma decode_of_envelope
    (version : Z) (options : SerializerOptions) (raw : string) (snapshot : json) :
  JSON_parse raw = Normal (envelope version snapshot) →
  validate options snapshot = true →
  decode (createSerializer JSON_parse JSON_stringify version options) raw = Normal snapshot.
Proof.
  intros Hjson Hv. cbn [decode createSerializer].
  rewrite Hjson. cbn [and_then].
  destruct (envelope_versioned version snapshot) as (-> & -> & ->). cbn [negb].
  destruct (decide (version > version)); [lia|].
  rewrite migrate_is_chain by done. rewrite seqZ_nil by lia. cbn. by rewrite Hv.
Qed.

(** X8. [decode(encode(snapshot))] is [snapshot], for a snapshot that
    [validate] accepts and whose envelope [JSON.parse] reads back from
    what [JSON.stringify] wrote; no migration is run. *)
Theorem decode_encode_round_trip
    (version : Z) (options : SerializerOptions) (snapshot : json) :
  let s := createSerializer JSON_parse JSON_stringify version options in
  validate options snapshot = true →
  JSON_parse (JSON_stringify (envelope version snapshot))
    = Normal (envelope version snapshot) →
  decode s (encode s snapshot) = Normal snapshot.
Proof.
  intros s Hv Hjson. subst s.
  change (encode (createSerializer JSON_parse JSON_stringify version options) snapshot)
    with (JSON_stringify (envelope version snapshot)).
  by apply decode_of_envelope.
Qed.

Section Hydration.
Context {R W : Type} (store : Transaction.StoreApi json R W) (value : W → json).
Hypothesis store_lawful : Transaction.lawful store value.

(** X9. [rehydrate] with the text that [dehydrate] produced from a store
    makes the target store hold the source store's value, returns it and
    counts one mutation of the target, when [validate] accepts the value
    and [JSON.parse] reads its envelope back; [dehydrate] changes
    nothing.  When [decode] (or [JSON.parse], without a serializer)
    throws, [rehydrate] throws the same exception and the target store is
    exactly as before: [set] is not called. *)
Theorem rehydrate_restores_dehydrated_value
    (version : Z) (options : SerializerOptions) (source target : W) :
  let s := createSerializer JSON_parse JSON_stringify version options in
  validate options (value source) = true →
  JSON_parse (JSON_stringify (envelope version (value source)))
    = Normal (envelope version (value source)) →
  (∃ raw,
     dehydrate JSON_stringify store (Some s) source = Run (Normal raw) source [] ∧
     let r := rehydrate JSON_parse store raw (Some s) target in
     outcome r = Normal (value source) ∧
     value (after r) = value source ∧
     Transaction.api_version store (after r) = Transaction.api_version store target + 1) ∧
  (∀ raw serializer e,
     match serializer with
     | Some s' => decode s' raw
     | None => JSON_parse raw
     end = Throws e →
     rehydrate JSON_parse store raw serializer target = Run (Throws e) target []).
Proof.
  intros s Hv Hjson. destruct store_lawful as (Hsnap & _ & Hset). split.
  - exists (encode s (value source)). split.
    + unfold dehydrate, bind. rewrite Hsnap. done.
    + cbv zeta. unfold rehydrate, bind. fold s.
      change (encode s (value source))
        with (JSON_stringify (envelope version (value source))).
      subst s. rewrite (decode_of_envelope version options _ (value source) Hjson Hv). cbn.
      destruct (Hset (value source) target) as (Ho & Hval & Hver).
      rewrite Ho. cbn.
      destruct (Transaction.api_set store (value source) target); cbn in *. done.
  - intros raw serializer e Hd. unfold rehydrate, bind. rewrite Hd. done.
Qed.

End Hydration.
End SerializeFacts.

(** ** Persistence *)

Arguments Persist.persistLocal : simpl never.
Arguments Persist.detach : simpl never.

Section ImplRun.
Context {T R Env : Type}.
Implicit Types w : @Impl.world T R Env.

Lemma impl_notify_run id w :
  (∀ l, Impl.closures w.1 !! id = Some l → calls_no_handle l) →
  Impl.notify (R:=R) id w =
    match Impl.closures w.1 !! id with
    | None => Run (Normal tt) w [Notified id]
    | Some l =>
        let next := selector l (Impl.current w.1) in
        if equality l (prev l) next then Run (Normal tt) w [Notified id]
        else Run (Normal tt)
               (Impl.set_closure id (with_prev next l) w.1, (subscriber l next w.2).1)
               [Notified id; Fired id next]
    end.
Proof.
  intros Hq. unfold Impl.notify.
  unfold bind at 1. cbn. unfold bind at 1. cbn.
  destruct (Impl.closures w.1 !! id) as [l|] eqn:Hl; [|done].
  specialize (Hq l eq_refl).
  destruct (equality l (prev l) (selector l (Impl.current w.1))); [done|].
  unfold bind, Impl.on_store, modify, Impl.call_subscriber, tell, get. cbn.
  pose proof (Hq (selector l (Impl.current w.1)) w.2) as Hh.
  destruct (subscriber l (selector l (Impl.current w.1)) w.2) as [env' handles].
  cbn in Hh. subst handles. done.
Qed.

(** A mutation of a store that nobody listens to. *)
Lemma impl_mutate_unobserved (m : Mutation T) w :
  Impl.listeners w.1 = [] →
  Impl.mutate (R:=R) m w =
    match user_completion m (Impl.current w.1) with
    | Normal next => Run (Normal next) (Impl.committed next w) []
    | Throws e => Run (Throws e) w []
    end.
Proof.
  intros Hl. rewrite impl_mutate_spec.
  destruct (user_completion m (Impl.current w.1)) as [next|e]; [|done].
  unfold Impl.notifyListeners, bind, get. cbn. rewrite Hl. done.
Qed.

(** A subscription that does not ask for an immediate call. *)
Lemma impl_subscribe_plain (Object_is : R → R → bool) sel sub w :
  Impl.subscribe Object_is sel sub None w =
    Run (Normal (Impl.fresh w.1))
        (Impl.set_listeners (Impl.set_add (Impl.fresh w.1) (Impl.listeners w.1))
           (Impl.alloc_closure
              {| selector := sel; equality := Object_is; prev := sel (Impl.current w.1);
                 subscriber := sub |} w.1), w.2) [].
Proof. done. Qed.

End ImplRun.

Section PersistFacts.
Import Persist.
Context {T St : Type} `{EqDecision T}.
Context (JSON_stringify : T → completion string) (JSON_parse : string → completion T).
Context (storage : StorageLike St) (key : string) (options : option (PersistOptions T)).
Implicit Types w : world T St.

Abbreviation encode := (default JSON_stringify (options ≫= opt_encode)).
Abbreviation is_attached := (attached JSON_stringify storage key options).



Lemma impl_set_unobserved (v : T) w :
  Impl.listeners w.1 = [] →
  Impl.set (R:=T) v w = Run (Normal v) (Impl.committed v w) [].
Proof. intros Hl. exact (impl_mutate_unobserved (MSet v) w Hl). Qed.

(** The state [persistLocal] leaves. *)
Lemma persistLocal_eq w :
  Impl.listeners w.1 = [] →
  persistLocal JSON_stringify JSON_parse storage key options w =
    let e0 := set_suppress false (set_detach_var None w.2) in
    let s1 := match stored_initial JSON_parse storage key options (storage_state w.2) with
              | Some v => Impl.bump_version (Impl.set_current v w.1)
              | None => w.1
              end in
    Run (Normal tt)
        (Impl.set_listeners [Impl.fresh w.1]
           (Impl.alloc_closure
              {| selector := λ s, s; equality := Object_is; prev := Impl.current s1;
                 subscriber := write storage key encode |} s1),
         set_detach_var (Some (Impl.fresh w.1)) e0) [].
Proof.
  intros Hl. unfold persistLocal, stored_initial. cbv zeta.
  eapply bind_run_quiet; [reflexivity|]. cbv beta.
  eapply bind_run_quiet; [reflexivity|]. cbv beta. cbn [fst snd].
  set (e0 := set_suppress false (set_detach_var None w.2)).
  assert (∀ s1 : Impl.store,
            Impl.listeners s1 = [] → Impl.fresh s1 = Impl.fresh w.1 →
            bind (Impl.subscribe Object_is (λ s : T, s) (write storage key encode) None)
              (λ id, on_env (set_detach_var (Some id))) (s1, e0)
            = Run (Normal tt)
                (Impl.set_listeners [Impl.fresh w.1]
                   (Impl.alloc_closure
                      {| selector := λ s, s; equality := Object_is;
                         prev := Impl.current s1;
                         subscriber := write storage key encode |} s1),
                 set_detach_var (Some (Impl.fresh w.1)) e0) []) as Hsub.
  { intros s1 Hl1 Hf1. eapply bind_run_quiet; [apply impl_subscribe_plain|].
    cbn. unfold Impl.set_add. rewrite Hl1, Hf1. done. }
  destruct (default true (options ≫= loadInitial)).
  2:{ eapply bind_run_quiet; [reflexivity|]. by apply Hsub. }
  destruct (getItem storage key (storage_state w.2)) as [raw|] eqn:Hraw.
  2:{ eapply bind_run_quiet; [|by apply Hsub].
      rewrite bind_get. change (storage_state (w.1, e0).2) with (storage_state w.2).
      by rewrite Hraw. }
  cbn [mbind option_bind].
  destruct (default JSON_parse (options ≫= opt_decode) raw) as [initial|e] eqn:Hd.
  2:{ eapply bind_run_quiet; [|by apply Hsub].
      rewrite bind_get. change (storage_state (w.1, e0).2) with (storage_state w.2).
      by rewrite Hraw, Hd. }
  eapply bind_run_quiet; [|by apply (Hsub (Impl.bump_version (Impl.set_current initial w.1)))].
  rewrite bind_get. change (storage_state (w.1, e0).2) with (storage_state w.2).
  rewrite Hraw, Hd.
  eapply bind_run_quiet; [reflexivity|]. cbv beta.
  eapply bind_run_quiet; [unfold attempt; by rewrite impl_set_unobserved|].
  reflexivity.
Qed.

(** [persistLocal] leaves the store with its listener attached. *)
Lemma persistLocal_attaches w :
  Impl.listeners w.1 = [] →
  is_attached (Impl.fresh w.1)
    (after (persistLocal JSON_stringify JSON_parse storage key options w)).
Proof.
  intros Hl. rewrite (persistLocal_eq w Hl). cbv zeta. cbn [after].
  destruct (stored_initial _ _ _ _ _) as [v|]; cbn.
  - split_and!; try done. cbn. by rewrite lookup_insert_eq.
  - split_and!; try done. cbn. by rewrite lookup_insert_eq.
Qed.


End PersistFacts.


Section PersistTheorems.
Import Persist.
Context {T St : Type} `{EqDecision T}.
Context (JSON_stringify : T → completion string) (JSON_parse : string → completion T).
Context (storage : StorageLike St) (key : string) (options : option (PersistOptions T)).
Implicit Types w : world T St.

(** X10. [persistLocal] on a store that nobody listens to returns
    normally and notifies nobody; the store then holds the value decoded
    from [storage.getItem(key)], and has counted one mutation, when
    [loadInitial] is not [false], the item exists and [decode] returns;
    it is untouched otherwise.  The storage is not written, and the store
    is left with the one listener that writes to the storage. *)
Theorem persistLocal_loads_without_writing w :
  Impl.listeners w.1 = [] →
  let r := persistLocal JSON_stringify JSON_parse storage key options w in
  let loaded := stored_initial JSON_parse storage key options (storage_state w.2) in
  outcome r = Normal tt ∧ trace r = [] ∧
  attached JSON_stringify storage key options (Impl.fresh w.1) (after r) ∧
  storage_state (after r).2 = storage_state w.2 ∧
  Impl.current (after r).1 = default (Impl.current w.1) loaded ∧
  Impl.version (after r).1 = Impl.version w.1 + (if loaded is Some _ then 1 else 0).
Proof.
  intros Hl. cbv zeta.
  pose proof (persistLocal_attaches JSON_stringify JSON_parse storage key options w Hl)
    as Ha.
  revert Ha.
  rewrite (persistLocal_eq JSON_stringify JSON_parse storage key options w Hl).
  cbv zeta. cbn [outcome after trace]. intros Ha.
  destruct (stored_initial _ _ _ _ _) as [v|]; cbn.
  - split_and!; try done; lia.
  - split_and!; try done; lia.
Qed.




End PersistTheorems.

(** ** Middlewares and the devtools connection *)

Arguments Middleware.around : simpl never.
Arguments Middleware.callBefore : simpl never.
Arguments Middleware.callAfter : simpl never.
Arguments Middleware.context : simpl never.
Arguments Middleware.now : simpl never.
Arguments Middleware.on_store : simpl never.


Section MiddlewareFacts.
Import Middleware.
Context {T R Env Clock MS : Type}.
Context (Date_now : Clock → Z * Clock).
Implicit Types w : world T R Env Clock MS.
Implicit Types mws : list (Middleware T MS).

Lemma callBefore_run mws op c (sw : @Impl.world T R Env) (k : Clock) (s : MS) :
  callBefore (R:=R) mws op c {| store := sw; clock := k; mstate := s |} =
    Run (before_all mws op c s).1
        {| store := sw; clock := k; mstate := (before_all mws op c s).2 |} [].
Proof.
  unfold callBefore. revert s. induction mws as [|m mws IH]; intros s; [done|].
  cbn [for_each before_all]. destruct (before m) as [h|].
  - unfold bind, hook. cbn [mstate store clock].
    destruct (h op c s) as [[[]|e] s']; cbn [outcome after trace]; [|done].
    rewrite IH. done.
  - unfold bind. cbn. rewrite IH. done.
Qed.

Lemma callAfter_run mws op c (sw : @Impl.world T R Env) (k : Clock) (s : MS) :
  callAfter (R:=R) mws op c {| store := sw; clock := k; mstate := s |} =
    Run (after_all mws op c s).1
        {| store := sw; clock := k; mstate := (after_all mws op c s).2 |} [].
Proof.
  unfold callAfter. revert s. induction mws as [|m mws IH]; intros s; [done|].
  cbn [for_each after_all]. destruct (after_hook m) as [h|].
  - unfold bind, hook. cbn [mstate store clock].
    destruct (h op c s) as [[[]|e] s']; cbn [outcome after trace]; [|done].
    rewrite IH. done.
  - unfold bind. cbn. rewrite IH. done.
Qed.

Lemma context_run payload (sw : @Impl.world T R Env) (k : Clock) (s : MS) :
  context (R:=R) payload {| store := sw; clock := k; mstate := s |} =
    Run (Normal {| ctx_version := Impl.version sw.1; ctx_snapshot := Impl.current sw.1;
                   ctx_payload := payload |})
        {| store := sw; clock := k; mstate := s |} [].
Proof. done. Qed.

Lemma now_run (sw : @Impl.world T R Env) (k : Clock) (s : MS) :
  now (R:=R) Date_now {| store := sw; clock := k; mstate := s |} =
    Run (Normal (Date_now k).1) {| store := sw; clock := (Date_now k).2; mstate := s |} [].
Proof. unfold now. cbn. by destruct (Date_now k). Qed.

(** What a wrapped entry point does, in terms of the call it wraps. *)
Lemma around_run {A} mws op payload (call : M (@Impl.world T R Env) R A)
    (sw : @Impl.world T R Env) (k : Clock) (s : MS) :
  around Date_now mws op payload call {| store := sw; clock := k; mstate := s |} =
    let c := {| ctx_version := Impl.version sw.1; ctx_snapshot := Impl.current sw.1;
                ctx_payload := payload |} in
    let b := before_all mws op c s in
    let k1 := (Date_now k).2 in
    match b.1 with
    | Throws e => Run (Throws e) {| store := sw; clock := k1; mstate := b.2 |} []
    | Normal _ =>
        let r := call sw in
        match outcome r with
        | Throws e =>
            Run (Throws e) {| store := after r; clock := k1; mstate := b.2 |} (trace r)
        | Normal out =>
            let c' := {| ctx_version := Impl.version (after r).1;
                         ctx_snapshot := Impl.current (after r).1;
                         ctx_payload := payload |} in
            let a := after_all mws op
                       {| ctx := c'; durationMs := (Date_now k1).1 - (Date_now k).1 |} b.2 in
            Run (match a.1 with Normal _ => Normal out | Throws e => Throws e end)
                {| store := after r; clock := (Date_now k1).2; mstate := a.2 |}
                (trace r)
        end
    end.
Proof.
  cbv zeta. unfold around.
  eapply bind_run_quiet; [apply now_run|]. cbv beta.
  eapply bind_run_quiet; [apply context_run|]. cbv beta.
  destruct (before_all mws op _ s) as [[[]|e] s1] eqn:Hb; cbn [fst snd].
  2:{ apply bind_throws_run. by rewrite callBefore_run, Hb. }
  eapply bind_run_quiet; [by rewrite callBefore_run, Hb|]. cbv beta.
  destruct (call sw) as [[out|e] sw' tr] eqn:Hc; cbn [outcome after trace].
  2:{ apply bind_throws_run. unfold on_store. cbn [store clock mstate]. by rewrite Hc. }
  eapply bind_run_then;
    [unfold on_store; cbn [store clock mstate]; rewrite Hc; reflexivity|].
  cbv beta. cbn [outcome after trace].
  eapply bind_run_quiet; [apply now_run|]. cbv beta.
  eapply bind_run_quiet; [apply context_run|]. cbv beta.
  cbn [fst snd].
  destruct (after_all mws op _ s1) as [[[]|e] s2] eqn:Ha; cbn [fst snd].
  - eapply bind_run_quiet; [by rewrite callAfter_run, Ha|]. done.
  - apply bind_throws_run. by rewrite callAfter_run, Ha.
Qed.

End MiddlewareFacts.


Section MiddlewareTheorems.
Import Middleware.
Context {T R Env Clock MS : Type}.
Context (Date_now : Clock → Z * Clock).
Implicit Types w : world T R Env Clock MS.
Implicit Types mws : list (Middleware T MS).

Lemma mutate_around mws (m : Mutation T) w :
  Middleware.mutate Date_now mws m w
  = around Date_now mws (operation m) (payload m) (Impl.mutate (R:=R) m) w.
Proof. by destruct m. Qed.

(** A wrapped mutation, in terms of the hooks and of the mutation. *)
Lemma wrapped_mutate_run mws (m : Mutation T) w :
  Middleware.mutate Date_now mws m w =
    let v := Impl.current (store w).1 in
    let c := {| ctx_version := Impl.version (store w).1; ctx_snapshot := v;
                ctx_payload := payload m |} in
    let b := before_all mws (operation m) c (mstate w) in
    let k1 := (Date_now (clock w)).2 in
    match b.1 with
    | Throws e => Run (Throws e) {| store := store w; clock := k1; mstate := b.2 |} []
    | Normal _ =>
        match user_completion m v with
        | Throws e => Run (Throws e) {| store := store w; clock := k1; mstate := b.2 |} []
        | Normal next =>
            let r := Impl.mutate (R:=R) m (store w) in
            let c' := {| ctx_version := Impl.version (store w).1 + 1;
                         ctx_snapshot := next; ctx_payload := payload m |} in
            let a := after_all mws (operation m)
                       {| ctx := c';
                          durationMs := (Date_now k1).1 - (Date_now (clock w)).1 |} b.2 in
            Run (match a.1 with Normal _ => Normal next | Throws e => Throws e end)
                {| store := after r; clock := (Date_now k1).2; mstate := a.2 |}
                (trace r)
        end
    end.
Proof.
  rewrite mutate_around. destruct w as [sw k s]. rewrite around_run.
  cbv zeta. cbn [store clock mstate].
  destruct (before_all _ _ _ _).1; [|done].
  pose proof (impl_mutate_spec (R:=R) m sw) as Hs.
  destruct (user_completion m (Impl.current sw.1)) as [next|e] eqn:Hm.
  - destruct (impl_mutate_normal (R:=R) m next sw Hm) as (Ho & Hc & Hv).
    rewrite Ho, Hc, Hv. done.
  - rewrite Hs. done.
Qed.



End MiddlewareTheorems.

Section DevtoolsFacts.
Import Middleware Devtools.
Context {T R Env Clock : Type}.
Context (Date_now : Clock → Z * Clock) (name : option string).
Implicit Types w : world T R Env Clock (state (memory T)).

Abbreviation devtools := [devtoolsMiddleware (createMemoryConnection (T:=T)).1 name].

Lemma devtools_mutate_run (m : Mutation T) w :
  let v := Impl.current (store w).1 in
  let r := Middleware.mutate Date_now devtools m w in
  initialized (mstate (after r)) = true ∧
  inits (connection (mstate (after r)))
    = (if initialized (mstate w) then inits (connection (mstate w))
       else inits (connection (mstate w)) ++ [v]) ∧
  events (connection (mstate (after r)))
    = events (connection (mstate w)) ++ recorded name [m] v (Impl.version (store w).1) ∧
  outcome r = user_completion m v ∧
  store (after r)
    = (if user_completion m v is Normal _ then after (Impl.mutate (R:=R) m (store w))
       else store w) ∧
  trace r = trace (Impl.mutate (R:=R) m (store w)).
Proof.
  cbv zeta. rewrite wrapped_mutate_run. cbv zeta.
  pose proof (impl_mutate_spec (R:=R) m (store w)) as Hs.
  cbn [before_all after_all devtoolsMiddleware before after_hook createMemoryConnection
       fst snd init send ctx ctx_snapshot ctx_payload ctx_version recorded].
  destruct (initialized (mstate w)) eqn:Hi; cbn [fst snd];
    destruct (user_completion m (Impl.current (store w).1)) as [next|e] eqn:Hm;
    cbn; rewrite ?Hi, ?app_nil_r; try rewrite Hs; done.
Qed.

(** X15. Through [withMiddleware] with the one middleware
    [devtoolsMiddleware] on a new memory connection, any sequence of
    mutations leaves in [inits] exactly one state, the value before the
    first mutation (and none when there was no mutation), and in [events]
    one event for each mutation whose function returned, in order, with
    the operation, its payload, the value it produced and the version it
    produced; a mutation whose function threw leaves no event. *)
Theorem devtools_records_successful_mutations (ms : list (Mutation T)) w :
  initialized (mstate w) = false →
  connection (mstate w) = (createMemoryConnection (T:=T)).2 →
  let r := script (Middleware.mutate Date_now devtools <$> ms) w in
  inits (connection (mstate (after r)))
    = (if ms is [] then [] else [Impl.current (store w).1]) ∧
  events (connection (mstate (after r)))
    = recorded name ms (Impl.current (store w).1) (Impl.version (store w).1).
Proof.
  assert (∀ ms w,
    let r := script (Middleware.mutate Date_now devtools <$> ms) w in
    inits (connection (mstate (after r)))
      = (if initialized (mstate w) then inits (connection (mstate w))
         else if ms is [] then inits (connection (mstate w))
         else inits (connection (mstate w)) ++ [Impl.current (store w).1]) ∧
    events (connection (mstate (after r)))
      = events (connection (mstate w))
        ++ recorded name ms (Impl.current (store w).1) (Impl.version (store w).1)) as H.
  { clear. induction ms as [|m ms IH]; intros w; cbv zeta.
    - cbn. rewrite app_nil_r. by destruct (initialized (mstate w)).
    - rewrite fmap_cons, script_after.
      destruct (IH (after (Middleware.mutate Date_now devtools m w))) as [Hin Hev].
      destruct (devtools_mutate_run m w) as (Hi & Hin1 & Hev1 & Ho & Hst & _).
      rewrite Hin, Hev, Hi, Hin1, Hev1. split; [by destruct (initialized (mstate w))|].
      rewrite <- app_assoc. f_equal. cbn [recorded]. rewrite Hst.
      destruct (user_completion m (Impl.current (store w).1)) as [next|e] eqn:Hm.
      + destruct (impl_mutate_normal (R:=R) m next (store w) Hm) as (_ & -> & ->). done.
      + done. }
  intros Hi Hc. cbv zeta. destruct (H ms w) as [-> ->]. rewrite Hi, Hc. cbn.
  by destruct ms.
Qed.

End DevtoolsFacts.

(** ** The composite view: lazy activation *)

Section CombineInvariants.
Context {V : Type} `{EqDecision V}.

(** X16. In every state of a composite over new member stores that
    nobody else subscribes to, the composite is subscribed to its members exactly when it has a
    subscriber; when it has none no member store has a listener left,
    and when it has one every member store has exactly one, which has
    seen the member's present value. *)
Theorem composite_listens_iff_subscribed
    (members : list (string * V)) (ops : list (Combine.Op V)) :
  NoDup members.*1 →
  let w := Combine.exec ops (Combine.init members) in
  (Combine.attached w = true ↔ Combine.subscribers (Combine.view w) ≠ []) ∧
  (Combine.subscribers (Combine.view w) = [] →
     ∀ k s, Combine.stores w !! k = Some s → Impl.listeners s = []) ∧
  (Combine.subscribers (Combine.view w) ≠ [] →
     ∀ k s, Combine.stores w !! k = Some s →
       ∃ id, Impl.listeners s = [id] ∧
             Impl.closures s !! id = Some (Combine.member_listener k (Impl.current s))).
Proof.
  intros Hnd w.
  pose proof (exec_consistent ops _ (init_consistent members Hnd)) as (_ & _ & _ & Hc).
  fold w in Hc. unfold Combine.attached.
  destruct (Combine.childUnsubs (Combine.view w)) as [handles|].
  - destruct Hc as (Hs & Hm & _). split_and!; [done|done|].
    intros _ k s Hk. destruct (Hm k s Hk) as (id & _ & Hl). by exists id.
  - destruct Hc as (Hs & Hm). split_and!; [|done|done].
    split; [done|]. by rewrite Hs.
Qed.

(** X17. [read], [subscribe] and the unsubscribe handle of a composite
    leave the aggregate object, what [read()] returns and the members'
    values as they are. *)
Theorem composite_subscription_keeps_aggregate
    (members : list (string * V)) (ops : list (Combine.Op V)) (op : Combine.Op V) :
  NoDup members.*1 →
  (if op is Combine.OnMember _ _ then False else True) →
  let w := Combine.exec ops (Combine.init members) in
  let w' := Combine.exec [op] w in
  Combine.current (Combine.view w') = Combine.current (Combine.view w) ∧
  outcome (Combine.read w') = outcome (Combine.read w) ∧
  Combine.same_values w w'.
Proof.
  intros Hnd Hop w w'. subst w'. rewrite exec_one.
  destruct (quiet_step op w (exec_consistent ops _ (init_consistent members Hnd)) Hop)
    as [Hv Hc].
  split_and!; [done| |done]. unfold Combine.read, bind, get, ret. cbn. by rewrite Hc.
Qed.

End CombineInvariants.

(** ** Passes whose subscribers call no unsubscribe handle *)

Section ImplQuietPass.
Context {T R Env : Type}.
Implicit Types w : @Impl.world T R Env.

Lemma impl_notify_quiet id w :
  (∀ l, Impl.closures w.1 !! id = Some l → calls_no_handle l) →
  let r := Impl.notify (R:=R) id w in
  outcome r = Normal tt ∧
  Impl.listeners (after r).1 = Impl.listeners w.1 ∧
  Impl.current (after r).1 = Impl.current w.1 ∧
  Impl.version (after r).1 = Impl.version w.1 ∧
  Impl.fresh (after r).1 = Impl.fresh w.1 ∧
  (∀ j, j ≠ id → Impl.closures (after r).1 !! j = Impl.closures w.1 !! j) ∧
  (∀ l, Impl.closures w.1 !! id = Some l →
     Impl.closures (after r).1 !! id =
       Some (if equality l (prev l) (selector l (Impl.current w.1)) then l
             else with_prev (selector l (Impl.current w.1)) l)) ∧
  (after r).2 = pass_env w.1 w.2 id.
Proof.
  intros Hq. cbv zeta. rewrite (impl_notify_run id w Hq). unfold pass_env.
  destruct (Impl.closures w.1 !! id) as [l|] eqn:Hl; cbn; [|done].
  destruct (equality l (prev l) (selector l (Impl.current w.1))) eqn:He; cbn.
  { split_and!; try done. intros l' [= <-]. by rewrite He. }
  split_and!; try done.
  - intros j Hj. by rewrite lookup_insert_ne.
  - intros l' [= <-]. rewrite He. apply lookup_insert_eq.
Qed.

Lemma pass_env_ext (s s' : @Impl.store T R Env) (ids : list nat) (env : Env) :
  Impl.current s' = Impl.current s →
  (∀ j, j ∈ ids → Impl.closures s' !! j = Impl.closures s !! j) →
  foldl (pass_env s') env ids = foldl (pass_env s) env ids.
Proof.
  intros Hcur. revert env. induction ids as [|j ids IH]; intros env Hcl; [done|].
  cbn [foldl]. rewrite IH by (intros i Hi; apply Hcl; by right).
  f_equal. unfold pass_env. rewrite Hcur, (Hcl j) by left. done.
Qed.

(** A pass over listeners whose subscribers call no unsubscribe
    handle. *)
Lemma impl_quiet_pass (ids : list nat) w :
  NoDup ids →
  (∀ id l, id ∈ ids → Impl.closures w.1 !! id = Some l → calls_no_handle l) →
  let r := for_each (Impl.notify (R:=R)) ids w in
  outcome r = Normal tt ∧
  Impl.listeners (after r).1 = Impl.listeners w.1 ∧
  Impl.current (after r).1 = Impl.current w.1 ∧
  Impl.version (after r).1 = Impl.version w.1 ∧
  Impl.fresh (after r).1 = Impl.fresh w.1 ∧
  (∀ j, j ∉ ids → Impl.closures (after r).1 !! j = Impl.closures w.1 !! j) ∧
  (∀ id l, id ∈ ids → Impl.closures w.1 !! id = Some l →
     Impl.closures (after r).1 !! id =
       Some (if equality l (prev l) (selector l (Impl.current w.1)) then l
             else with_prev (selector l (Impl.current w.1)) l)) ∧
  (after r).2 = foldl (pass_env w.1) w.2 ids.
Proof.
  revert w. induction ids as [|id ids IH]; intros w Hnd Hq; cbv zeta.
  { cbn. split_and!; try done. intros id l Hid. by apply elem_of_nil in Hid. }
  apply NoDup_cons in Hnd as [Hid Hnd].
  destruct (impl_notify_quiet id w (λ l, Hq id l (list_elem_of_here _ _)))
    as (Ho & Hl & Hc & Hv & Hf & Hne & Heq & Henv).
  rewrite for_each_cons_normal by done.
  destruct (IH (after (Impl.notify (R:=R) id w)) Hnd)
    as (Ho' & Hl' & Hc' & Hv' & Hf' & Hne' & Heq' & Henv').
  { intros j l Hj Hlj. rewrite Hne in Hlj by (intros ->; done).
    apply (Hq j l); [by right|done]. }
  cbn [outcome after trace].
  split_and!.
  - done.
  - by rewrite Hl'.
  - by rewrite Hc'.
  - by rewrite Hv'.
  - by rewrite Hf'.
  - intros j [Hj1 Hj2]%not_elem_of_cons. by rewrite Hne', Hne.
  - intros j l [->|Hj]%elem_of_cons Hlj.
    + rewrite Hne' by done. by apply Heq.
    + assert (j ≠ id) as Hji by (intros ->; done).
      rewrite (Heq' j l Hj) by (by rewrite Hne). by rewrite Hc.
  - rewrite Henv'. cbn [foldl]. rewrite Henv.
    apply pass_env_ext; [done|]. intros j Hj. apply Hne. intros ->. done.
Qed.

Lemma impl_call_subscriber_quiet id (sub : Subscriber R Env) (v : R) w :
  (sub v w.2).2 = [] →
  Impl.call_subscriber (T:=T) id sub v w = Run (Normal tt) (w.1, (sub v w.2).1) [Fired id v].
Proof.
  intros Hq. unfold Impl.call_subscriber, bind, tell, get. cbn.
  destruct (sub v w.2) as [env' handles]. cbn in Hq. subst handles. done.
Qed.

(** [subscribe] with a subscriber that calls no unsubscribe handle. *)
Lemma impl_subscribe_quiet (Object_is : R → R → bool) sel (sub : Subscriber R Env) options w :
  (∀ v env, (sub v env).2 = []) →
  Impl.subscribe Object_is sel sub options w =
    Run (Normal (Impl.fresh w.1))
        (Impl.set_listeners (Impl.set_add (Impl.fresh w.1) (Impl.listeners w.1))
           (Impl.alloc_closure
              {| selector := sel; equality := default Object_is (options ≫= opt_eq);
                 prev := sel (Impl.current w.1); subscriber := sub |} w.1),
         if default false (options ≫= fireImmediately)
         then (sub (sel (Impl.current w.1)) w.2).1 else w.2)
        (if default false (options ≫= fireImmediately)
         then [Fired (Impl.fresh w.1) (sel (Impl.current w.1))] else []).
Proof.
  intros Hq. unfold Impl.subscribe. rewrite bind_get. cbv zeta.
  destruct (default false (options ≫= fireImmediately)).
  - eapply bind_run_then; [by apply impl_call_subscriber_quiet|]. done.
  - eapply bind_run_quiet; [done|]. by destruct w.
Qed.

End ImplQuietPass.

(** ** The composite view over members that the program observes *)

Section CombineObserved.
Context {V : Type} `{EqDecision V}.
Implicit Types w : Combine.world V.
Implicit Types s : Combine.store V.
Implicit Types c : Combine.combined V.

Lemma foldl_fixed {A B} (f : A → B → A) (a : A) (l : list B) :
  (∀ x, x ∈ l → f a x = a) → foldl f a l = a.
Proof.
  induction l as [|x l IH]; intros Hf; [done|].
  cbn. rewrite Hf by left. apply IH. intros y Hy. apply Hf. by right.
Qed.

Lemma observes_pass_env s c id :
  Combine.observes s id → pass_env s c id = c.
Proof.
  intros (l & Hl & Hsub). unfold pass_env. rewrite Hl. cbn. rewrite Hsub.
  by destruct (equality l _ _).
Qed.

Lemma member_ok_quiet h k s id l :
  Combine.member_ok h k s →
  id ∈ Impl.listeners s → Impl.closures s !! id = Some l → calls_no_handle l.
Proof.
  intros (_ & _ & Hh) Hid Hl v c. destruct h as [hs|].
  - destruct Hh as (wid & _ & _ & Hw & Hobs).
    destruct (decide (id = wid)) as [->|Hne].
    + unfold Combine.watches in Hw. rewrite Hw in Hl. by injection Hl as <-.
    + destruct (Hobs id Hid Hne) as (l' & Hl' & Hsub).
      rewrite Hl in Hl'. injection Hl' as <-. by rewrite Hsub.
  - destruct (Hh id Hid) as (l' & Hl' & Hsub).
    rewrite Hl in Hl'. injection Hl' as <-. by rewrite Hsub.
Qed.

(** The pass of a mutation of member [k] that has produced [next]: the
    member's listeners stay as they are, the composite's listener, if
    there is one, is told when [next] is another value, and the
    observers leave the composite alone. *)
Lemma member_pass h k s c (next : V) :
  Combine.member_ok h k s →
  let r := Impl.notifyListeners (R:=V) (Impl.committed next (s, c)) in
  outcome r = Normal tt ∧
  Combine.member_ok h k (after r).1 ∧
  Impl.current (after r).1 = next ∧
  (after r).2 =
    (if (if h is Some _ then true else false) && negb (bool_decide (Impl.current s = next))
     then Combine.on_member k next c else c) ∧
  notified (trace r) = Impl.listeners s.
Proof.
  intros Hok. cbv zeta.
  pose proof (impl_pass_snapshot (Impl.committed next (s, c))) as Hsnap.
  unfold Impl.notifyListeners in *. rewrite bind_get in *.
  set (s1 := Impl.bump_version (Impl.set_current next s)).
  change (Impl.committed next (s, c)) with (s1, c) in *.
  change (Impl.listeners (s1, c).1) with (Impl.listeners s) in *.
  destruct Hok as (Hnd & Hfr & Hh).
  destruct (impl_quiet_pass (Impl.listeners s) (s1, c) Hnd)
    as (Ho & Hl & Hc & Hv & Hf & Hne & Heq & Henv).
  { intros id l Hid Hl. by apply (member_ok_quiet h k s id l). }
  cbn [fst snd] in *.
  change (Impl.closures s1) with (Impl.closures s) in *.
  change (Impl.current s1) with next in *.
  change (Impl.fresh s1) with (Impl.fresh s) in *.
  split_and!; [done| |done| |done].
  - split_and!; [by rewrite Hl | by rewrite Hl, Hf |].
    destruct h as [hs|].
    + destruct Hh as (wid & Hhs & Hin & Hw & Hobs). exists wid.
      rewrite Hl. split_and!; [done|done| |].
      * unfold Combine.watches in *. rewrite (Heq wid _ Hin Hw), Hc.
        cbn. unfold Combine.Object_is. case_bool_decide as Hb; [by rewrite Hb|done].
      * intros id Hid Hne'. destruct (Hobs id Hid Hne') as (l & Hll & Hsub).
        eexists. split; [by apply Heq|]. by destruct (equality l _ _).
    + rewrite Hl. intros id Hid. destruct (Hh id Hid) as (l & Hll & Hsub).
      eexists. split; [by apply Heq|]. by destruct (equality l _ _).
  - rewrite Henv. destruct h as [hs|]; cbn [andb].
    + destruct Hh as (wid & Hhs & Hin & Hw & Hobs).
      apply list_elem_of_split in Hin as (l1 & l2 & Hsplit). rewrite Hsplit in *.
      apply NoDup_app in Hnd as (_ & Hl1 & Hnd2). apply NoDup_cons in Hnd2 as [Hl2 _].
      rewrite foldl_app. cbn [foldl].
      assert (∀ id, id ∈ l1 ++ wid :: l2 → id ≠ wid → Combine.observes s1 id) as Hobs1.
      { intros id Hid Hne'. by apply Hobs. }
      rewrite (foldl_fixed (pass_env s1) c l1).
      2:{ intros id Hid. apply observes_pass_env, Hobs1.
          - apply elem_of_app. by left.
          - intros ->. apply (Hl1 wid Hid). by left. }
      assert (pass_env s1 c wid =
              if negb (bool_decide (Impl.current s = next))
              then Combine.on_member k next c else c) as ->.
      { unfold pass_env. change (Impl.closures s1) with (Impl.closures s).
        unfold Combine.watches in Hw. rewrite Hw. cbn. unfold Combine.Object_is.
        by case_bool_decide. }
      apply foldl_fixed. intros id Hid.
      assert (Combine.observes s1 id) as (l & Hll & Hsub).
      { apply Hobs1; [apply elem_of_app; right; by right|]. intros ->. done. }
      unfold pass_env. rewrite Hll. cbn. rewrite Hsub. by destruct (equality l _ _).
    + apply foldl_fixed. intros id Hid. by apply observes_pass_env, Hh.
Qed.

Lemma coherent_subscribed w :
  Combine.coherent w →
  Combine.subscribed w = (if Combine.childUnsubs (Combine.view w) is Some _ then true else false).
Proof.
  intros (_ & _ & _ & Hsub & _). unfold Combine.subscribed.
  destruct (Combine.childUnsubs (Combine.view w)) as [hs|].
  - apply bool_decide_eq_true_2. intros Hs. by apply Hsub in Hs.
  - apply bool_decide_eq_false_2. intros Hs. apply Hs. by apply Hsub.
Qed.

(** Replacing a member's store and the composite by ones that keep the
    subscriptions keeps the state coherent. *)
Lemma coherent_update k s' c' w :
  Combine.coherent w →
  is_Some (Combine.stores w !! k) →
  Combine.member_ok (Combine.childUnsubs (Combine.view w)) k s' →
  Combine.subscribers c' = Combine.subscribers (Combine.view w) →
  Combine.childUnsubs c' = Combine.childUnsubs (Combine.view w) →
  (Combine.ref (Combine.current c') < Combine.next_ref c')%nat →
  Combine.coherent
    {| Combine.keys := Combine.keys w;
       Combine.stores := <[k := s']> (Combine.stores w);
       Combine.view := c' |}.
Proof.
  intros (Hnd & Hdom & Href & Hsub & Hkeys & Hall) Hk Hok Hs Hch Href'.
  unfold Combine.coherent. cbn. rewrite Hs, Hch.
  split_and!; [done| |done|done|done|].
  - intros j. rewrite Hdom. destruct (decide (k = j)) as [<-|Hne].
    + rewrite lookup_insert_eq. by split; eauto.
    + by rewrite lookup_insert_ne.
  - intros j sj. destruct (decide (k = j)) as [<-|Hne].
    + rewrite lookup_insert_eq. by intros [= <-].
    + rewrite lookup_insert_ne by done. apply Hall.
Qed.

Lemma on_member_trace k (m : Mutation V) w s :
  Combine.stores w !! k = Some s →
  trace (Combine.step (Combine.OnMember k m) w)
  = trace (Impl.mutate (R:=V) m (s, Combine.view w)).
Proof.
  intros Hk. unfold Combine.step, bind, Combine.member. rewrite Hk.
  cbn [outcome after trace].
  destruct (outcome _); cbn [trace]; [|done].
  by rewrite app_nil_r.
Qed.

(** A mutation of member [k] whose function has produced [next]. *)
Lemma member_mutation k (m : Mutation V) w s (next : V) :
  Combine.coherent w →
  Combine.stores w !! k = Some s →
  user_completion m (Impl.current s) = Normal next →
  let r := Combine.call (Combine.Do (Combine.OnMember k m)) w in
  ∃ s',
    after r =
      {| Combine.keys := Combine.keys w;
         Combine.stores := <[k := s']> (Combine.stores w);
         Combine.view :=
           if Combine.subscribed w && negb (bool_decide (Impl.current s = next))
           then Combine.on_member k next (Combine.view w)
           else Combine.view w |} ∧
    Impl.current s' = next ∧
    Combine.member_ok (Combine.childUnsubs (Combine.view w)) k s' ∧
    notified (trace r) = Impl.listeners s.
Proof.
  intros Hw Hk Hm. cbv zeta. cbn [Combine.call].
  rewrite (on_member_after k m w s Hk), (on_member_trace k m w s Hk), Hm.
  rewrite impl_mutate_spec. cbn [fst]. rewrite Hm. cbn [trace]. cbv zeta.
  rewrite (coherent_subscribed w Hw).
  destruct Hw as (_ & _ & _ & _ & _ & Hall).
  destruct (member_pass (Combine.childUnsubs (Combine.view w)) k s (Combine.view w) next
              (Hall k s Hk)) as (_ & Hok & Hc & Henv & Hn).
  eexists. split; [|done]. by rewrite Henv.
Qed.

Lemma member_mutation_coherent k (m : Mutation V) w :
  Combine.coherent w →
  Combine.coherent (after (Combine.call (Combine.Do (Combine.OnMember k m)) w)).
Proof.
  intros Hw. cbn [Combine.call].
  destruct (Combine.stores w !! k) as [s|] eqn:Hk; [|by rewrite on_member_missing].
  destruct (user_completion m (Impl.current s)) as [next|e] eqn:Hm;
    [|by rewrite (on_member_after k m w s Hk), Hm].
  destruct (member_mutation k m w s next Hw Hk Hm) as (s' & Hr & Hc & Hok & _).
  cbn [Combine.call] in Hr. rewrite Hr.
  assert (Combine.ref (Combine.current (Combine.view w))
          < Combine.next_ref (Combine.view w))%nat as Href by apply Hw.
  destruct (on_member_spec k next (Combine.view w) Href) as (H1 & H2 & H3 & H4).
  apply coherent_update; [done | by eauto | done | | |].
  - by destruct (_ && _).
  - by destruct (_ && _).
  - destruct (_ && _); [|done]. rewrite H1, H4. cbn. lia.
Qed.

(** [stores[k].subscribe(sel, observer, options)] *)
Lemma observe_run k sel options w s :
  Combine.stores w !! k = Some s →
  Combine.call (Combine.Observe k sel options) w =
    Run (Normal tt)
        {| Combine.keys := Combine.keys w;
           Combine.stores :=
             <[k := Impl.set_listeners (Impl.set_add (Impl.fresh s) (Impl.listeners s))
                      (Impl.alloc_closure
                         {| selector := sel;
                            equality := default Combine.Object_is (options ≫= opt_eq);
                            prev := sel (Impl.current s);
                            subscriber := Combine.observer |} s)]>
               (Combine.stores w);
           Combine.view := Combine.view w |}
        (if default false (options ≫= fireImmediately)
         then [Fired (Impl.fresh s) (sel (Impl.current s))] else []).
Proof.
  intros Hk. cbn [Combine.call].
  eapply bind_run_then; [|done].
  unfold Combine.member. rewrite Hk.
  rewrite (impl_subscribe_quiet Combine.Object_is sel Combine.observer options) by done.
  cbn [outcome after trace fst snd].
  by destruct (default false (options ≫= fireImmediately)).
Qed.

Lemma observe_missing k sel options w :
  Combine.stores w !! k = None →
  after (Combine.call (Combine.Observe k sel options) w) = w.
Proof. intros Hk. cbn [Combine.call]. unfold bind, Combine.member. by rewrite Hk. Qed.

Lemma observe_member_ok h k sel eq s :
  Combine.member_ok h k s →
  Combine.member_ok h k
    (Impl.set_listeners (Impl.set_add (Impl.fresh s) (Impl.listeners s))
       (Impl.alloc_closure
          {| selector := sel; equality := eq; prev := sel (Impl.current s);
             subscriber := Combine.observer |} s)).
Proof.
  intros (Hnd & Hfr & Hh).
  assert (Impl.fresh s ∉ Impl.listeners s) as Hnew.
  { intros Hin. specialize (Hfr _ Hin). lia. }
  unfold Combine.member_ok, Impl.set_add. rewrite decide_False by done. cbn.
  split_and!.
  - apply NoDup_app. split_and!; [done| |apply NoDup_singleton].
    intros x Hx ->%list_elem_of_singleton. done.
  - intros id [Hid| ->%list_elem_of_singleton]%elem_of_app; [|lia].
    specialize (Hfr _ Hid). lia.
  - destruct h as [hs|].
    + destruct Hh as (wid & Hhs & Hin & Hw & Hobs). exists wid.
      split_and!; [done | apply elem_of_app; by left | |].
      * unfold Combine.watches in *. cbn. rewrite lookup_insert_ne; [done|].
        specialize (Hfr _ Hin). lia.
      * intros id [Hid| ->%list_elem_of_singleton]%elem_of_app Hne.
        -- destruct (Hobs id Hid Hne) as (l & Hl & Hsub). exists l. split; [|done].
           cbn. rewrite lookup_insert_ne; [done|]. specialize (Hfr _ Hid). lia.
        -- eexists. split; [apply lookup_insert_eq|done].
    + intros id [Hid| ->%list_elem_of_singleton]%elem_of_app.
      * destruct (Hh id Hid) as (l & Hl & Hsub). exists l. split; [|done].
        cbn. rewrite lookup_insert_ne; [done|]. specialize (Hfr _ Hid). lia.
      * eexists. split; [apply lookup_insert_eq|done].
Qed.

(** The unsubscribe handle of an observer. *)
Lemma unobserve_run k id w s :
  Combine.stores w !! k = Some s →
  Combine.call (Combine.Unobserve k id) w =
    Run (Normal tt)
        {| Combine.keys := Combine.keys w;
           Combine.stores :=
             <[k := if Combine.own_handle w k id then s
                    else Impl.set_listeners (filter (λ x, x ≠ id) (Impl.listeners s)) s]>
               (Combine.stores w);
           Combine.view := Combine.view w |}
        [].
Proof.
  intros Hk. cbn [Combine.call]. rewrite bind_get.
  destruct (Combine.own_handle w k id).
  - rewrite insert_id by done. by destruct w.
  - unfold Combine.member. rewrite Hk. by rewrite impl_unsubscribe_spec.
Qed.

Lemma unobserve_missing k id w :
  Combine.stores w !! k = None →
  after (Combine.call (Combine.Unobserve k id) w) = w.
Proof.
  intros Hk. cbn [Combine.call]. rewrite bind_get.
  destruct (Combine.own_handle w k id); [done|]. unfold Combine.member. by rewrite Hk.
Qed.

Lemma unobserve_member_ok k id w s :
  Combine.member_ok (Combine.childUnsubs (Combine.view w)) k s →
  Combine.member_ok (Combine.childUnsubs (Combine.view w)) k
    (if Combine.own_handle w k id then s
     else Impl.set_listeners (filter (λ x, x ≠ id) (Impl.listeners s)) s).
Proof.
  intros Hok. unfold Combine.own_handle. case_bool_decide as Hown; [done|].
  destruct Hok as (Hnd & Hfr & Hh). unfold Combine.member_ok. cbn.
  split_and!.
  - by apply NoDup_filter.
  - intros x [_ Hx]%list_elem_of_filter. by apply Hfr.
  - destruct (Combine.childUnsubs (Combine.view w)) as [hs|]; cbn in Hown.
    + destruct Hh as (wid & Hhs & Hin & Hw & Hobs). exists wid.
      split_and!; [done| |done|].
      * apply list_elem_of_filter. split; [|done]. intros ->. apply Hown. by apply Hhs.
      * intros x [_ Hx]%list_elem_of_filter Hne. by apply Hobs.
    + intros x [_ Hx]%list_elem_of_filter. by apply Hh.
Qed.

Lemma observe_coherent k sel options w :
  Combine.coherent w →
  Combine.coherent (after (Combine.call (Combine.Observe k sel options) w)).
Proof.
  intros Hw. destruct (Combine.stores w !! k) as [s|] eqn:Hk; [|by rewrite observe_missing].
  rewrite (observe_run k sel options w s Hk). cbn [after].
  apply coherent_update; [done | by eauto | | done | done | apply Hw].
  apply observe_member_ok. by apply Hw.
Qed.

Lemma unobserve_coherent k id w :
  Combine.coherent w →
  Combine.coherent (after (Combine.call (Combine.Unobserve k id) w)).
Proof.
  intros Hw. destruct (Combine.stores w !! k) as [s|] eqn:Hk; [|by rewrite unobserve_missing].
  rewrite (unobserve_run k id w s Hk). cbn [after].
  apply coherent_update; [done | by eauto | | done | done | apply Hw].
  apply unobserve_member_ok. by apply Hw.
Qed.

(** The loop of [attach]. *)
Lemma attach_members (ks : list string) w :
  NoDup ks →
  (∀ k, k ∈ ks → is_Some (Combine.stores w !! k)) →
  ∃ handles w',
    map_m Combine.attach_member ks w = Run (Normal handles) w' [] ∧
    Combine.view w' = Combine.view w ∧
    Combine.keys w' = Combine.keys w ∧
    (∀ k, Combine.stores w' !! k =
          if decide (k ∈ ks) then Combine.attached_store k <$> Combine.stores w !! k
          else Combine.stores w !! k) ∧
    (∀ k id, (k, id) ∈ handles ↔
             k ∈ ks ∧ ∃ s, Combine.stores w !! k = Some s ∧ id = Impl.fresh s).
Proof.
  revert w. induction ks as [|k ks IH]; intros w Hnd Hdom.
  { exists [], w. split_and!; try done.
    intros k id. split; [by intros ?%elem_of_nil | by intros [?%elem_of_nil _]]. }
  apply NoDup_cons in Hnd as [Hk Hnd].
  destruct (Hdom k) as [s Hs]; [by left|].
  pose proof (attach_member_spec k w s Hs) as Hone.
  fold (Combine.attached_store k s) in Hone.
  set (w1 := {| Combine.keys := Combine.keys w;
                Combine.stores := <[k := Combine.attached_store k s]> (Combine.stores w);
                Combine.view := Combine.view w |}) in *.
  destruct (IH w1 Hnd) as (hs & w' & Hloop & Hview & Hkeys & Hst & Hhs).
  { intros j Hj. cbn. rewrite lookup_insert_ne; [apply Hdom; by right|]. by intros ->. }
  exists ((k, Impl.fresh s) :: hs), w'. split_and!.
  - rewrite (map_m_cons_normal Combine.attach_member k ks w (k, Impl.fresh s) hs);
      rewrite Hone; cbn [outcome after trace]; rewrite ?Hloop; done.
  - by rewrite Hview.
  - by rewrite Hkeys.
  - intros j. rewrite Hst. cbn [Combine.stores w1].
    destruct (decide (j = k)) as [->|Hne].
    + rewrite decide_False by done. rewrite decide_True by left.
      by rewrite lookup_insert_eq, Hs.
    + rewrite lookup_insert_ne by done.
      destruct (decide (j ∈ ks)) as [Hj|Hj].
      * by rewrite decide_True by (by right).
      * by rewrite decide_False by (by intros [?|?]%elem_of_cons).
  - intros j id. rewrite elem_of_cons, Hhs. cbn [Combine.stores w1]. split.
    + intros [[= -> ->]|(Hj & s0 & Hs0 & ->)].
      * split; [by left|]. eauto.
      * split; [by right|]. exists s0. split; [|done].
        rewrite lookup_insert_ne in Hs0; [done|]. by intros ->.
    + intros ([->|Hj]%elem_of_cons & s0 & Hs0 & ->).
      * left. congruence.
      * right. split; [done|]. exists s0. split; [|done].
        rewrite lookup_insert_ne; [done|]. by intros ->.
Qed.

Lemma attached_member_ok (handles : list (string * nat)) k s :
  (∀ id, (k, id) ∈ handles ↔ id = Impl.fresh s) →
  Combine.member_ok None k s →
  Combine.member_ok (Some handles) k (Combine.attached_store k s).
Proof.
  intros Hhs (Hnd & Hfr & Hobs).
  assert (Impl.fresh s ∉ Impl.listeners s) as Hnew.
  { intros Hin. specialize (Hfr _ Hin). lia. }
  unfold Combine.member_ok, Combine.attached_store, Impl.set_add.
  rewrite decide_False by done. cbn.
  split_and!.
  - apply NoDup_app. split_and!; [done| |apply NoDup_singleton].
    intros x Hx ->%list_elem_of_singleton. done.
  - intros id [Hid| ->%list_elem_of_singleton]%elem_of_app; [|lia].
    specialize (Hfr _ Hid). lia.
  - exists (Impl.fresh s). split_and!; [done| | |].
    + apply elem_of_app. right. by apply list_elem_of_singleton.
    + unfold Combine.watches. cbn. apply lookup_insert_eq.
    + intros id [Hid| ->%list_elem_of_singleton]%elem_of_app Hne; [|done].
      destruct (Hobs id Hid) as (l & Hl & Hsub). exists l. split; [|done].
      cbn. by rewrite lookup_insert_ne.
Qed.

Lemma composite_attach_run w :
  Combine.coherent w →
  Combine.childUnsubs (Combine.view w) = None →
  ∃ handles (ss : gmap string (Combine.store V)),
    Combine.attach w =
      Run (Normal tt)
          {| Combine.keys := Combine.keys w; Combine.stores := ss;
             Combine.view := Combine.set_childUnsubs (Some handles) (Combine.view w) |} [] ∧
    (∀ k, ss !! k = Combine.attached_store k <$> Combine.stores w !! k) ∧
    (∀ k id, (k, id) ∈ handles ↔ ∃ s, Combine.stores w !! k = Some s ∧ id = Impl.fresh s).
Proof.
  intros (Hnd & Hdom & _) Hch.
  destruct (attach_members (Combine.keys w) w Hnd)
    as (handles & w1 & Hloop & Hview & Hkeys & Hst & Hhs).
  { intros k Hk. by apply Hdom. }
  exists handles, (Combine.stores w1). split_and!.
  - unfold Combine.attach. rewrite bind_get, Hch.
    eapply bind_run_quiet; [exact Hloop|].
    unfold Combine.on_view, modify. by rewrite Hview, Hkeys.
  - intros k. rewrite Hst. destruct (decide (k ∈ Combine.keys w)) as [Hk|Hk]; [done|].
    destruct (Combine.stores w !! k) eqn:Hs; [|done].
    exfalso. apply Hk, Hdom. eauto.
  - intros k id. rewrite Hhs. split.
    + by intros (_ & ?).
    + intros (s & Hs & ->). split; [apply Hdom|]; eauto.
Qed.

(** The loop of [detach]. *)
Lemma detached_store_nil k s : Combine.detached_store [] k s = s.
Proof.
  unfold Combine.detached_store. rewrite filter_all; [by destruct s|].
  intros id _. apply not_elem_of_nil.
Qed.

Lemma detached_store_cons k j id (hs : list (string * nat)) s :
  Combine.detached_store hs k
    (if decide (j = k)
     then Impl.set_listeners (filter (λ x, x ≠ id) (Impl.listeners s)) s else s)
  = Combine.detached_store ((j, id) :: hs) k s.
Proof.
  unfold Combine.detached_store. destruct (decide (j = k)) as [->|Hne].
  - unfold Impl.set_listeners. cbn. f_equal.
    rewrite list_filter_filter. apply list_filter_iff.
    intros x. rewrite not_elem_of_cons. split.
    { intros [? ?]. split; [congruence|done]. }
    intros [? ?]. split; [done|congruence].
  - f_equal. apply list_filter_iff. intros x. rewrite not_elem_of_cons. split.
    { intros ?. split; [congruence|done]. }
    by intros [_ ?].
Qed.

Lemma detach_members (handles : list (string * nat)) w :
  (∀ k id, (k, id) ∈ handles → is_Some (Combine.stores w !! k)) →
  ∃ w',
    for_each (λ u : string * nat, Combine.member u.1 (Impl.unsubscribe (R:=V) u.2))
      handles w = Run (Normal tt) w' [] ∧
    Combine.view w' = Combine.view w ∧
    Combine.keys w' = Combine.keys w ∧
    (∀ k, Combine.stores w' !! k
          = Combine.detached_store handles k <$> Combine.stores w !! k).
Proof.
  revert w. induction handles as [|[j id] hs IH]; intros w Hdom.
  { exists w. split_and!; try done. intros k.
    destruct (Combine.stores w !! k); cbn; [|done]. by rewrite detached_store_nil. }
  destruct (Hdom j id) as [s Hs]; [by left|].
  assert (Combine.member j (Impl.unsubscribe (R:=V) id) w =
          Run (Normal tt)
              {| Combine.keys := Combine.keys w;
                 Combine.stores :=
                   <[j := Impl.set_listeners (filter (λ x, x ≠ id) (Impl.listeners s)) s]>
                     (Combine.stores w);
                 Combine.view := Combine.view w |} []) as Hone.
  { unfold Combine.member. rewrite Hs. by rewrite impl_unsubscribe_spec. }
  set (w1 := {| Combine.keys := Combine.keys w;
                Combine.stores := <[j := _]> (Combine.stores w);
                Combine.view := Combine.view w |}) in *.
  destruct (IH w1) as (w' & Hloop & Hview & Hkeys & Hst).
  { intros k idk Hk. cbn. destruct (decide (j = k)) as [<-|Hne].
    - rewrite lookup_insert_eq. eauto.
    - rewrite lookup_insert_ne by done. apply (Hdom k idk). by right. }
  exists w'. split_and!.
  - rewrite for_each_cons_normal; cbn [fst snd]; rewrite Hone; [|done].
    cbn [outcome after trace]. by rewrite Hloop.
  - by rewrite Hview.
  - by rewrite Hkeys.
  - intros k. rewrite Hst. cbn [Combine.stores w1].
    pose proof (detached_store_cons k j id hs) as Hcons.
    destruct (decide (j = k)) as [->|Hne].
    + rewrite lookup_insert_eq, Hs. cbn. f_equal. apply Hcons.
    + rewrite lookup_insert_ne by done.
      destruct (Combine.stores w !! k) as [sk|]; cbn; [|done]. f_equal. apply Hcons.
Qed.

Lemma detached_member_ok (handles : list (string * nat)) k s :
  Combine.member_ok (Some handles) k s →
  Combine.member_ok None k (Combine.detached_store handles k s).
Proof.
  intros (Hnd & Hfr & wid & Hhs & Hin & Hw & Hobs).
  unfold Combine.member_ok, Combine.detached_store. cbn. split_and!.
  - by apply NoDup_filter.
  - intros id [_ Hid]%list_elem_of_filter. by apply Hfr.
  - intros id [Hid1 Hid2]%list_elem_of_filter.
    destruct (Hobs id Hid2) as (l & Hl & Hsub); [|by exists l].
    intros ->. apply Hid1. by apply Hhs.
Qed.

Lemma composite_detach_run handles w :
  (∀ k id, (k, id) ∈ handles → is_Some (Combine.stores w !! k)) →
  Combine.childUnsubs (Combine.view w) = Some handles →
  ∃ ss : gmap string (Combine.store V),
    Combine.detach w =
      Run (Normal tt)
          {| Combine.keys := Combine.keys w; Combine.stores := ss;
             Combine.view := Combine.set_childUnsubs None (Combine.view w) |} [] ∧
    (∀ k, ss !! k = Combine.detached_store handles k <$> Combine.stores w !! k).
Proof.
  intros Hdom Hch.
  destruct (detach_members handles w Hdom) as (w1 & Hloop & Hview & Hk1 & Hst).
  exists (Combine.stores w1). split; [|done].
  unfold Combine.detach. rewrite bind_get, Hch.
  eapply bind_run_quiet; [exact Hloop|].
  unfold Combine.on_view, modify. by rewrite Hview, Hk1.
Qed.

(** [Combined.subscribe] *)
Lemma subscribe_from options w w1 :
  (if Combine.childUnsubs (Combine.view w) is None then Combine.attach else ret tt) w
    = Run (Normal tt) w1 [] →
  ∃ c',
    after (Combine.step (Combine.Subscribe options) w) =
      {| Combine.keys := Combine.keys w1; Combine.stores := Combine.stores w1;
         Combine.view := c' |} ∧
    Combine.current c' = Combine.current (Combine.view w1) ∧
    Combine.childUnsubs c' = Combine.childUnsubs (Combine.view w1) ∧
    Combine.next_ref c' = Combine.next_ref (Combine.view w1) ∧
    Combine.subscribers c' ≠ [].
Proof.
  intros Hfirst.
  destruct (subscribe_registers options w1) as (c' & Htail & Hc').
  exists c'. split; [|done].
  assert (Combine.subscribe options w =
          Run (Normal (Combine.fresh (Combine.view w1)))
              {| Combine.keys := Combine.keys w1; Combine.stores := Combine.stores w1;
                 Combine.view := c' |} []) as Hsub.
  { unfold Combine.subscribe. cbv zeta.
    rewrite (bind_run get _ w w w [] eq_refl). cbv beta.
    rewrite (bind_run _ _ w w1 tt [] Hfirst). cbv beta.
    cbv zeta in Htail. rewrite Htail. done. }
  cbn [Combine.step]. by rewrite (bind_run _ _ w _ _ _ Hsub).
Qed.

Lemma subscribe_coherent options w :
  Combine.coherent w →
  let w' := after (Combine.call (Combine.Do (Combine.Subscribe options)) w) in
  Combine.coherent w' ∧
  Combine.current (Combine.view w') = Combine.current (Combine.view w) ∧
  (∀ k, Combine.value_of k w' = Combine.value_of k w).
Proof.
  intros Hw. cbv zeta. cbn [Combine.call].
  destruct (Combine.childUnsubs (Combine.view w)) as [hs|] eqn:Hch.
  - destruct (subscribe_from options w w) as (c' & -> & Hcur & Hch' & Href & Hne).
    { by rewrite Hch. }
    split_and!; [|done..].
    destruct Hw as (Hnd & Hdom & Href0 & Hsub & Hkeys & Hall).
    unfold Combine.coherent. cbn. rewrite Hch', Hcur, Href, Hch in *.
    split_and!; try done.
  - destruct (composite_attach_run w Hw Hch) as (handles & ss & Hatt & Hss & Hhs).
    destruct (subscribe_from options w _ ltac:(rewrite Hch; exact Hatt))
      as (c' & -> & Hcur & Hch' & Href & Hne).
    cbn [Combine.keys Combine.stores Combine.view Combine.set_childUnsubs
         Combine.current Combine.childUnsubs Combine.next_ref] in *.
    split_and!; [|done|].
    + destruct Hw as (Hnd & Hdom & Href0 & Hsub & Hkeys & Hall).
      unfold Combine.coherent. cbn. rewrite Hch', Hcur, Href.
      split_and!; try done.
      * intros k. rewrite Hdom, Hss. by rewrite fmap_is_Some.
      * cbn. intros k id Hin. apply Hdom. apply Hhs in Hin as (s & Hs & _). eauto.
      * intros k s'. rewrite Hss. intros Hs'.
        destruct (Combine.stores w !! k) as [s|] eqn:Hs; [|done].
        injection Hs' as <-. apply attached_member_ok.
        -- intros id. rewrite Hhs. split; [intros (s0 & Hs0 & ->); congruence|].
           intros ->. eauto.
        -- specialize (Hall k s Hs). by rewrite Hch in Hall.
    + intros k. unfold Combine.value_of. cbn. rewrite Hss.
      by destruct (Combine.stores w !! k).
Qed.

(** The handle returned by [Combined.subscribe]. *)
Lemma unsubscribe_coherent id w :
  Combine.coherent w →
  let w' := after (Combine.call (Combine.Do (Combine.Unsubscribe id)) w) in
  Combine.coherent w' ∧
  Combine.current (Combine.view w') = Combine.current (Combine.view w) ∧
  (∀ k, Combine.value_of k w' = Combine.value_of k w) ∧
  (Combine.subscribers (Combine.view w) = [] → Combine.subscribers (Combine.view w') = []).
Proof.
  intros Hw. cbv zeta. cbn [Combine.call Combine.step]. unfold Combine.unsubscribe.
  set (c1 := match indexOf (Combine.subscribers (Combine.view w)) id with
             | Some idx =>
                 Combine.set_subscribers
                   (delete idx (Combine.subscribers (Combine.view w))) (Combine.view w)
             | None => Combine.view w
             end).
  set (w1 := {| Combine.keys := Combine.keys w; Combine.stores := Combine.stores w;
                Combine.view := c1 |}).
  assert (match indexOf (Combine.subscribers (Combine.view w)) id with
          | Some idx =>
              Combine.on_view (V:=V)
                (Combine.set_subscribers (delete idx (Combine.subscribers (Combine.view w))))
          | None => ret tt
          end w = Run (Normal tt) w1 []) as Hfirst.
  { subst w1 c1. destruct (indexOf _ _); [done|]. by destruct w. }
  rewrite (bind_run get _ w w w [] eq_refl). cbv beta.
  rewrite (bind_run _ _ w w1 tt [] Hfirst). cbv beta.
  rewrite (bind_run get _ w1 w1 w1 [] eq_refl). cbv beta.
  cbn [outcome after trace].
  assert (Combine.childUnsubs c1 = Combine.childUnsubs (Combine.view w) ∧
          Combine.current c1 = Combine.current (Combine.view w) ∧
          Combine.next_ref c1 = Combine.next_ref (Combine.view w) ∧
          (Combine.subscribers (Combine.view w) = [] → Combine.subscribers c1 = []))
    as (Hc1 & Hc2 & Hc3 & Hc4).
  { subst c1. destruct (indexOf _ _) eqn:Hi; [|done]. split_and!; try done.
    intros Hemp. rewrite Hemp in Hi. done. }
  destruct Hw as (Hnd & Hdom & Href & Hsub & Hkeys & Hall).
  destruct (decide (length (Combine.subscribers (Combine.view w1)) = 0%nat)) as [Hlen|Hlen].
  - apply nil_length_inv in Hlen. cbn [Combine.view w1] in Hlen.
    destruct (Combine.childUnsubs (Combine.view w)) as [handles|] eqn:Hch.
    + destruct (composite_detach_run handles w1) as (ss & Hdet & Hss).
      { intros k j Hin. cbn. apply Hdom. by apply (Hkeys k j). }
      { done. }
      rewrite Hdet. cbn [outcome after trace Combine.view Combine.keys w1].
      split_and!; [|done| |done].
      * unfold Combine.coherent. cbn. rewrite Hlen, Hc2, Hc3.
        split_and!; try done.
        -- intros k. rewrite Hdom, Hss. cbn. by rewrite fmap_is_Some.
        -- cbn. intros k j Hin. by apply elem_of_nil in Hin.
        -- intros k s'. rewrite Hss. cbn. intros Hs'.
           destruct (Combine.stores w !! k) as [s|] eqn:Hs; [|done].
           injection Hs' as <-. apply detached_member_ok. by apply Hall.
      * intros k. unfold Combine.value_of. cbn. rewrite Hss. cbn.
        by destruct (Combine.stores w !! k).
    + rewrite (detach_detached w1) by done. cbn [outcome after trace Combine.view w1].
      split_and!; [|done..].
      unfold Combine.coherent. cbn. rewrite Hc1, Hc2, Hc3, Hlen.
      split_and!; done.
  - cbn [ret outcome after trace Combine.view w1]. split_and!; [|done..|done].
    unfold Combine.coherent. cbn. rewrite Hc1, Hc2, Hc3.
    split_and!; try done.
    cbn [Combine.view w1] in Hlen. split.
    + intros Hemp. by rewrite Hemp in Hlen.
    + intros Hnone. apply Hc4. by apply Hsub.
Qed.

Lemma call_coherent (c : Combine.Call V) w :
  Combine.coherent w → Combine.coherent (after (Combine.call c w)).
Proof.
  intros Hw. destruct c as [[k m | | options | id] | k sel options | k id].
  - by apply member_mutation_coherent.
  - done.
  - by apply subscribe_coherent.
  - by apply unsubscribe_coherent.
  - by apply observe_coherent.
  - by apply unobserve_coherent.
Qed.

Lemma perform_cons (c : Combine.Call V) calls w :
  Combine.perform (c :: calls) w = Combine.perform calls (after (Combine.call c w)).
Proof. unfold Combine.perform. by rewrite fmap_cons, script_after. Qed.


Lemma perform_coherent (calls : list (Combine.Call V)) w :
  Combine.coherent w → Combine.coherent (Combine.perform calls w).
Proof.
  revert w. induction calls as [|c calls IH]; intros w Hw; [done|].
  rewrite perform_cons. by apply IH, call_coherent.
Qed.

Lemma init_coherent (members : list (string * V)) :
  NoDup members.*1 → Combine.coherent (Combine.init members).
Proof.
  intros Hnd. unfold Combine.coherent. split_and!.
  - done.
  - apply init_member.
  - cbn. lia.
  - done.
  - cbn. intros k id Hin. by apply elem_of_nil in Hin.
  - intros k s Hs. destruct (init_lookup members k s Hs) as (v & _ & ->).
    unfold Combine.member_ok. cbn. split_and!; [apply NoDup_nil_2|..];
      intros id Hid; by apply elem_of_nil in Hid.
Qed.

(** A call that is not a mutation of a member leaves the aggregate
    object and the members' values as they are. *)
Lemma call_quiet (c : Combine.Call V) w :
  Combine.coherent w →
  (if c is Combine.Do (Combine.OnMember _ _) then False else True) →
  Combine.current (Combine.view (after (Combine.call c w)))
    = Combine.current (Combine.view w) ∧
  (∀ k, Combine.value_of k (after (Combine.call c w)) = Combine.value_of k w).
Proof.
  intros Hw Hc. destruct c as [[k m | | options | id] | k sel options | k id]; try done.
  - by destruct (subscribe_coherent options w Hw) as (_ & ? & ?).
  - by destruct (unsubscribe_coherent id w Hw) as (_ & ? & ? & _).
  - destruct (Combine.stores w !! k) as [s|] eqn:Hk; [|by rewrite observe_missing].
    rewrite (observe_run k sel options w s Hk). cbn [after Combine.view]. split; [done|].
    intros j. unfold Combine.value_of. cbn [Combine.stores].
    destruct (decide (k = j)) as [<-|Hne].
    + by rewrite lookup_insert_eq, Hk.
    + by rewrite lookup_insert_ne.
  - destruct (Combine.stores w !! k) as [s|] eqn:Hk; [|by rewrite unobserve_missing].
    rewrite (unobserve_run k id w s Hk). cbn [after Combine.view]. split; [done|].
    intros j. unfold Combine.value_of. cbn [Combine.stores].
    destruct (decide (k = j)) as [<-|Hne].
    + rewrite lookup_insert_eq, Hk. by destruct (Combine.own_handle w k id).
    + by rewrite lookup_insert_ne.
Qed.

(** A mutation of member [k]. *)
Lemma member_mutation_aggregate k (m : Mutation V) w :
  Combine.coherent w →
  let r := Combine.call (Combine.Do (Combine.OnMember k m)) w in
  let a := Combine.current (Combine.view w) in
  let a' := Combine.current (Combine.view (after r)) in
  (∀ j, j ≠ k → Combine.value_of j (after r) = Combine.value_of j w) ∧
  match Combine.stores w !! k with
  | None => after r = w
  | Some s =>
      match user_completion m (Impl.current s) with
      | Throws _ => after r = w ∧ trace r = []
      | Normal next =>
          Combine.value_of k (after r) = Some next ∧
          notified (trace r) = Impl.listeners s ∧
          if Combine.subscribed w && negb (bool_decide (Impl.current s = next))
          then a' = {| Combine.ref := Combine.next_ref (Combine.view w);
                       Combine.slots := <[k := next]> (Combine.slots a) |}
          else a' = a
      end
  end.
Proof.
  intros Hw. cbv zeta.
  destruct (Combine.stores w !! k) as [s|] eqn:Hk.
  2:{ cbn [Combine.call]. by rewrite on_member_missing. }
  destruct (user_completion m (Impl.current s)) as [next|e] eqn:Hm.
  - destruct (member_mutation k m w s next Hw Hk Hm) as (s' & Hr & Hc & _ & Hn).
    rewrite Hr. cbn [Combine.view]. split_and!; [| |done|].
    + intros j Hj. unfold Combine.value_of. cbn. by rewrite lookup_insert_ne.
    + unfold Combine.value_of. cbn. rewrite lookup_insert_eq. cbn. by rewrite Hc.
    + destruct (_ && _); [|done].
      by destruct (on_member_spec k next (Combine.view w)) as (-> & _); [apply Hw|].
  - cbn [Combine.call]. rewrite (on_member_after k m w s Hk), (on_member_trace k m w s Hk), Hm.
    rewrite impl_mutate_spec. cbn [fst]. by rewrite Hm.
Qed.






(** C8. In every state of a composite built over new member stores
    and reached by any calls of the program, on the composite, on its
    members and of observers of its members: [read()] returns the
    aggregate object; a mutation of member [k] leaves the slot and the
    value of every other key as they are (the same value, i.e. the same
    reference); when the function of the mutation returns, the member
    takes the value it produced and calls its listeners, and if the
    composite has a subscriber and that value is another one, the
    aggregate is a new object whose slots are those of the old one with
    slot [k] replaced by the member's new value; otherwise, when the
    function throws, and after any call that is not a mutation of a
    member, [read()] returns the same aggregate object as before.  While
    the composite has a subscriber, each member store holds the listener
    of the composite. *)
Theorem member_change_replaces_only_its_slot
    (members : list (string * V)) (calls : list (Combine.Call V))
    (k : string) (m : Mutation V) :
  NoDup members.*1 →
  let w := Combine.perform calls (Combine.init members) in
  let r := Combine.call (Combine.Do (Combine.OnMember k m)) w in
  let a := Combine.current (Combine.view w) in
  let a' := Combine.current (Combine.view (after r)) in
  outcome (Combine.read w) = Normal a ∧
  (∀ j, j ≠ k → Combine.slots a' !! j = Combine.slots a !! j) ∧
  (∀ j, j ≠ k → Combine.value_of j (after r) = Combine.value_of j w) ∧
  (∀ s next,
     Combine.stores w !! k = Some s →
     user_completion m (Impl.current s) = Normal next →
     Combine.value_of k (after r) = Some next ∧
     notified (trace r) = Impl.listeners s ∧
     if bool_decide (Combine.subscribers (Combine.view w) ≠ [])
        && negb (bool_decide (Impl.current s = next))
     then Combine.slots a' = <[k := next]> (Combine.slots a) ∧
          Combine.same_object a a' = false
     else a' = a) ∧
  (∀ s, Combine.stores w !! k = Some s →
        is_normal (user_completion m (Impl.current s)) = false → after r = w) ∧
  (Combine.subscribers (Combine.view w) ≠ [] →
   ∀ s, Combine.stores w !! k = Some s →
        ∃ id, id ∈ Impl.listeners s ∧
              Impl.closures s !! id = Some (Combine.member_listener k (Impl.current s))) ∧
  (∀ x : Combine.Call V,
     (if x is Combine.Do (Combine.OnMember _ _) then False else True) →
     Combine.current (Combine.view (after (Combine.call x w))) = a).
Proof.
  intros Hnd. cbv zeta.
  pose proof (perform_coherent calls _ (init_coherent members Hnd)) as Hw.
  set (w := Combine.perform calls (Combine.init members)) in *.
  destruct (member_mutation_aggregate k m w Hw) as (Hval & Hk).
  split_and!.
  - done.
  - intros j Hj. destruct (Combine.stores w !! k) as [s|] eqn:Hs; [|by rewrite Hk].
    destruct (user_completion m (Impl.current s)) as [next|e] eqn:Hm.
    + destruct Hk as (_ & _ & Hagg).
      destruct (_ && _); rewrite Hagg; [|done]. cbn. by rewrite lookup_insert_ne.
    + by destruct Hk as [-> _].
  - done.
  - intros s next Hs Hm. rewrite Hs, Hm in Hk. destruct Hk as (Hv & Hn & Hagg).
    split_and!; [done..|]. fold (Combine.subscribed w).
    destruct (_ && _); [|done]. rewrite Hagg. split; [done|].
    unfold Combine.same_object. cbn. apply bool_decide_eq_false_2.
    destruct Hw as (_ & _ & Href & _). lia.
  - intros s Hs Hm. rewrite Hs in Hk.
    destruct (user_completion m (Impl.current s)); [done|]. by destruct Hk.
  - intros Hsub s Hs. destruct Hw as (_ & _ & _ & Hiff & _ & Hall).
    specialize (Hall k s Hs).
    destruct (Combine.childUnsubs (Combine.view w)) as [hs|].
    + destruct Hall as (_ & _ & id & _ & Hin & Hwatch & _). by exists id.
    + exfalso. by apply Hsub, Hiff.
  - intros x Hx. by destruct (call_quiet x w Hw Hx).
Qed.


End CombineObserved.


Lemma member_change_witness :
  let members := [("sa"%string, 1); ("sb"%string, 10)] in
  let calls := [Combine.Observe "sa" (λ x : Z, x) None; Combine.Do (Combine.Subscribe None)] in
  let w := Combine.perform calls (Combine.init members) in
  let w' := after (Combine.call (Combine.Do (Combine.OnMember "sa" (MSet 2))) w) in
  let a := Combine.current (Combine.view w) in
  let a' := Combine.current (Combine.view w') in
  NoDup members.*1 ∧
  Combine.slots a' = <["sa" := 2]> (Combine.slots a) ∧
  Combine.same_object a a' = false ∧
  Combine.slots a' !! "sb" = Combine.slots a !! "sb" ∧
  Combine.slots a !! "sa" = Some 1 ∧
  Combine.slots a' !! "sa" = Some 2 ∧
  Combine.slots a' !! "sb" = Some 10.
Proof.
  cbv zeta.
  assert (NoDup [("sa"%string, 1); ("sb"%string, 10)].*1) as Hnd
    by (apply (bool_decide_unpack _); vm_compute; exact I).
  split; [exact Hnd|].
  destruct (member_change_replaces_only_its_slot
              [("sa"%string, 1); ("sb"%string, 10)]
              [Combine.Observe "sa" (λ x : Z, x) None; Combine.Do (Combine.Subscribe None)]
              "sa" (MSet 2) Hnd) as (_ & Hframe & _ & Hslot & _).
  assert (∃ s, Combine.stores
                 (Combine.perform
                    [Combine.Observe "sa" (λ x : Z, x) None;
                     Combine.Do (Combine.Subscribe None)]
                    (Combine.init [("sa"%string, 1); ("sb"%string, 10)])) !! "sa" = Some s ∧
               Impl.current s = 1) as (s & Hs & Hc).
  { eexists. split; [vm_compute; reflexivity|reflexivity]. }
  specialize (Hslot s 2 Hs eq_refl). destruct Hslot as (_ & _ & Hagg).
  rewrite Hc in Hagg.
  assert (bool_decide
            (Combine.subscribers
               (Combine.view
                  (Combine.perform
                     [Combine.Observe "sa" (λ x : Z, x) None;
                      Combine.Do (Combine.Subscribe None)]
                     (Combine.init [("sa"%string, 1); ("sb"%string, 10)]))) ≠ [])
          = true) as Hsub by (vm_compute; reflexivity).
  rewrite Hsub in Hagg. rewrite bool_decide_eq_false_2 in Hagg by lia.
  destruct Hagg as [Hslots Hobj].
  split; [exact Hslots|]. split; [exact Hobj|].
  split; [apply Hframe; discriminate|].
  split_and!; vm_compute; reflexivity.
Defined.


(** ** Witnesses of the further properties *)

Lemma unsubscribed_listener_witness :
  let y := Counter.Build_CounterState 1 "y" in
  let subscribed := [Example.subscribe_and_drop_next; Example.subscribe_count] in
  let pre := subscribed ++ [OpMutate (MSet y)] in
  let ops := [OpMutate (MSet (Counter.Build_CounterState 2 "z"));
              OpMutate (MSet (Counter.Build_CounterState 3 "z"))] in
  let cw := closure_reach Z.eqb pre Counter.init [] in
  let iw := impl_reach Z.eqb pre Counter.init [] in
  (1 < Closure.fresh cw.1)%nat ∧
  (1 < Impl.fresh iw.1)%nat ∧
  (1%nat ∉ Closure.listeners cw.1) ∧
  (1%nat ∉ Impl.listeners iw.1) ∧
  (1%nat ∉ notified (trace (script (Closure.step Z.eqb <$> ops) cw))) ∧
  (1%nat ∉ notified (trace (script (Impl.step Z.eqb <$> ops) iw))) ∧
  notified (trace (Closure.step Z.eqb (OpMutate (MSet y))
                     (closure_reach Z.eqb subscribed Counter.init []))) = [0%nat] ∧
  notified (trace (Impl.step Z.eqb (OpMutate (MSet y))
                     (impl_reach Z.eqb subscribed Counter.init []))) = [0%nat; 1%nat].
Proof.
  cbv zeta.
  set (pre := [Example.subscribe_and_drop_next; Example.subscribe_count]
              ++ [OpMutate (MSet (Counter.Build_CounterState 1 "y"))]).
  set (ops := [OpMutate (MSet (Counter.Build_CounterState 2 "z"));
               OpMutate (MSet (Counter.Build_CounterState 3 "z"))]).
  assert (1 < Closure.fresh (closure_reach Z.eqb pre Counter.init []).1)%nat
    as Hc by (vm_compute; lia).
  assert (1 < Impl.fresh (impl_reach Z.eqb pre Counter.init []).1)%nat
    as Hi by (vm_compute; lia).
  assert (1%nat ∉ Closure.listeners (closure_reach Z.eqb pre Counter.init []).1) as Hco.
  { assert (Closure.listeners (closure_reach Z.eqb pre Counter.init []).1 = [0%nat]) as ->
      by (vm_compute; reflexivity).
    intros Hin. apply list_elem_of_singleton in Hin. discriminate Hin. }
  assert (1%nat ∉ Impl.listeners (impl_reach Z.eqb pre Counter.init []).1) as Hio.
  { assert (Impl.listeners (impl_reach Z.eqb pre Counter.init []).1 = [0%nat]) as ->
      by (vm_compute; reflexivity).
    intros Hin. apply list_elem_of_singleton in Hin. discriminate Hin. }
  destruct (unsubscribed_listener_is_never_called Z.eqb pre ops Counter.init [] 1 Hc Hi)
    as (_ & _ & Hcs & His).
  split; [exact Hc|]. split; [exact Hi|]. split; [exact Hco|]. split; [exact Hio|].
  split; [exact (proj1 (Hcs Hco))|]. split; [exact (proj1 (His Hio))|].
  split; vm_compute; reflexivity.
Defined.

Lemma closure_pass_witness :
  NoDup (Closure.listeners Example.closure_two_recorders.1) ∧
  user_completion (MSet (Counter.Build_CounterState 1 "y"))
    (Closure.current Example.closure_two_recorders.1)
    = Normal (Counter.Build_CounterState 1 "y") ∧
  Closure.listeners Example.closure_two_recorders.1
    `sublist_of`
    notified (trace (Closure.mutate (R:=Z) (MSet (Counter.Build_CounterState 1 "y"))
                       Example.closure_two_recorders)) ∧
  fired (trace (Closure.mutate (R:=Z) (MSet (Counter.Build_CounterState 1 "y"))
                  Example.closure_two_recorders)) = [(0%nat, 1); (1%nat, 1)].
Proof.
  assert (NoDup (Closure.listeners Example.closure_two_recorders.1)) as Hnd
    by (apply (bool_decide_unpack _); vm_compute; exact I).
  split; [exact Hnd|]. split; [reflexivity|]. split; [|vm_compute; reflexivity].
  refine (proj1 (closure_pass_complete_without_unsubscribe
                   (MSet (Counter.Build_CounterState 1 "y"))
                   (Counter.Build_CounterState 1 "y")
                   Example.closure_two_recorders Hnd _ eq_refl)).
  intros id l Hin Hl v env.
  assert (subscriber l = Counter.record_value) as ->; [|reflexivity].
  assert (id = 0%nat ∨ id = 1%nat) as [-> | ->].
  { vm_compute in Hin. apply elem_of_cons in Hin as [->|Hin]; [by left|].
    apply elem_of_cons in Hin as [->|Hin]; [by right|]. by apply elem_of_nil in Hin. }
  - vm_compute in Hl. by injection Hl as <-.
  - vm_compute in Hl. by injection Hl as <-.
Defined.

Lemma impl_subscriber_fires_witness :
  (0%nat ∈ Impl.listeners (impl_reach Z.eqb [Example.subscribe_count] Counter.init []).1) ∧
  Impl.closures (impl_reach Z.eqb [Example.subscribe_count] Counter.init []).1 !! 0%nat
    = Some Example.count_listener ∧
  identifies (equality Example.count_listener) ∧
  calls_of 0
    (fired (trace (Impl.mutate (R:=Z) (MSet (Counter.Build_CounterState 1 "y"))
                     (impl_reach Z.eqb [Example.subscribe_count] Counter.init []))))
  = [1].
Proof.
  assert (0%nat ∈ Impl.listeners
                    (impl_reach Z.eqb [Example.subscribe_count] Counter.init []).1) as Hin
    by (vm_compute; left).
  assert (identifies (equality Example.count_listener)) as Hid
    by (intros a b; apply Z.eqb_eq).
  split; [exact Hin|]. split; [reflexivity|]. split; [exact Hid|].
  exact (impl_subscriber_fires_iff_selection_changes Z.eqb [Example.subscribe_count]
           Counter.init [] (MSet (Counter.Build_CounterState 1 "y"))
           (Counter.Build_CounterState 1 "y") 0 Example.count_listener
           Hin eq_refl Hid eq_refl).
Defined.

Lemma batch_agrees_witness :
  fold_calls [Counter.add_call 1; Counter.add_call 2] Counter.init
    = Normal (Counter.Build_CounterState 3 "init") ∧
  Impl.version
    (after (Impl.mutate (R:=Z) (MBatch (callback_of [Counter.add_call 1; Counter.add_call 2]))
              Counter.impl_two_listeners)).1
  = Impl.version Counter.impl_two_listeners.1 + 1 ∧
  Impl.version
    (after (script (Impl.mutate (R:=Z) <$> (MUpdate <$> [Counter.add_call 1; Counter.add_call 2]))
              Counter.impl_two_listeners)).1
  = Impl.version Counter.impl_two_listeners.1
    + Z.of_nat (length [Counter.add_call 1; Counter.add_call 2]).
Proof.
  split; [reflexivity|].
  destruct (batch_agrees_with_sequential_updates (R:=Z) (Env:=list Z)
              [Counter.add_call 1; Counter.add_call 2] Counter.init
              (Counter.Build_CounterState 3 "init") eq_refl) as [_ Hi].
  destruct (Hi Counter.impl_two_listeners eq_refl) as (_ & _ & _ & Hb & Hs).
  split; [exact Hb | exact Hs].
Defined.

Lemma derived_subscriber_witness :
  user_completion (MSet (Counter.Build_CounterState 1 "y"))
    (Impl.current (impl_reach (Env:=list Z) Z.eqb [] Counter.init []).1)
    = Normal (Counter.Build_CounterState 1 "y") ∧
  outcome (Derive.read Counter.count
             (after (Derive.subscribe Z.eqb Counter.count Counter.record_value None
                       (impl_reach (Env:=list Z) Z.eqb [] Counter.init []))))
  = Normal (Counter.count (Impl.current (impl_reach (Env:=list Z) Z.eqb [] Counter.init []).1)).
Proof.
  split; [reflexivity|].
  destruct (derived_subscriber_fires_iff_read_changes Z.eqb [] Counter.init []
              Counter.count Counter.record_value None
              (MSet (Counter.Build_CounterState 1 "y"))
              (Counter.Build_CounterState 1 "y") eq_refl) as (_ & Hr & _).
  exact Hr.
Defined.

Lemma round_trip_witness :
  Serialize.validate Example.v2_options Example.doc = true ∧
  Example.parse_doc (Example.stringify_doc (Serialize.envelope 2 Example.doc))
    = Normal (Serialize.envelope 2 Example.doc) ∧
  Serialize.decode
    (Serialize.createSerializer Example.parse_doc Example.stringify_doc 2 Example.v2_options)
    (Serialize.encode
       (Serialize.createSerializer Example.parse_doc Example.stringify_doc 2
          Example.v2_options)
       Example.doc)
  = Normal Example.doc.
Proof.
  split; [reflexivity|]. split; [reflexivity|].
  exact (decode_encode_round_trip Example.parse_doc Example.stringify_doc 2
           Example.v2_options Example.doc eq_refl eq_refl).
Defined.

Lemma rehydrate_witness :
  Transaction.lawful (impl_api (T:=Serialize.json) (R:=Serialize.json) (Env:=unit))
    (λ w, Impl.current w.1) ∧
  Serialize.validate Example.v2_options (Impl.current Example.doc_store.1) = true ∧
  Example.parse_doc
    (Example.stringify_doc (Serialize.envelope 2 (Impl.current Example.doc_store.1)))
    = Normal (Serialize.envelope 2 (Impl.current Example.doc_store.1)) ∧
  (∀ raw serializer e,
     match serializer with
     | Some s' => Serialize.decode s' raw
     | None => Example.parse_doc raw
     end = Throws e →
     Serialize.rehydrate Example.parse_doc impl_api raw serializer Example.null_store
     = Run (Throws e) Example.null_store []).
Proof.
  split; [apply impl_api_lawful|]. split; [reflexivity|]. split; [reflexivity|].
  destruct (rehydrate_restores_dehydrated_value Example.parse_doc Example.stringify_doc
              impl_api (λ w, Impl.current w.1) impl_api_lawful
              2 Example.v2_options Example.doc_store Example.null_store
              eq_refl eq_refl) as [_ Hf].
  exact Hf.
Defined.

Lemma persistLocal_witness :
  Impl.listeners Example.seeded.1 = [] ∧
  Impl.current Example.persisted.1 = "seed"%string ∧
  Persist.storage_state Example.persisted.2 = Persist.storage_state Example.seeded.2.
Proof.
  split; [reflexivity|].
  destruct (persistLocal_loads_without_writing (λ s : string, Normal s) (λ raw, Normal raw)
              Example.MemoryStorage "ex/1" (Some Example.text_options) Example.seeded
              eq_refl) as (_ & _ & _ & Hst & Hcur & _).
  split; [exact Hcur | exact Hst].
Defined.





Lemma devtools_witness :
  Devtools.initialized (Middleware.mstate Example.traced) = false ∧
  Devtools.connection (Middleware.mstate Example.traced)
    = (Devtools.createMemoryConnection (T:=Counter.CounterState)).2 ∧
  Devtools.inits
    (Devtools.connection
       (Middleware.mstate
          (after (script
                    (Middleware.mutate Example.ticking
                       [Devtools.devtoolsMiddleware
                          (Devtools.createMemoryConnection (T:=Counter.CounterState)).1
                          (Some "counter"%string)]
                     <$> [MSet (Counter.Build_CounterState 1 "b");
                          MUpdate Counter.failing_call;
                          MUpdate (Counter.add_call 2)])
                    Example.traced))))
  = [Impl.current (Middleware.store Example.traced).1].
Proof.
  split; [reflexivity|]. split; [reflexivity|].
  destruct (devtools_records_successful_mutations Example.ticking (Some "counter"%string)
              [MSet (Counter.Build_CounterState 1 "b");
               MUpdate Counter.failing_call;
               MUpdate (Counter.add_call 2)]
              Example.traced eq_refl eq_refl) as (Hi & _).
  exact Hi.
Defined.

Lemma composite_listens_witness :
  NoDup [("sa"%string, 1); ("sb"%string, 10)].*1 ∧
  (Combine.attached
     (Combine.exec [Combine.Subscribe None]
        (Combine.init [("sa"%string, 1); ("sb"%string, 10)])) = true
   ↔ Combine.subscribers
       (Combine.view
          (Combine.exec [Combine.Subscribe None]
             (Combine.init [("sa"%string, 1); ("sb"%string, 10)]))) ≠ []).
Proof.
  assert (NoDup [("sa"%string, 1); ("sb"%string, 10)].*1) as Hnd
    by (apply (bool_decide_unpack _); vm_compute; exact I).
  split; [exact Hnd|].
  destruct (composite_listens_iff_subscribed
              [("sa"%string, 1); ("sb"%string, 10)] [Combine.Subscribe None] Hnd)
    as (Ha & _).
  exact Ha.
Defined.

Lemma composite_subscription_witness :
  NoDup [("sa"%string, 1); ("sb"%string, 10)].*1 ∧
  Combine.current
    (Combine.view
       (Combine.exec [Combine.Subscribe None]
          (Combine.exec [Combine.OnMember "sa" (MSet 2)]
             (Combine.init [("sa"%string, 1); ("sb"%string, 10)]))))
  = Combine.current
      (Combine.view
         (Combine.exec [Combine.OnMember "sa" (MSet 2)]
            (Combine.init [("sa"%string, 1); ("sb"%string, 10)]))).
Proof.
  assert (NoDup [("sa"%string, 1); ("sb"%string, 10)].*1) as Hnd
    by (apply (bool_decide_unpack _); vm_compute; exact I).
  split; [exact Hnd|].
  destruct (composite_subscription_keeps_aggregate
              [("sa"%string, 1); ("sb"%string, 10)] [Combine.OnMember "sa" (MSet 2)]
              (Combine.Subscribe None) Hnd I) as (Hc & _).
  exact Hc.
Defined.
